(** * Focus Firewall: the YouTube relevance filter

    A shallow embedding of the content script that filters video
    recommendations against the user's focus goal: keyword extraction,
    the relevance predicate, the annotate/clear operations on a video
    element, the scan over the document, the debounced rescan and the
    synchronisation of goal and toggle with the background store.  The
    background worker, the popup and the reminder shown on social sites
    are embedded as well, and the three are put together in a model of
    popup, worker and tabs.

    JavaScript strings are modelled as [string], each [ascii] being one
    code unit in the range U+0000..U+00FF; [toLowerCase], [trim] and the
    class [\s] are the ECMAScript ones restricted to that range. *)

From Stdlib Require Import String Ascii List Bool Arith ZArith Lia Permutation.
Import ListNotations.
Open Scope list_scope.
Open Scope string_scope.
Open Scope nat_scope.

(** ** JavaScript string primitives *)

Module JsString.

Definition code (c : ascii) : nat := nat_of_ascii c.

(** Code units with a distinct lower-case form: A-Z, and U+00C0..U+00DE
    without the multiplication sign U+00D7. *)
Definition isUpper (c : ascii) : bool :=
  ((65 <=? code c) && (code c <=? 90))
  || ((192 <=? code c) && (code c <=? 222) && negb (code c =? 215)).

Definition toLower (c : ascii) : ascii :=
  if isUpper c then ascii_of_nat (code c + 32) else c.

(** The regular-expression class [\s]: TAB, LF, VT, FF, CR, SPACE, NBSP. *)
Definition isSpace (c : ascii) : bool :=
  ((9 <=? code c) && (code c <=? 13)) || (code c =? 32) || (code c =? 160).

(** The class [[a-z0-9]]. *)
Definition isAlnumLower (c : ascii) : bool :=
  ((97 <=? code c) && (code c <=? 122)) || ((48 <=? code c) && (code c <=? 57)).

Fixpoint map (f : ascii -> ascii) (s : string) : string :=
  match s with
  | EmptyString => EmptyString
  | String c s' => String (f c) (map f s')
  end.

Fixpoint forallb (p : ascii -> bool) (s : string) : bool :=
  match s with
  | EmptyString => true
  | String c s' => p c && forallb p s'
  end.

(** [s.toLowerCase()] *)
Definition toLowerCase (s : string) : string := map toLower s.

(** [s.includes(sub)] *)
Fixpoint includes (s sub : string) : bool :=
  prefix sub s
  || match s with
     | EmptyString => false
     | String _ s' => includes s' sub
     end.

(** [s.split(/\s+/)]: [cur] is the token being read, [inRun] tells that
    the previous code unit belonged to a separator.  A separator at either
    end of the input yields an empty token there, and the empty input
    yields one empty token, as in ECMAScript. *)
Fixpoint splitFrom (inRun : bool) (cur s : string) : list string :=
  match s with
  | EmptyString => [cur]
  | String c s' =>
      if isSpace c
      then if inRun then splitFrom true EmptyString s'
           else cur :: splitFrom true EmptyString s'
      else splitFrom false (cur ++ String c EmptyString) s'
  end.

Definition splitWhitespace (s : string) : list string :=
  splitFrom false EmptyString s.

Fixpoint trimStart (s : string) : string :=
  match s with
  | EmptyString => EmptyString
  | String c s' => if isSpace c then trimStart s' else s
  end.

(** Drops the trailing white space: a code unit is kept when it is not
    white space or when something is kept after it. *)
Fixpoint trimEnd (s : string) : string :=
  match s with
  | EmptyString => EmptyString
  | String c s' =>
      match trimEnd s' with
      | EmptyString => if isSpace c then EmptyString else String c EmptyString
      | r => String c r
      end
  end.

(** [s.trim()] *)
Definition trim (s : string) : string := trimEnd (trimStart s).

End JsString.

(** ** Keyword extraction and the relevance check *)

Definition STOP_WORDS : list string :=
  [ "the"; "a"; "an"; "and"; "or"; "but"; "in"; "on"; "at"; "to"; "for";
    "of"; "with"; "by"; "from"; "is"; "it"; "as"; "be"; "was"; "are";
    "this"; "that"; "i"; "my"; "me"; "we"; "our"; "you"; "your"; "am";
    "do"; "does"; "did"; "will"; "would"; "could"; "should"; "can";
    "not"; "no"; "so"; "if"; "its"; "than"; "then"; "just"; "about";
    "into"; "over"; "after"; "up"; "down"; "out"; "off"; "how"; "what";
    "when"; "where"; "why"; "which"; "who"; "all"; "each"; "some" ].

(** [STOP_WORDS.has(w)] *)
Definition stopWordsHas (w : string) : bool :=
  existsb (String.eqb w) STOP_WORDS.

(** [.replace(/[^a-z0-9\s]/g, ' ')] on one code unit *)
Definition replaceSpecial (c : ascii) : ascii :=
  if JsString.isAlnumLower c || JsString.isSpace c then c else " "%char.

(** The filter of [extractKeywords]: [w.length > 2 && !STOP_WORDS.has(w)] *)
Definition keepWord (w : string) : bool :=
  (2 <? String.length w) && negb (stopWordsHas w).

(** [extractKeywords(text)]; [None] stands for an absent ([undefined] or
    [null]) argument, which like the empty string is falsy. *)
Definition extractKeywords (text : option string) : list string :=
  match text with
  | None => []
  | Some EmptyString => []
  | Some t =>
      filter keepWord
        (JsString.splitWhitespace
           (JsString.map replaceSpecial (JsString.toLowerCase t)))
  end.

(** [keywords.some(keyword => titleLower.includes(keyword))] *)
Definition someKeywordIn (keywords : list string) (titleLower : string) : bool :=
  existsb (fun keyword => JsString.includes titleLower keyword) keywords.

(** [isRelevant(videoTitle)], with the global [currentGoal] it reads made a
    parameter. *)
Definition isRelevant (currentGoal videoTitle : string) : bool :=
  match currentGoal with
  | EmptyString => true
  | _ =>
      let keywords := extractKeywords (Some currentGoal) in
      if Nat.eqb (List.length keywords) 0 then true
      else
        let titleLower := JsString.toLowerCase videoTitle in
        someKeywordIn keywords titleLower
  end.

(** ** The host document

    The document is a tree of nodes.  An element carries the attributes
    the script reads or writes; [uid] is the identity of the element
    object, by which the script's references to it are followed while
    the tree around it changes. *)

Module Dom.

Local Open Scope list_scope.

Record Attrs : Type := mkAttrs {
  uid : nat;
  tagName : string;           (* local name *)
  id : string;                (* the id attribute, empty when absent *)
  classList : list string;
  stylePosition : string;     (* the inline style's position, empty when unset *)
  title : option string       (* the title attribute *)
}.

#[local] Set Warnings "-register-all".

Inductive Node : Type :=
| Text (data : string)
| Elem (a : Attrs) (childNodes : list Node).

(** A reference to an element of the tree: the tag names of its
    ancestors, nearest first, its attributes and its children. *)
Definition Ref : Type := (list string * Attrs * list Node)%type.

Definition refAttrs (r : Ref) : Attrs := snd (fst r).
Definition refNode (r : Ref) : Node := Elem (snd (fst r)) (snd r).
Definition refAncestors (r : Ref) : list string := fst (fst r).

(** The elements of a subtree in document order, the root first. *)
Fixpoint subtree (anc : list string) (n : Node) : list Ref :=
  match n with
  | Text _ => []
  | Elem a cs => (anc, a, cs) :: flat_map (subtree (tagName a :: anc)) cs
  end.

Definition descendants (anc : list string) (n : Node) : list Ref :=
  match n with
  | Text _ => []
  | Elem a cs => flat_map (subtree (tagName a :: anc)) cs
  end.

Definition uids (n : Node) : list nat :=
  List.map (fun r => uid (refAttrs r)) (subtree [] n).

(** [node.textContent] *)
Fixpoint textContent (n : Node) : string :=
  match n with
  | Text d => d
  | Elem _ cs => String.concat "" (List.map textContent cs)
  end.

(** The selectors the script uses. *)
Inductive Selector : Type :=
| Tag (t : string)                 (* t *)
| Id (i : string)                  (* #i, [id="i"] *)
| Class (c : string)               (* .c *)
| TagId (t i : string)             (* t#i *)
| Inside (t u : string)            (* t u *)
| StylePositionRelative.           (* [style*="position: relative"] *)

Definition hasClass (c : string) (a : Attrs) : bool :=
  existsb (String.eqb c) (classList a).

Definition matches (s : Selector) (anc : list string) (a : Attrs) : bool :=
  match s with
  | Tag t => String.eqb (tagName a) t
  | Id i => String.eqb (id a) i
  | Class c => hasClass c a
  | TagId t i => String.eqb (tagName a) t && String.eqb (id a) i
  | Inside t u => String.eqb (tagName a) u && existsb (String.eqb t) anc
  | StylePositionRelative => String.eqb (stylePosition a) "relative"
  end.

(** A selector list [s1, s2, ...] *)
Definition matchesAny (ss : list Selector) (r : Ref) : bool :=
  existsb (fun s => matches s (refAncestors r) (refAttrs r)) ss.

(** [element.querySelectorAll(ss)]: the matching descendants, in document
    order; [anc] are the tag names above [n]. *)
Definition querySelectorAll (ss : list Selector) (anc : list string) (n : Node) : list Ref :=
  filter (matchesAny ss) (descendants anc n).

(** [element.querySelector(ss)] *)
Definition querySelector (ss : list Selector) (anc : list string) (n : Node) : option Ref :=
  hd_error (querySelectorAll ss anc n).

(** [document.querySelectorAll(ss)], the root element included. *)
Definition documentQuerySelectorAll (ss : list Selector) (root : Node) : list Ref :=
  filter (matchesAny ss) (subtree [] root).

(** The element with identity [u], looked up in document order. *)
Definition findElem (u : nat) (anc : list string) (n : Node) : option Ref :=
  find (fun r => uid (refAttrs r) =? u) (subtree anc n).

(** [f] applied in place to the element with identity [u]; [None] when
    the tree has no such element. *)
Fixpoint updateElem (u : nat) (f : Node -> Node) (n : Node) : option Node :=
  match n with
  | Text _ => None
  | Elem a cs =>
      if uid a =? u then Some (f n)
      else
        option_map (Elem a)
          ((fix inChildren (l : list Node) : option (list Node) :=
              match l with
              | [] => None
              | c :: l' =>
                  match updateElem u f c with
                  | Some c' => Some (c' :: l')
                  | None => option_map (cons c) (inChildren l')
                  end
              end) cs)
  end.

(** A write through a reference; an element that is no longer in the
    tree is written without effect on the tree. *)
Definition withElem (u : nat) (f : Node -> Node) (n : Node) : Node :=
  match updateElem u f n with
  | Some n' => n'
  | None => n
  end.

(** [element.parentElement] of the element with identity [u] below [n]. *)
Fixpoint parentOf (u : nat) (n : Node) : option Attrs :=
  match n with
  | Text _ => None
  | Elem a cs =>
      (fix inChildren (l : list Node) : option Attrs :=
         match l with
         | [] => None
         | c :: l' =>
             match c with
             | Elem b _ =>
                 if uid b =? u then Some a
                 else match parentOf u c with
                      | Some p => Some p
                      | None => inChildren l'
                      end
             | Text _ => inChildren l'
             end
         end) cs
  end.

Definition isMatch (ss : list Selector) (anc : list string) (n : Node) : bool :=
  match n with
  | Text _ => false
  | Elem a cs => matchesAny ss (anc, a, cs)
  end.

(** [element.querySelectorAll(ss).forEach(o => o.remove())]: every
    matching descendant leaves the tree, with all that is below it. *)
Fixpoint removeMatching (ss : list Selector) (anc : list string) (n : Node) : Node :=
  match n with
  | Text _ => n
  | Elem a cs =>
      Elem a
        ((fix keep (l : list Node) : list Node :=
            match l with
            | [] => []
            | c :: l' =>
                if isMatch ss (tagName a :: anc) c then keep l'
                else removeMatching ss (tagName a :: anc) c :: keep l'
            end) cs)
  end.

(** [const o = element.querySelector(ss); if (o) o.remove()]: the first
    matching descendant leaves the tree; [None] when there is none. *)
Fixpoint removeFirst (ss : list Selector) (anc : list string) (n : Node) : option Node :=
  match n with
  | Text _ => None
  | Elem a cs =>
      option_map (Elem a)
        ((fix inChildren (l : list Node) : option (list Node) :=
            match l with
            | [] => None
            | c :: l' =>
                if isMatch ss (tagName a :: anc) c then Some l'
                else match removeFirst ss (tagName a :: anc) c with
                     | Some c' => Some (c' :: l')
                     | None => option_map (cons c) (inChildren l')
                     end
            end) cs)
  end.

Definition removeFirstMatching (ss : list Selector) (anc : list string) (n : Node) : Node :=
  match removeFirst ss anc n with
  | Some n' => n'
  | None => n
  end.

(** [element.appendChild(child)] *)
Definition appendChild (child : Node) (n : Node) : Node :=
  match n with
  | Text _ => n
  | Elem a cs => Elem a (cs ++ [child])
  end.

Definition mapAttrs (f : Attrs -> Attrs) (n : Node) : Node :=
  match n with
  | Text _ => n
  | Elem a cs => Elem (f a) cs
  end.

(** [element.style.position = v] *)
Definition setStylePosition (v : string) : Node -> Node :=
  mapAttrs (fun a => mkAttrs (uid a) (tagName a) (id a) (classList a) v (title a)).

Definition setClassList (l : list string) (a : Attrs) : Attrs :=
  mkAttrs (uid a) (tagName a) (id a) l (stylePosition a) (title a).

(** [element.classList.contains(c)] *)
Definition classListContains (c : string) (n : Node) : bool :=
  match n with
  | Text _ => false
  | Elem a _ => hasClass c a
  end.

(** [element.classList.add(c)] *)
Definition classListAdd (c : string) : Node -> Node :=
  mapAttrs (fun a => if hasClass c a then a else setClassList (classList a ++ [c]) a).

(** [element.classList.remove(c)] *)
Definition classListRemove (c : string) : Node -> Node :=
  mapAttrs (fun a => setClassList (filter (fun x => negb (String.eqb c x)) (classList a)) a).

End Dom.

(** ** Marking and clearing one video element *)

Module Filter.

Import Dom.
Local Open Scope list_scope.

Definition PREFIX : string := "ff-yt".
Definition BLURRED : string := Eval cbv in (PREFIX ++ "-blurred")%string.
Definition OVERLAY : string := Eval cbv in (PREFIX ++ "-overlay")%string.
Definition BADGE : string := Eval cbv in (PREFIX ++ "-badge")%string.

(** The text of the badge; its shield sign lies outside the code units
    modelled and is carried as the bytes of its encoding. *)
Definition BADGE_TEXT : string := "🛡 Irrelevant to current goal".

Definition THUMBNAIL_SELECTORS : list Selector :=
  [Id "thumbnail"; Tag "ytd-thumbnail"; Class "ytd-thumbnail"].

Definition VIDEO_SELECTORS : list Selector :=
  [ Tag "ytd-rich-item-renderer";
    Tag "ytd-video-renderer";
    Tag "ytd-compact-video-renderer";
    Tag "ytd-grid-video-renderer";
    Tag "ytd-reel-item-renderer" ].

(** [document.createElement('div')] with [className] set; [u] is the
    identity of the new element. *)
Definition createDiv (u : nat) (className : string) (children : list Node) : Node :=
  Elem (mkAttrs u "div" "" [className] "" None) children.

(** The overlay with its badge, taking the identities [fresh] and
    [fresh + 1]. *)
Definition createOverlay (fresh : nat) : Node :=
  createDiv fresh OVERLAY [createDiv (fresh + 1) BADGE [Text BADGE_TEXT]].

(** [host.style.position = 'relative'; host.appendChild(overlay)] *)
Definition attachOverlay (overlay : Node) (host : Node) : Node :=
  appendChild overlay (setStylePosition "relative" host).

(** [markIrrelevant(videoElement)] on the subtree of the video element. *)
Definition markIrrelevantEl (fresh : nat) (videoElement : Node) : Node :=
  if classListContains BLURRED videoElement then videoElement
  else
    let marked := classListAdd BLURRED videoElement in
    let overlay := createOverlay fresh in
    match querySelector THUMBNAIL_SELECTORS [] marked with
    | Some thumbContainer =>
        match parentOf (uid (refAttrs thumbContainer)) marked with
        | Some parentElement =>
            withElem (uid parentElement) (attachOverlay overlay) marked
        | None => attachOverlay overlay marked
        end
    | None => attachOverlay overlay marked
    end.

(** [markRelevant(videoElement)] on the subtree of the video element. *)
Definition markRelevantEl (videoElement : Node) : Node :=
  let cleared := classListRemove BLURRED videoElement in
  let stripped := removeMatching [Class OVERLAY] [] cleared in
  let thumbParents := querySelectorAll [StylePositionRelative] [] stripped in
  fold_left
    (fun v p => withElem (uid (refAttrs p)) (removeFirstMatching [Class OVERLAY] []) v)
    thumbParents stripped.

(** The visible state of an item: whether it is de-emphasised, and the
    overlays and badges it carries. *)
Definition isMarked (item : Node) : bool := classListContains BLURRED item.
Definition overlaysOf (item : Node) : list Ref := querySelectorAll [Class OVERLAY] [] item.
Definition badgesOf (item : Node) : list Ref := querySelectorAll [Class BADGE] [] item.

(** ** Scanning the document *)

(** What the scan reads and writes: the document, the supply of
    identities for created elements, and the calls made so far. *)
Inductive Event : Type :=
| QueryTitle (video : nat)
| CheckRelevant (videoTitle : string)
| MarkRelevant (video : nat)
| MarkIrrelevant (video : nat).

Record Page : Type := mkPage {
  document : Node;
  nextUid : nat;
  trace : list Event
}.

Definition emit (e : Event) (p : Page) : Page :=
  mkPage (document p) (nextUid p) (trace p ++ [e]).

Definition markRelevant (video : nat) (p : Page) : Page :=
  mkPage (withElem video markRelevantEl (document p)) (nextUid p)
         (trace p ++ [MarkRelevant video]).

Definition markIrrelevant (video : nat) (p : Page) : Page :=
  mkPage (withElem video (markIrrelevantEl (nextUid p)) (document p)) (nextUid p + 2)
         (trace p ++ [MarkIrrelevant video]).

Definition orElse {A : Type} (x y : option A) : option A :=
  match x with
  | Some _ => x
  | None => y
  end.

(** The title element of a video: the first of the known title
    elements that exists. *)
Definition findTitleEl (anc : list string) (video : Node) : option Ref :=
  orElse (querySelector [Id "video-title"] anc video)
  (orElse (querySelector [Id "video-title-link"] anc video)
  (orElse (querySelector [TagId "a" "video-title"] anc video)
  (orElse (querySelector [Id "video-title"] anc video)
  (orElse (querySelector [Inside "h3" "a"] anc video)
          (querySelector [Class "title"] anc video))))).

(** [(titleEl.textContent || titleEl.getAttribute('title') || '').trim()] *)
Definition titleText (titleEl : Ref) : string :=
  let text := textContent (refNode titleEl) in
  JsString.trim
    match text with
    | EmptyString =>
        match title (refAttrs titleEl) with
        | Some t => t
        | None => EmptyString
        end
    | _ => text
    end.

(** The title the scan classifies a video by; [None] when the video has
    no title element or its title is empty. *)
Definition extractTitle (anc : list string) (video : Node) : option string :=
  match findTitleEl anc video with
  | None => None
  | Some titleEl =>
      match titleText titleEl with
      | EmptyString => None
      | t => Some t
      end
  end.

(** The body of [videos.forEach(video => ...)].  The list of videos was
    taken before the loop; the element is read as it is now.  An element
    that an earlier round took out of the document is not followed any
    further: nothing done to it shows in the document, and the calls
    the script still makes on it are not recorded.  That takes a video
    inside an overlay of the script, which the script never builds. *)
Definition scanVideo (currentGoal : string) (p : Page) (video : Ref) : Page :=
  let u := uid (refAttrs video) in
  match findElem u [] (document p) with
  | None => p
  | Some now =>
      let p1 := emit (QueryTitle u) p in
      match extractTitle (refAncestors now) (refNode now) with
      | None => p1
      | Some t =>
          let p2 := emit (CheckRelevant t) p1 in
          if isRelevant currentGoal t then markRelevant u p2 else markIrrelevant u p2
      end
  end.

(** [clearAllFilters()] *)
Definition clearAllFilters (p : Page) : Page :=
  fold_left (fun q el => markRelevant (uid (refAttrs el)) q)
            (documentQuerySelectorAll [Class BLURRED] (document p)) p.

Definition falsy (s : string) : bool :=
  match s with
  | EmptyString => true
  | _ => false
  end.

(** [scanVideos()], with the globals it reads made parameters. *)
Definition scanVideos (currentGoal : string) (isEnabled : bool) (p : Page) : Page :=
  if negb isEnabled || falsy currentGoal then clearAllFilters p
  else
    let videos := documentQuerySelectorAll VIDEO_SELECTORS (document p) in
    fold_left (scanVideo currentGoal) videos p.

(** The items currently marked irrelevant. *)
Definition markedItems (doc : Node) : list Ref :=
  documentQuerySelectorAll [Class BLURRED] doc.

End Filter.

(** ** The engine: state, timers and messages *)

Module Engine.

Import Dom Filter.
Local Open Scope list_scope.

(** A field of a message as the script receives it. *)
Inductive Field (A : Type) : Type :=
| Undefined
| Null
| Value (v : A).

Arguments Undefined {A}.
Arguments Null {A}.
Arguments Value {A} v.

(** [field || ''] *)
Definition orEmpty (f : Field string) : string :=
  match f with
  | Value s => s
  | _ => EmptyString
  end.

(** [field !== false] *)
Definition notFalse (f : Field bool) : bool :=
  match f with
  | Value false => false
  | _ => true
  end.

(** The truth value of a field holding a boolean; the script only ever
    tests [isEnabled] for it. *)
Definition truthy (f : Field bool) : bool :=
  match f with
  | Value b => b
  | _ => false
  end.

Inductive Message : Type :=
| GOAL_UPDATED (goal : Field string)
| TOGGLE_CHANGED (enabled : Field bool)
| OtherMessage (type : string).

Record Response : Type := mkResponse {
  focusGoal : Field string;
  responseEnabled : Field bool
}.

Record State : Type := mkState {
  currentGoal : string;
  isEnabled : bool;
  scanTimer : option nat;          (* null, or the id of the last timeout set *)
  lastUrl : string;
  page : Page;
  clock : nat;                     (* milliseconds *)
  timers : list (nat * nat);       (* pending timeouts: id and due time *)
  nextTimer : nat;
  requests : nat;                  (* GET_STATE requests sent *)
  scanLog : list nat               (* the times at which scanVideos ran *)
}.

Definition DEBOUNCE_MS : nat := 300.

(** The state once the script has loaded: the globals at their initial
    values, one GET_STATE request sent, no timeout pending. *)
Definition boot (href : string) (host : Page) : State :=
  mkState "" true None href host 0 [] 1 1 [].

(** A call of [scanVideos()] *)
Definition runScan (st : State) : State :=
  mkState (currentGoal st) (isEnabled st) (scanTimer st) (lastUrl st)
          (scanVideos (currentGoal st) (isEnabled st) (page st))
          (clock st) (timers st) (nextTimer st) (requests st)
          (scanLog st ++ [clock st]).

(** A call of [clearAllFilters()] *)
Definition runClear (st : State) : State :=
  mkState (currentGoal st) (isEnabled st) (scanTimer st) (lastUrl st)
          (clearAllFilters (page st))
          (clock st) (timers st) (nextTimer st) (requests st) (scanLog st).

Definition setGoal (g : string) (st : State) : State :=
  mkState g (isEnabled st) (scanTimer st) (lastUrl st) (page st)
          (clock st) (timers st) (nextTimer st) (requests st) (scanLog st).

Definition setEnabled (b : bool) (st : State) : State :=
  mkState (currentGoal st) b (scanTimer st) (lastUrl st) (page st)
          (clock st) (timers st) (nextTimer st) (requests st) (scanLog st).

Definition setLastUrl (href : string) (st : State) : State :=
  mkState (currentGoal st) (isEnabled st) (scanTimer st) href (page st)
          (clock st) (timers st) (nextTimer st) (requests st) (scanLog st).

Definition setClock (t : nat) (st : State) : State :=
  mkState (currentGoal st) (isEnabled st) (scanTimer st) (lastUrl st) (page st)
          t (timers st) (nextTimer st) (requests st) (scanLog st).

Definition setTimers (l : list (nat * nat)) (st : State) : State :=
  mkState (currentGoal st) (isEnabled st) (scanTimer st) (lastUrl st) (page st)
          (clock st) l (nextTimer st) (requests st) (scanLog st).

(** [clearTimeout(id)] *)
Definition clearTimeout (id : nat) (st : State) : State :=
  setTimers (filter (fun t => negb (fst t =? id)) (timers st)) st.

(** [scanTimer = setTimeout(scanVideos, 300)] *)
Definition setScanTimeout (st : State) : State :=
  mkState (currentGoal st) (isEnabled st) (Some (nextTimer st)) (lastUrl st) (page st)
          (clock st) (timers st ++ [(nextTimer st, clock st + DEBOUNCE_MS)])
          (S (nextTimer st)) (requests st) (scanLog st).

(** [debouncedScan()] *)
Definition debouncedScan (st : State) : State :=
  setScanTimeout
    match scanTimer st with
    | Some id => clearTimeout id st
    | None => st
    end.

(** The callback of the mutation observer; a record is given by the
    length of its [addedNodes]. *)
Definition onMutations (addedNodes : list nat) (st : State) : State :=
  let hasNewContent := existsb (fun n => 0 <? n) addedNodes in
  if hasNewContent then debouncedScan st else st.

(** The listener of [chrome.runtime.onMessage] *)
Definition onMessage (message : Message) (st : State) : State :=
  match message with
  | GOAL_UPDATED goal => runScan (setGoal (orEmpty goal) st)
  | TOGGLE_CHANGED enabled =>
      let st1 := setEnabled (truthy enabled) st in
      if negb (isEnabled st1) then runClear st1 else runScan st1
  | OtherMessage _ => st
  end.

(** The callback of the GET_STATE request; [lastError] tells whether
    [chrome.runtime.lastError] is set. *)
Definition onStateResponse (lastError : bool) (response : option Response) (st : State) : State :=
  if lastError then st
  else
    match response with
    | Some r =>
        runScan (setEnabled (notFalse (responseEnabled r)) (setGoal (orEmpty (focusGoal r)) st))
    | None => st
    end.

(** The callback of the one-second interval; [href] is [location.href]. *)
Definition onPoll (href : string) (st : State) : State :=
  if String.eqb href (lastUrl st) then st
  else debouncedScan (setLastUrl href st).

(** The pending timeout that is due first at time [t]. *)
Fixpoint earliestDue (t : nat) (l : list (nat * nat)) : option (nat * nat) :=
  match l with
  | [] => None
  | x :: l' =>
      match earliestDue t l' with
      | Some y => if (snd x <=? t) && (snd x <=? snd y) then Some x else Some y
      | None => if snd x <=? t then Some x else None
      end
  end.

(** A timeout running out: its callback [scanVideos] runs at the due time. *)
Definition fire (timer : nat * nat) (st : State) : State :=
  runScan (setClock (snd timer) (clearTimeout (fst timer) st)).

Fixpoint fireDue (fuel : nat) (t : nat) (st : State) : State :=
  match fuel with
  | 0 => st
  | S k =>
      match earliestDue t (timers st) with
      | Some timer => fireDue k t (fire timer st)
      | None => st
      end
  end.

(** Time passing until [t]: the timeouts due by then run in the order
    they are due. *)
Definition advanceTo (t : nat) (st : State) : State :=
  setClock t (fireDue (List.length (timers st)) t st).

(** What the page's event loop delivers to the script. *)
Inductive Input : Type :=
| Mutations (addedNodes : list nat)
| Incoming (message : Message)
| StateResponse (lastError : bool) (response : option Response)
| Poll (href : string).

Definition handle (i : Input) (st : State) : State :=
  match i with
  | Mutations addedNodes => onMutations addedNodes st
  | Incoming message => onMessage message st
  | StateResponse lastError response => onStateResponse lastError response st
  | Poll href => onPoll href st
  end.

(** The inputs of a run, each with the time it arrives at. *)
Definition deliver (st : State) (ti : nat * Input) : State :=
  handle (snd ti) (advanceTo (fst ti) st).

Definition run (inputs : list (nat * Input)) (st : State) : State :=
  fold_left deliver inputs st.

End Engine.

(** ** The keyword set as the specification words it

    The normalised text is the lower-cased text in which every code unit
    outside [[a-z0-9]] and white space has become a space; a token is a
    maximal run of it without white space; a keyword is a token of more
    than two code units that is not a stop word. *)

Module KeywordSpec.

Import JsString.

Definition noSpace (w : string) : bool :=
  JsString.forallb (fun c => negb (isSpace c)) w.

Definition endsWithSpace (s : string) : Prop :=
  exists p c, s = (p ++ String c EmptyString)%string /\ isSpace c = true.

Definition startsWithSpace (s : string) : Prop :=
  exists c p, s = String c p /\ isSpace c = true.

Definition isToken (s w : string) : Prop :=
  w <> EmptyString
  /\ noSpace w = true
  /\ exists pre post,
       s = (pre ++ w ++ post)%string
       /\ (pre = EmptyString \/ endsWithSpace pre)
       /\ (post = EmptyString \/ startsWithSpace post).

Definition normalised (text : string) : string :=
  JsString.map
    (fun c => if isAlnumLower (toLower c) || isSpace (toLower c)
              then toLower c else " "%char)
    text.

Definition isKeyword (text w : string) : Prop :=
  isToken (normalised text) w
  /\ 2 < String.length w
  /\ ~ In w STOP_WORDS.

(** [kw] occurs in [t] when case is ignored. *)
Definition occursIgnoringCase (kw t : string) : Prop :=
  exists pre post,
    toLowerCase t = (pre ++ toLowerCase kw ++ post)%string.

End KeywordSpec.

(** ** Observations on items and documents *)

Module Observe.

Import Dom Filter.
Local Open Scope list_scope.

(** The attributes of the elements of a subtree, in document order. *)
Definition attrsIn (n : Node) : list Attrs := List.map refAttrs (subtree [] n).

(** The attributes of the elements strictly below a node. *)
Definition attrsBelow (n : Node) : list Attrs := List.map refAttrs (descendants [] n).

(** An item the engine has not touched: not de-emphasised, and without
    overlay or badge anywhere below it. *)
Definition untouched (item : Node) : Prop :=
  isMarked item = false /\ overlaysOf item = [] /\ badgesOf item = [].

Definition untouchedb (item : Node) : bool :=
  negb (isMarked item)
  && (List.length (overlaysOf item) =? 0)
  && (List.length (badgesOf item) =? 0).

(** A sequence of calls on one item; the identities of the elements
    created come from a counter. *)
Inductive Call : Type :=
| CallMarkIrrelevant
| CallMarkRelevant.

Fixpoint applyCalls (fresh : nat) (calls : list Call) (item : Node) : Node :=
  match calls with
  | [] => item
  | CallMarkIrrelevant :: rest =>
      applyCalls (fresh + 2) rest (markIrrelevantEl fresh item)
  | CallMarkRelevant :: rest =>
      applyCalls fresh rest (markRelevantEl item)
  end.

(** The element does not carry the class. *)
Definition lacks (c : string) (a : Attrs) : Prop := hasClass c a = false.

Definition clearPosition (a : Attrs) : Attrs :=
  mkAttrs (uid a) (tagName a) (id a) (classList a) "" (title a).

(** The item with every inline [position] forgotten. *)
Fixpoint eraseInlinePosition (n : Node) : Node :=
  match n with
  | Text _ => n
  | Elem a cs => Elem (clearPosition a) (List.map eraseInlinePosition cs)
  end.

(** The number of elements of class [c] below an item. *)
Definition countBelow (c : string) (n : Node) : nat :=
  List.length (filter (hasClass c) (attrsBelow n)).

(** The states the calls lead to from an untouched item: untouched, or
    an untouched item marked once. *)
Definition settled (x : Node) : Prop :=
  untouched x
  \/ exists k a cs, untouched (Elem a cs) /\ x = markIrrelevantEl k (Elem a cs).

(** A video with a thumbnail and a title, as the host renders it. *)
Definition sampleVideo : Node :=
  Elem (mkAttrs 1 "ytd-video-renderer" "" [] "" None)
    [ Elem (mkAttrs 2 "div" "dismissible" [] "" None)
        [ Elem (mkAttrs 3 "ytd-thumbnail" "" [] "" None) [];
          Elem (mkAttrs 4 "a" "video-title" [] "" None) [Text "Cute cat compilation"] ] ].

(** [l] is [l'] with some of its members taken out. *)
Inductive Subseq {A : Type} : list A -> list A -> Prop :=
| Subseq_nil : Subseq [] []
| Subseq_drop (x : A) (l l' : list A) : Subseq l l' -> Subseq l (x :: l')
| Subseq_keep (x : A) (l l' : list A) : Subseq l l' -> Subseq (x :: l) (x :: l').

(** The identities of the marked items, in document order. *)
Definition markedUids (doc : Node) : list nat :=
  List.map (fun r => uid (refAttrs r)) (markedItems doc).

(** A reference into a tree before and after a write at [u]: the same
    element at the same place, and the same children unless [u] is
    below it. *)
Definition unchangedUnless (u : nat) (r r' : Ref) : Prop :=
  refAncestors r' = refAncestors r
  /\ refAttrs r' = refAttrs r
  /\ (~ In u (List.map uid (attrsIn (refNode r))) -> r' = r).

(** The element is one of the videos the scan enumerates. *)
Definition isVideo (a : Attrs) : bool :=
  existsb (fun s => matches s [] a) VIDEO_SELECTORS.

(** No video lies inside another video. *)
Definition flatVideos (doc : Node) : bool :=
  forallb
    (fun r => negb (isVideo (refAttrs r))
              || forallb (fun x => negb (isVideo x)) (attrsBelow (refNode r)))
    (subtree [] doc).

(** What one round of the scan makes of a video, and the calls it
    makes; [k] is the identity supply at the time of the round. *)
Definition roundResult (currentGoal : string) (k : nat) (video : Ref) : Node :=
  match extractTitle (refAncestors video) (refNode video) with
  | None => refNode video
  | Some t =>
      if isRelevant currentGoal t then markRelevantEl (refNode video)
      else markIrrelevantEl k (refNode video)
  end.

Definition roundEvents (currentGoal : string) (video : Ref) : list Event :=
  QueryTitle (uid (refAttrs video))
  :: match extractTitle (refAncestors video) (refNode video) with
     | None => []
     | Some t =>
         [ CheckRelevant t;
           if isRelevant currentGoal t then MarkRelevant (uid (refAttrs video))
           else MarkIrrelevant (uid (refAttrs video)) ]
     end.

(** The video is in the document as its round left it, for some state
    [k] of the identity supply not below [supply]. *)
Definition roundDone (currentGoal : string) (supply : nat) (doc : Node) (video : Ref) : Prop :=
  exists k r',
    supply <= k
    /\ findElem (uid (refAttrs video)) [] doc = Some r'
    /\ refAncestors r' = refAncestors video
    /\ refNode r' = roundResult currentGoal k video.

Fixpoint distinct (l : list nat) : bool :=
  match l with
  | [] => true
  | x :: l' => negb (existsb (Nat.eqb x) l') && distinct l'
  end.

(** The identities of a tree are pairwise distinct. *)
Definition uniqueUids (n : Node) : bool := distinct (uids n).

(** A feed of two videos: the first has a title; the second is marked
    irrelevant and has lost its title element. *)
Definition sampleFeed : Node :=
  Elem (mkAttrs 0 "div" "contents" [] "" None)
    [ sampleVideo;
      Elem (mkAttrs 5 "ytd-video-renderer" "" [BLURRED] "relative" None)
        [ Elem (mkAttrs 6 "ytd-thumbnail" "" [] "" None) [];
          createOverlay 7 ] ].

Definition samplePage : Page := mkPage sampleFeed 9 [].

(** The second video of the feed, as the scan enumerates it. *)
Definition sampleUntitled : Ref :=
  ( ["div"],
    mkAttrs 5 "ytd-video-renderer" "" [BLURRED] "relative" None,
    [ Elem (mkAttrs 6 "ytd-thumbnail" "" [] "" None) [];
      createOverlay 7 ] ).

(** The identities of the document are distinct and below the supply. *)
Definition wellFormed (p : Page) : bool :=
  uniqueUids (document p)
  && forallb (fun u => u <? nextUid p) (uids (document p)).

End Observe.

(** The loops over the children of an element, named. *)

Module DomLoops.

Import Dom.
Local Open Scope list_scope.

Fixpoint updateChildren (u : nat) (f : Node -> Node) (l : list Node) : option (list Node) :=
  match l with
  | [] => None
  | c :: l' =>
      match updateElem u f c with
      | Some c' => Some (c' :: l')
      | None => option_map (cons c) (updateChildren u f l')
      end
  end.

Fixpoint keepChildren (ss : list Selector) (anc : list string) (l : list Node) : list Node :=
  match l with
  | [] => []
  | c :: l' =>
      if isMatch ss anc c then keepChildren ss anc l'
      else removeMatching ss anc c :: keepChildren ss anc l'
  end.

Fixpoint removeFirstChild (ss : list Selector) (anc : list string) (l : list Node) : option (list Node) :=
  match l with
  | [] => None
  | c :: l' =>
      if isMatch ss anc c then Some l'
      else match removeFirst ss anc c with
           | Some c' => Some (c' :: l')
           | None => option_map (cons c) (removeFirstChild ss anc l')
           end
  end.

Fixpoint parentAmong (u : nat) (a : Attrs) (l : list Node) : option Attrs :=
  match l with
  | [] => None
  | c :: l' =>
      match c with
      | Elem b _ =>
          if uid b =? u then Some a
          else match parentOf u c with
               | Some p => Some p
               | None => parentAmong u a l'
               end
      | Text _ => parentAmong u a l'
      end
  end.

End DomLoops.

(** ** Runs of the engine *)

Module Scenario.

Import Dom Filter Engine.
Local Open Scope list_scope.

(** A batch of mutation records of which one at least added nodes. *)
Definition addsContent (addedNodes : list nat) : bool :=
  existsb (fun n => 0 <? n) addedNodes.

(** Times in order, each less than [window] after the one before. *)
Fixpoint within (window : nat) (times : list nat) : bool :=
  match times with
  | t1 :: rest =>
      match rest with
      | t2 :: _ => (t1 <=? t2) && (t2 <? t1 + window) && within window rest
      | [] => true
      end
  | [] => true
  end.

(** A burst of structural changes: the time and the records of each. *)
Definition burstInputs (burst : list (nat * list nat)) : list (nat * Input) :=
  List.map (fun e => (fst e, Mutations (snd e))) burst.

(** An input that carries no state of the store: anything but an answer
    to GET_STATE that arrived, or a push notification. *)
Definition carriesNoState (i : Input) : bool :=
  match i with
  | StateResponse false (Some _) => false
  | Incoming (GOAL_UPDATED _) => false
  | Incoming (TOGGLE_CHANGED _) => false
  | _ => true
  end.

(** A goal field that is missing, null or empty. *)
Definition noGoal (goal : Field string) : bool :=
  match goal with
  | Undefined => true
  | Null => true
  | Value s => falsy s
  end.

End Scenario.

(** ** Elements beside the videos *)

Module Layout.

Import Dom Filter Observe.
Local Open Scope list_scope.




(** The element [markIrrelevant] appends the overlay to and gives the
    inline position: the parent of the first thumbnail container of the
    item, or the item itself when it has none. *)
Definition overlayHost (videoElement : Node) : option nat :=
  match videoElement with
  | Text _ => None
  | Elem a _ =>
      match querySelector THUMBNAIL_SELECTORS [] videoElement with
      | Some thumbContainer =>
          match parentOf (uid (refAttrs thumbContainer)) videoElement with
          | Some parentElement => Some (uid parentElement)
          | None => Some (uid a)
          end
      | None => Some (uid a)
      end
  end.

(** A video inside a video: the outer one has the title, the inner one
    the thumbnail and no title. *)
Definition nestedPage : Page :=
  mkPage
    (Elem (mkAttrs 0 "div" "contents" [] "" None)
       [ Elem (mkAttrs 1 "ytd-rich-item-renderer" "" [] "" None)
           [ Elem (mkAttrs 2 "ytd-video-renderer" "" [] "" None)
               [ Elem (mkAttrs 3 "ytd-thumbnail" "" [] "" None) [] ];
             Elem (mkAttrs 4 "a" "video-title" [] "" None)
               [Text "Cute cat compilation"] ] ])
    5 [].

(** The inner video of the nested page, as the scan enumerates it. *)
Definition nestedInner : Ref :=
  ( ["ytd-rich-item-renderer"; "div"],
    mkAttrs 2 "ytd-video-renderer" "" [] "" None,
    [ Elem (mkAttrs 3 "ytd-thumbnail" "" [] "" None) [] ] ).

(** The title handed to the relevance check is trimmed and not empty. *)
Definition trimmedCheck (e : Event) : bool :=
  match e with
  | CheckRelevant t => negb (falsy t) && String.eqb (JsString.trim t) t
  | _ => true
  end.

(** The first video of the sample feed, as the scan enumerates it. *)
Definition sampleTitled : Ref :=
  ( ["div"],
    mkAttrs 1 "ytd-video-renderer" "" [] "" None,
    [ Elem (mkAttrs 2 "div" "dismissible" [] "" None)
        [ Elem (mkAttrs 3 "ytd-thumbnail" "" [] "" None) [];
          Elem (mkAttrs 4 "a" "video-title" [] "" None) [Text "Cute cat compilation"] ] ] ).


End Layout.

(** ** Triggers of the debounced scan, and the engine switched off *)

Module Triggers.

Import Dom Filter Engine Scenario.
Local Open Scope list_scope.

(** The input asks for a debounced scan when the last URL seen is
    [url]: a batch of mutation records that adds nodes, or a poll that
    finds another URL. *)
Definition triggers (url : string) (i : Input) : bool :=
  match i with
  | Mutations addedNodes => addsContent addedNodes
  | Poll href => negb (String.eqb href url)
  | _ => false
  end.

(** The last URL seen once the input is handled. *)
Definition urlAfter (url : string) (i : Input) : string :=
  match i with
  | Poll href => href
  | _ => url
  end.

Fixpoint triggersFrom (url : string) (inputs : list (nat * Input)) : bool :=
  match inputs with
  | [] => true
  | ti :: rest =>
      triggers url (snd ti) && triggersFrom (urlAfter url (snd ti)) rest
  end.

(** No timeout is pending, or one is and [scanTimer] names it. *)
Definition ownTimer (st : State) : bool :=
  match timers st with
  | [] => true
  | [timer] =>
      match scanTimer st with
      | Some id => fst timer =? id
      | None => false
      end
  | _ => false
  end.

(** An input that leaves the engine switched off. *)
Definition staysOff (i : Input) : bool :=
  match i with
  | Incoming (TOGGLE_CHANGED enabled) => negb (truthy enabled)
  | StateResponse false (Some r) => negb (notFalse (responseEnabled r))
  | _ => true
  end.

(** A call that takes a mark away. *)
Definition isUnmark (e : Event) : bool :=
  match e with
  | MarkRelevant _ => true
  | _ => false
  end.

(** From [st] to [st'] the engine stayed off, created no element and
    called nothing but [markRelevant]. *)
Definition quiet (st st' : State) : Prop :=
  isEnabled st' = false
  /\ nextUid (page st') = nextUid (page st)
  /\ exists calls,
       trace (page st') = trace (page st) ++ calls
       /\ forallb isUnmark calls = true.

End Triggers.

(** ** The background service worker

    The worker keeps the goal and the toggle in [chrome.storage.local]
    and tells every tab when the popup changes one of them. *)

Module Background.

Import Engine.
Local Open Scope list_scope.

(** The keys of [chrome.storage.local] the extension uses; a key that
    was never set is [Undefined]. *)
Record Storage : Type := mkStorage {
  storedGoal : Field string;             (* focusGoal *)
  storedEnabled : Field bool;            (* isEnabled *)
  socialTimers : Field (list (nat * nat))
}.

Definition emptyStorage : Storage := mkStorage Undefined Undefined Undefined.

(** The listener of [chrome.runtime.onInstalled] *)
Definition onInstalled (s : Storage) : Storage :=
  mkStorage (Value EmptyString) (Value true) (Value []).

(** The messages sent to the worker; the popup sends the goal as a
    string and the toggle as a boolean. *)
Inductive Request : Type :=
| GET_STATE
| SET_GOAL (goal : string)
| SET_ENABLED (enabled : bool)
| OtherRequest (type : string).

(** What [sendResponse] is called with, if it is called. *)
Inductive Reply : Type :=
| StateReply (response : Response)
| SuccessReply
| NoReply.

(** What handling a message comes to: the store afterwards, the
    notification sent to every tab, and the reply. *)
Record Outcome : Type := mkOutcome {
  stored : Storage;
  broadcast : option Message;
  reply : Reply
}.

(** The listener of [chrome.runtime.onMessage] in the worker. *)
Definition onRequest (message : Request) (s : Storage) : Outcome :=
  match message with
  | GET_STATE =>
      mkOutcome s None
        (StateReply (mkResponse (Value (orEmpty (storedGoal s)))
                                (Value (notFalse (storedEnabled s)))))
  | SET_GOAL goal =>
      mkOutcome (mkStorage (Value goal) (storedEnabled s) (socialTimers s))
        (Some (GOAL_UPDATED (Value goal))) SuccessReply
  | SET_ENABLED enabled =>
      mkOutcome (mkStorage (storedGoal s) (Value enabled) (socialTimers s))
        (Some (TOGGLE_CHANGED (Value enabled))) SuccessReply
  | OtherRequest _ => mkOutcome s None NoReply
  end.

End Background.

(** ** The popup

    The state of the popup is what its handlers read and write: the
    goal field, the switch, the status line and the section showing the
    active goal.  A handler's step includes the callback of the message
    it sends; the passing feedback on the save button is left out. *)

Module Popup.

Import Filter Engine Background.
Local Open Scope list_scope.

Inductive Toast : Type :=
| PleaseEnterGoal
| GoalLockedIn
| GoalCleared
| ProtectionActivated
| ProtectionPaused.

Record UI : Type := mkUI {
  goalInput : string;          (* goalInput.value *)
  toggleSwitch : bool;         (* toggleSwitch.checked *)
  statusOff : bool;            (* the status shown is the paused one *)
  activeText : string;         (* activeText.textContent *)
  activeShown : bool;          (* the active-goal section is displayed *)
  toast : option Toast         (* the toast last shown *)
}.

(** [applyToggleUI(enabled)] *)
Definition applyToggleUI (enabled : bool) (ui : UI) : UI :=
  mkUI (goalInput ui) (toggleSwitch ui) (negb enabled) (activeText ui)
       (activeShown ui) (toast ui).

(** [showActiveGoal(goal)] *)
Definition showActiveGoal (goal : string) (ui : UI) : UI :=
  mkUI (goalInput ui) (toggleSwitch ui) (statusOff ui) goal true (toast ui).

(** [showToast(message)] *)
Definition showToast (message : Toast) (ui : UI) : UI :=
  mkUI (goalInput ui) (toggleSwitch ui) (statusOff ui) (activeText ui)
       (activeShown ui) (Some message).

Definition setGoalInput (value : string) (ui : UI) : UI :=
  mkUI value (toggleSwitch ui) (statusOff ui) (activeText ui) (activeShown ui) (toast ui).

Definition setToggle (checked : bool) (ui : UI) : UI :=
  mkUI (goalInput ui) checked (statusOff ui) (activeText ui) (activeShown ui) (toast ui).

Definition hideActiveGoal (ui : UI) : UI :=
  mkUI (goalInput ui) (toggleSwitch ui) (statusOff ui) (activeText ui) false (toast ui).

(** The callback of [chrome.storage.local.get] when the popup opens. *)
Definition load (data : Storage) (ui : UI) : UI :=
  let goal := orEmpty (storedGoal data) in
  let enabled := notFalse (storedEnabled data) in
  let ui1 := applyToggleUI enabled (setToggle enabled (setGoalInput goal ui)) in
  if falsy (JsString.trim goal) then ui1 else showActiveGoal goal ui1.

(** What the user does in the popup. *)
Inductive Event : Type :=
| Typed (value : string)       (* the goal field is edited *)
| ClickSave
| KeyDown (key : string)       (* in the goal field *)
| ClickClear
| Toggled (checked : bool).    (* the switch is flipped to [checked] *)

(** The click handler of the save button. *)
Definition save (ui : UI) : UI * option Request :=
  let goal := JsString.trim (goalInput ui) in
  if falsy goal then (showToast PleaseEnterGoal ui, None)
  else (showToast GoalLockedIn (showActiveGoal goal ui), Some (SET_GOAL goal)).

(** The handlers: the popup afterwards and the message sent, if any. *)
Definition handle (e : Event) (ui : UI) : UI * option Request :=
  match e with
  | Typed value => (setGoalInput value ui, None)
  | ClickSave => save ui
  | KeyDown key => if String.eqb key "Enter" then save ui else (ui, None)
  | ClickClear =>
      (showToast GoalCleared (hideActiveGoal (setGoalInput EmptyString ui)),
       Some (SET_GOAL EmptyString))
  | Toggled checked =>
      (showToast (if checked then ProtectionActivated else ProtectionPaused)
         (applyToggleUI checked (setToggle checked ui)),
       Some (SET_ENABLED checked))
  end.

End Popup.

(** ** Popup, worker and tabs together

    Messages are delivered in the order they are sent: a request of the
    popup is handled by the worker, and the notification that follows
    has reached every tab, before anything else happens. *)

Module System.

Import Dom Filter Engine Background Popup.
Local Open Scope list_scope.

Record World : Type := mkWorld {
  store : Storage;
  popup : option UI;           (* [None] while the popup is closed *)
  tabs : list State            (* the tabs running the content script *)
}.

Inductive Happening : Type :=
| TabOpened (href : string) (host : Page)
| TabChanged (n : nat) (addedNodes : list nat)
| TabPolled (n : nat) (href : string)
| PopupOpened (fresh : UI)
| PopupUsed (e : Event).

(** The world once the extension is installed. *)
Definition installed : World :=
  mkWorld (onInstalled emptyStorage) None [].

Fixpoint onTab (n : nat) (f : State -> State) (l : list State) {struct l} : list State :=
  match l with
  | [] => []
  | st :: rest =>
      match n with
      | 0 => f st :: rest
      | S k => st :: onTab k f rest
      end
  end.

(** A tab's script loads and its GET_STATE request is answered. *)
Definition openTab (t : nat) (href : string) (host : Page) (s : Storage) : State :=
  match reply (onRequest GET_STATE s) with
  | StateReply response =>
      deliver (boot href host) (t, StateResponse false (Some response))
  | _ => boot href host
  end.

(** A request of the popup is handled and the notification delivered. *)
Definition send (t : nat) (request : Request) (ui : UI) (w : World) : World :=
  let outcome := onRequest request (store w) in
  mkWorld (stored outcome) (Some ui)
    match broadcast outcome with
    | Some message => List.map (fun st => deliver st (t, Incoming message)) (tabs w)
    | None => tabs w
    end.

Definition happen (w : World) (th : nat * Happening) : World :=
  let t := fst th in
  match snd th with
  | TabOpened href host =>
      mkWorld (store w) (popup w) (tabs w ++ [openTab t href host (store w)])
  | TabChanged n addedNodes =>
      mkWorld (store w) (popup w)
        (onTab n (fun st => deliver st (t, Mutations addedNodes)) (tabs w))
  | TabPolled n href =>
      mkWorld (store w) (popup w)
        (onTab n (fun st => deliver st (t, Poll href)) (tabs w))
  | PopupOpened fresh =>
      mkWorld (store w) (Some (load (store w) fresh)) (tabs w)
  | PopupUsed e =>
      match popup w with
      | None => w
      | Some ui =>
          match Popup.handle e ui with
          | (ui', Some request) => send t request ui' w
          | (ui', None) => mkWorld (store w) (Some ui') (tabs w)
          end
      end
  end.

Definition history (happenings : list (nat * Happening)) (w : World) : World :=
  fold_left happen happenings w.

(** The tab holds the goal and the toggle the store holds. *)
Definition mirrors (s : Storage) (st : State) : bool :=
  String.eqb (currentGoal st) (orEmpty (storedGoal s))
  && Bool.eqb (isEnabled st) (notFalse (storedEnabled s)).

(** The popup, when open, shows the toggle the store holds. *)
Definition showsToggle (s : Storage) (ui : UI) : bool :=
  Bool.eqb (toggleSwitch ui) (notFalse (storedEnabled s))
  && Bool.eqb (statusOff ui) (negb (toggleSwitch ui)).

(** The goal stored is a string without white space around it. *)
Definition goalTrimmed (s : Storage) : bool :=
  match storedGoal s with
  | Value goal => String.eqb (JsString.trim goal) goal
  | _ => false
  end.

Definition inStep (w : World) : bool :=
  goalTrimmed (store w)
  && forallb (mirrors (store w)) (tabs w)
  && match popup w with
     | Some ui => showsToggle (store w) ui
     | None => true
     end.

(** The documents of the tabs opened have distinct identities, all
    below the supply. *)
Definition hostsWellFormed (happenings : list (nat * Happening)) : bool :=
  forallb
    (fun th =>
       match snd th with
       | TabOpened _ host => Observe.wellFormed host
       | _ => true
       end)
    happenings.

(** A popup as its document might define it, before the store is read. *)
Definition freshPopup : UI := mkUI "" false false "" false None.

End System.

(** ** The reminder on social sites

    The content script for Instagram and Facebook: a modal that blocks
    the page, a five-minute countdown after the user chose to continue,
    and the same notifications as the filter receives.  The state is
    the script's variables together with what it put into the page. *)

Module Social.

Import Filter Engine.
Local Open Scope list_scope.

(** What the modal rendered shows. *)
Inductive ModalBody : Type :=
| GoalCard (goalText : string)
| NoGoalNote.

Record Modal : Type := mkModal {
  siteName : string;
  body : ModalBody
}.

(** How the page is left by the back button. *)
Inductive Leave : Type :=
| HistoryBack
| WindowClose.

Record State : Type := mkState {
  currentGoal : string;
  isEnabled : bool;
  countdownTimer : option nat;     (* null, or the id of the interval running *)
  remainingSeconds : Z;
  hostElement : bool;              (* the host exists, and with it the shadow root *)
  pointerEvents : bool;            (* the host's pointer-events is auto *)
  modal : option Modal;            (* the content of the shadow root *)
  hostname : string;               (* location.hostname *)
  nextInterval : nat;
  showPending : nat;               (* timeouts set for showModal and not run yet *)
  leaving : option Leave
}.

Definition REMINDER_SECONDS : Z := (5 * 60)%Z.

(** The state once the script has loaded and sent its GET_STATE. *)
Definition boot (host : string) : State :=
  mkState "" true None 0%Z false false None host 1 0 None.

(** [getModalHTML(goal)], as the page shows it: the goal is escaped
    for the markup and so shown as it is. *)
Definition getModal (host goal : string) : Modal :=
  mkModal (if JsString.includes host "instagram" then "Instagram" else "Facebook")
          (if falsy goal then NoGoalNote else GoalCard goal).

Definition setGoal (g : string) (st : State) : State :=
  mkState g (isEnabled st) (countdownTimer st) (remainingSeconds st)
          (hostElement st) (pointerEvents st) (modal st) (hostname st)
          (nextInterval st) (showPending st) (leaving st).

Definition setEnabled (b : bool) (st : State) : State :=
  mkState (currentGoal st) b (countdownTimer st) (remainingSeconds st)
          (hostElement st) (pointerEvents st) (modal st) (hostname st)
          (nextInterval st) (showPending st) (leaving st).

Definition setRemaining (r : Z) (st : State) : State :=
  mkState (currentGoal st) (isEnabled st) (countdownTimer st) r
          (hostElement st) (pointerEvents st) (modal st) (hostname st)
          (nextInterval st) (showPending st) (leaving st).

Definition setShowPending (n : nat) (st : State) : State :=
  mkState (currentGoal st) (isEnabled st) (countdownTimer st) (remainingSeconds st)
          (hostElement st) (pointerEvents st) (modal st) (hostname st)
          (nextInterval st) n (leaving st).

(** [showModal()]: the host is created when there is none, and the
    modal rendered with the current goal. *)
Definition showModal (st : State) : State :=
  if negb (isEnabled st) then st
  else
    mkState (currentGoal st) (isEnabled st) (countdownTimer st) (remainingSeconds st)
            true true (Some (getModal (hostname st) (currentGoal st))) (hostname st)
            (nextInterval st) (showPending st) (leaving st).

(** [hideModal()] *)
Definition hideModal (st : State) : State :=
  mkState (currentGoal st) (isEnabled st) (countdownTimer st) (remainingSeconds st)
          (hostElement st)
          (if hostElement st then false else pointerEvents st)
          (if hostElement st then None else modal st)
          (hostname st) (nextInterval st) (showPending st) (leaving st).

(** [clearTimer()] *)
Definition clearTimer (st : State) : State :=
  mkState (currentGoal st) (isEnabled st) None 0%Z
          (hostElement st) (pointerEvents st) (modal st) (hostname st)
          (nextInterval st) (showPending st) (leaving st).

(** [startTimer()] *)
Definition startTimer (st : State) : State :=
  let st1 := clearTimer st in
  mkState (currentGoal st1) (isEnabled st1) (Some (nextInterval st1)) REMINDER_SECONDS
          (hostElement st1) (pointerEvents st1) (modal st1) (hostname st1)
          (S (nextInterval st1)) (showPending st1) (leaving st1).

(** The callback of the interval, once a second while it runs. *)
Definition tick (st : State) : State :=
  match countdownTimer st with
  | None => st
  | Some _ =>
      let st1 := setRemaining (remainingSeconds st - 1)%Z st in
      if (remainingSeconds st1 <=? 0)%Z then showModal (clearTimer st1) else st1
  end.

(** [teardown()] *)
Definition teardown (st : State) : State :=
  let st1 := hideModal (clearTimer st) in
  if hostElement st1
  then mkState (currentGoal st1) (isEnabled st1) (countdownTimer st1)
               (remainingSeconds st1) false false None (hostname st1)
               (nextInterval st1) (showPending st1) (leaving st1)
  else st1.

(** The modal is in the shadow root. *)
Definition modalShown (st : State) : bool :=
  hostElement st
  && match modal st with
     | Some _ => true
     | None => false
     end.

(** The listener of [chrome.runtime.onMessage] *)
Definition onMessage (message : Message) (st : State) : State :=
  match message with
  | GOAL_UPDATED goal =>
      let st1 := setGoal (orEmpty goal) st in
      if modalShown st1 then showModal st1 else st1
  | TOGGLE_CHANGED enabled =>
      let st1 := setEnabled (truthy enabled) st in
      if negb (isEnabled st1) then teardown st1 else showModal st1
  | OtherMessage _ => st
  end.

(** The callback of the GET_STATE request. *)
Definition onStateResponse (lastError : bool) (response : option Response) (st : State) : State :=
  if lastError then st
  else
    match response with
    | Some r =>
        let st1 := setEnabled (notFalse (responseEnabled r))
                     (setGoal (orEmpty (focusGoal r)) st) in
        if isEnabled st1 then setShowPending (S (showPending st1)) st1 else st1
    | None => st
    end.

(** A timeout set for [showModal] runs out. *)
Definition onShowTimeout (st : State) : State :=
  match showPending st with
  | 0 => st
  | S k => showModal (setShowPending k st)
  end.

(** The buttons of the modal; there are none while it is not shown. *)
Definition clickContinue (st : State) : State :=
  if modalShown st then startTimer (hideModal st) else st.

Definition clickBack (historyLength : nat) (st : State) : State :=
  if modalShown st
  then mkState (currentGoal st) (isEnabled st) (countdownTimer st) (remainingSeconds st)
               (hostElement st) (pointerEvents st) (modal st) (hostname st)
               (nextInterval st) (showPending st)
               (Some (if 1 <? historyLength then HistoryBack else WindowClose))
  else st.

Inductive Input : Type :=
| Incoming (message : Message)
| StateResponse (lastError : bool) (response : option Response)
| ShowTimeout
| Tick
| ClickContinue
| ClickBack (historyLength : nat).

Definition handle (i : Input) (st : State) : State :=
  match i with
  | Incoming message => onMessage message st
  | StateResponse lastError response => onStateResponse lastError response st
  | ShowTimeout => onShowTimeout st
  | Tick => tick st
  | ClickContinue => clickContinue st
  | ClickBack historyLength => clickBack historyLength st
  end.

Definition run (inputs : list Input) (st : State) : State :=
  fold_left (fun s i => handle i s) inputs st.

(** [n] seconds pass with nothing else happening. *)
Definition seconds (n : nat) (st : State) : State :=
  run (repeat Tick n) st.

(** An input that leaves the reminder switched off. *)
Definition staysOff (i : Input) : bool :=
  match i with
  | Incoming (TOGGLE_CHANGED enabled) => negb (truthy enabled)
  | StateResponse false (Some r) => negb (notFalse (responseEnabled r))
  | _ => true
  end.

(** Nothing of the reminder is in the page and no countdown runs. *)
Definition tornDown (st : State) : bool :=
  negb (hostElement st) && negb (pointerEvents st)
  && match modal st with None => true | Some _ => false end
  && match countdownTimer st with None => true | Some _ => false end.

(** Without the host nothing of the reminder is in the page. *)
Definition coherent (st : State) : bool :=
  hostElement st
  || (negb (pointerEvents st)
      && match modal st with None => true | Some _ => false end).

(** While the reminder is switched off no modal is rendered. *)
Definition offHidden (st : State) : bool :=
  isEnabled st || match modal st with None => true | Some _ => false end.

(** The modal, when rendered, shows the current goal. *)
Definition showsCurrentGoal (st : State) : bool :=
  match modal st with
  | Some m =>
      match body m with
      | GoalCard goalText => String.eqb goalText (currentGoal st)
      | NoGoalNote => falsy (currentGoal st)
      end
  | None => true
  end.

(** An input other than the answer to GET_STATE. *)
Definition afterInit (i : Input) : bool :=
  match i with
  | StateResponse _ _ => false
  | _ => true
  end.

(** The countdown, while it runs, has between one second and five
    minutes left. *)
Definition countdownInRange (st : State) : bool :=
  match countdownTimer st with
  | Some _ => (1 <=? remainingSeconds st)%Z && (remainingSeconds st <=? REMINDER_SECONDS)%Z
  | None => (remainingSeconds st =? 0)%Z
  end.

End Social.

(** * Properties *)

Module StringFacts.

Import JsString KeywordSpec.

Lemma append_nil_r (s : string) : (s ++ "")%string = s.
Proof. induction s; simpl; congruence. Qed.

Lemma append_assoc (s1 s2 s3 : string) :
  ((s1 ++ s2) ++ s3)%string = (s1 ++ s2 ++ s3)%string.
Proof. induction s1; simpl; congruence. Qed.

Lemma append_eq_append (s1 : string) : forall s2 t1 t2,
  (s1 ++ s2)%string = (t1 ++ t2)%string ->
  exists m,
    (s1 = (t1 ++ m)%string /\ t2 = (m ++ s2)%string)
    \/ (t1 = (s1 ++ m)%string /\ s2 = (m ++ t2)%string).
Proof.
  induction s1 as [|a s1 IH]; intros s2 t1 t2 H; simpl in H.
  - exists t1. right. split; [reflexivity | exact H].
  - destruct t1 as [|b t1]; simpl in H.
    + exists (String a s1). left. split; [reflexivity | now rewrite <- H].
    + injection H as Hab H. subst b.
      destruct (IH _ _ _ H) as [m [[E1 E2] | [E1 E2]]].
      * exists m. left. simpl. split; congruence.
      * exists m. right. simpl. split; congruence.
Qed.

Lemma snoc_cases (s : string) :
  s = EmptyString \/ exists p c, s = (p ++ String c EmptyString)%string.
Proof.
  induction s as [|a s IH]; [now left | right].
  destruct IH as [-> | [p [c ->]]].
  - now exists EmptyString, a.
  - now exists (String a p), c.
Qed.

Lemma snoc_inj (p : string) : forall q a b,
  (p ++ String a EmptyString)%string = (q ++ String b EmptyString)%string ->
  p = q /\ a = b.
Proof.
  induction p as [|x p IH]; intros [|y q] a b H; simpl in H.
  - injection H as ->. auto.
  - injection H as _ H. destruct q; discriminate.
  - injection H as _ H. destruct p; discriminate.
  - injection H as -> H. destruct (IH _ _ _ H) as [-> ->]. auto.
Qed.

Lemma forallb_append (p : ascii -> bool) (s t : string) :
  JsString.forallb p (s ++ t) = JsString.forallb p s && JsString.forallb p t.
Proof.
  induction s as [|a s IH]; simpl; [reflexivity|].
  now rewrite IH, andb_assoc.
Qed.

Lemma forallb_map (p : ascii -> bool) (f : ascii -> ascii) (s : string) :
  (forall c, p (f c) = true) -> JsString.forallb p (JsString.map f s) = true.
Proof.
  intros H. induction s as [|a s IH]; simpl; [reflexivity|].
  now rewrite H, IH.
Qed.

Lemma forallb_impl (p q : ascii -> bool) (s : string) :
  (forall c, p c = true -> q c = true) ->
  JsString.forallb p s = true -> JsString.forallb q s = true.
Proof.
  intros H. induction s as [|a s IH]; simpl; [reflexivity|].
  rewrite !andb_true_iff. intros [Ha Hs]. auto.
Qed.

Lemma map_map (f g : ascii -> ascii) (s : string) :
  JsString.map g (JsString.map f s) = JsString.map (fun c => g (f c)) s.
Proof. induction s; simpl; congruence. Qed.

Lemma map_id_on (p : ascii -> bool) (f : ascii -> ascii) (s : string) :
  (forall c, p c = true -> f c = c) ->
  JsString.forallb p s = true -> JsString.map f s = s.
Proof.
  intros H. induction s as [|a s IH]; simpl; [reflexivity|].
  rewrite andb_true_iff. intros [Ha Hs]. now rewrite H, IH.
Qed.

Lemma toLower_alnum (c : ascii) : isAlnumLower c = true -> toLower c = c.
Proof.
  destruct c as [[] [] [] [] [] [] [] []]; vm_compute; intros H;
    first [reflexivity | discriminate H].
Qed.

Lemma prefix_iff (p : string) : forall s,
  prefix p s = true <-> exists post, s = (p ++ post)%string.
Proof.
  induction p as [|a p IH]; intros s.
  - destruct s; simpl; split; eauto.
  - destruct s as [|b s]; simpl.
    + split; [discriminate | intros [post H]; discriminate].
    + destruct (ascii_dec a b) as [->|Hne].
      * rewrite IH. split; intros [post H]; exists post; congruence.
      * split; [discriminate | intros [post H]; congruence].
Qed.

Lemma includes_unfold (s sub : string) :
  includes s sub =
  prefix sub s
  || match s with
     | EmptyString => false
     | String _ s' => includes s' sub
     end.
Proof. destruct s; reflexivity. Qed.

Lemma includes_iff (s : string) : forall sub,
  includes s sub = true <-> exists pre post, s = (pre ++ sub ++ post)%string.
Proof.
  induction s as [|a s IH]; intros sub;
    rewrite includes_unfold, orb_true_iff, prefix_iff.
  - split.
    + intros [[post H] | H]; [|discriminate]. now exists EmptyString, post.
    + intros [[|b pre] [post H]]; [left; now exists post | discriminate].
  - rewrite IH. split.
    + intros [[post H] | [pre [post H]]].
      * now exists EmptyString, post.
      * exists (String a pre), post. simpl. congruence.
    + intros [[|b pre] [post H]]; simpl in H.
      * left. now exists post.
      * right. exists pre, post. congruence.
Qed.

Lemma noSpace_append (s t : string) :
  noSpace (s ++ t) = noSpace s && noSpace t.
Proof. apply forallb_append. Qed.

Lemma noSpace_not_endsWithSpace (s : string) :
  noSpace s = true -> endsWithSpace s -> False.
Proof.
  intros H [p [c [-> Hc]]]. rewrite noSpace_append, andb_true_iff in H.
  destruct H as [_ H]. unfold noSpace in H. simpl in H. now rewrite Hc in H.
Qed.

Lemma noSpace_not_startsWithSpace (s : string) :
  noSpace s = true -> startsWithSpace s -> False.
Proof.
  intros H [c [p [-> Hc]]]. unfold noSpace in H. simpl in H. now rewrite Hc in H.
Qed.

(** A string without white space is its own and only token. *)
Lemma token_of_word (u w : string) :
  noSpace u = true -> (isToken u w <-> w = u /\ u <> EmptyString).
Proof.
  intros Hu. split.
  - intros [Hw [Hn [pre [post [E [Hl Hr]]]]]].
    rewrite E in Hu. rewrite !noSpace_append, !andb_true_iff in Hu.
    destruct Hu as [Hpre [_ Hpost]].
    destruct Hl as [-> | Hl]; [|now destruct (noSpace_not_endsWithSpace _ Hpre Hl)].
    destruct Hr as [-> | Hr]; [|now destruct (noSpace_not_startsWithSpace _ Hpost Hr)].
    simpl in E. rewrite append_nil_r in E. subst u. auto.
  - intros [-> Hne]. repeat split; auto.
    exists EmptyString, EmptyString. simpl. rewrite append_nil_r. auto.
Qed.

(** The tokens of a string at its first white space: the word before it,
    and the tokens of what follows. *)
Lemma token_at_separator (u : string) (c : ascii) (rest w : string) :
  noSpace u = true -> isSpace c = true ->
  (isToken (u ++ String c rest) w <->
   (w = u /\ u <> EmptyString) \/ isToken rest w).
Proof.
  intros Hu Hc. split.
  - intros [Hw [Hn [pre [post [E [Hl Hr]]]]]].
    destruct (append_eq_append _ _ _ _ E) as [m [[E1 E2] | [E1 E2]]].
    + (* the token starts inside [u] *)
      left. rewrite E1 in Hu. rewrite noSpace_append, andb_true_iff in Hu.
      destruct Hu as [Hpre Hm].
      destruct Hl as [-> | Hl]; [|now destruct (noSpace_not_endsWithSpace _ Hpre Hl)].
      simpl in E1. subst m.
      destruct (append_eq_append _ _ _ _ E2) as [m [[F1 F2] | [F1 F2]]].
      * destruct m as [|x m].
        -- rewrite append_nil_r in F1. subst w. auto.
        -- exfalso. simpl in F2. injection F2 as <- _.
           rewrite F1 in Hn. rewrite noSpace_append, andb_true_iff in Hn.
           destruct Hn as [_ Hn]. unfold noSpace in Hn. simpl in Hn.
           now rewrite Hc in Hn.
      * destruct m as [|x m].
        -- rewrite append_nil_r in F1. subst w. auto.
        -- exfalso. simpl in F2.
           rewrite F1 in Hm. rewrite noSpace_append, andb_true_iff in Hm.
           destruct Hm as [_ Hm]. unfold noSpace in Hm. simpl in Hm.
           destruct Hr as [-> | [y [q [-> Hy]]]]; [discriminate F2|].
           injection F2 as -> _. now rewrite Hy in Hm.
    + (* the token starts after [u] *)
      destruct m as [|x m].
      * exfalso. simpl in E2. destruct w as [|y w]; [now apply Hw|].
        simpl in E2. injection E2 as <- _. unfold noSpace in Hn. simpl in Hn.
        now rewrite Hc in Hn.
      * right. simpl in E2. injection E2 as <- E2.
        repeat split; auto. exists m, post. repeat split; auto.
        destruct (snoc_cases m) as [-> | [q [d ->]]]; [now left | right].
        exists q, d. split; auto.
        destruct Hl as [-> | [p [c0 [Hp Hc0]]]]; [destruct u; discriminate E1|].
        rewrite Hp in E1.
        change (String c (q ++ String d ""))%string
          with ((String c q) ++ String d "")%string in E1.
        rewrite <- append_assoc in E1.
        apply snoc_inj in E1. destruct E1 as [_ ->]. exact Hc0.
  - intros [[-> Hne] | [Hw [Hn [pre [post [E [Hl Hr]]]]]]].
    + repeat split; auto. exists EmptyString, (String c rest). repeat split; auto.
      right. now exists c, rest.
    + repeat split; auto. exists (u ++ String c pre)%string, post.
      repeat split; auto.
      * rewrite E, append_assoc. reflexivity.
      * right. destruct Hl as [-> | [p [c0 [-> Hc0]]]].
        -- now exists u, c.
        -- exists (u ++ String c p)%string, c0. split; auto.
           now rewrite append_assoc.
Qed.

(** The non-empty results of the split are exactly the tokens. *)
Lemma splitFrom_tokens (s : string) : forall inRun cur w,
  noSpace cur = true -> (inRun = true -> cur = EmptyString) ->
  w <> EmptyString ->
  (In w (splitFrom inRun cur s) <-> isToken (cur ++ s) w).
Proof.
  induction s as [|c s IH]; intros inRun cur w Hcur Hrun Hw.
  - simpl. rewrite append_nil_r, token_of_word by assumption.
    split; [intros [-> | []]; auto | intros [-> _]; auto].
  - simpl. destruct (isSpace c) eqn:Hc.
    + rewrite token_at_separator by assumption.
      destruct inRun.
      * rewrite (Hrun eq_refl). rewrite (IH true EmptyString w) by auto.
        simpl. split; [auto | intros [[-> H] | H]; [now destruct H | exact H]].
      * simpl. rewrite (IH true EmptyString w) by auto. simpl.
        split.
        -- intros [-> | H]; auto.
        -- intros [[-> _] | H]; auto.
    + rewrite (IH false (cur ++ String c "")%string w); auto.
      * now rewrite append_assoc.
      * rewrite noSpace_append, Hcur. unfold noSpace. simpl. now rewrite Hc.
      * discriminate.
Qed.

Lemma splitWhitespace_tokens (s w : string) :
  w <> EmptyString -> (In w (splitWhitespace s) <-> isToken s w).
Proof.
  intros Hw. unfold splitWhitespace.
  now rewrite (splitFrom_tokens s false EmptyString w).
Qed.

End StringFacts.

(** ** Keywords and relevance *)

Module KeywordFacts.

Import JsString KeywordSpec StringFacts.

Example extract_rust :
  extractKeywords (Some "Learn Rust programming!") = ["learn"; "rust"; "programming"].
Proof. reflexivity. Qed.

Example extract_edges :
  extractKeywords (Some "  I am on  C++ and the Go-lang  ") = ["lang"].
Proof. reflexivity. Qed.

Example split_edges :
  JsString.splitWhitespace " a  b " = [""; "a"; "b"; ""]
  /\ JsString.splitWhitespace "" = [""]
  /\ JsString.splitWhitespace " " = [""; ""].
Proof. repeat split. Qed.

Example relevant_rust :
  isRelevant "learn rust programming" "Rust ownership explained" = true
  /\ isRelevant "learn rust programming" "Cute cat compilation" = false
  /\ isRelevant "art" "smart contract" = true.
Proof. repeat split. Qed.

Lemma normalised_eq (text : string) :
  JsString.map replaceSpecial (toLowerCase text) = normalised text.
Proof. unfold toLowerCase, normalised. now rewrite map_map. Qed.

Lemma stopWordsHas_iff (w : string) :
  stopWordsHas w = true <-> In w STOP_WORDS.
Proof.
  unfold stopWordsHas. rewrite existsb_exists. split.
  - intros [x [Hx E]]. apply String.eqb_eq in E. now subst x.
  - intros H. exists w. split; [exact H | apply String.eqb_refl].
Qed.

Lemma keepWord_iff (w : string) :
  keepWord w = true <-> 2 < String.length w /\ ~ In w STOP_WORDS.
Proof.
  unfold keepWord. rewrite andb_true_iff, Nat.ltb_lt, negb_true_iff.
  rewrite <- stopWordsHas_iff. destruct (stopWordsHas w); intuition congruence.
Qed.

Lemma no_token_of_empty (w : string) : ~ isToken EmptyString w.
Proof.
  intros [Hw [_ [pre [post [E _]]]]].
  destruct pre; [|discriminate]. destruct w; [now apply Hw | discriminate].
Qed.

Lemma in_extractKeywords (text w : string) :
  In w (extractKeywords (Some text)) <-> isKeyword text w.
Proof.
  unfold isKeyword. destruct text as [|c text].
  - simpl. split; [intros [] | intros [H _]; exact (no_token_of_empty _ H)].
  - unfold extractKeywords. rewrite filter_In, keepWord_iff, normalised_eq.
    split.
    + intros [Hin [Hlen Hstop]]. split; [|auto].
      apply splitWhitespace_tokens; [|exact Hin].
      intros ->. simpl in Hlen. lia.
    + intros [Htok [Hlen Hstop]]. split; [|auto].
      apply splitWhitespace_tokens; [|exact Htok].
      intros ->. simpl in Hlen. lia.
Qed.

(** The code units of the normalised text are lower-case letters,
    digits and white space. *)
Lemma normalised_chars (text : string) :
  JsString.forallb (fun c => isAlnumLower c || isSpace c) (normalised text) = true.
Proof.
  apply forallb_map. intros c.
  destruct (isAlnumLower (toLower c) || isSpace (toLower c)) eqn:E;
    [exact E | reflexivity].
Qed.

Lemma forallb_and (p q : ascii -> bool) (s : string) :
  JsString.forallb p s = true -> JsString.forallb q s = true ->
  JsString.forallb (fun c => p c && q c) s = true.
Proof.
  induction s as [|a s IH]; simpl; [reflexivity|].
  rewrite !andb_true_iff. intros [Ha Hs] [Hb Ht]. auto.
Qed.

(** A keyword is its own lower-case form. *)
Lemma keyword_lower (text w : string) :
  In w (extractKeywords (Some text)) -> toLowerCase w = w.
Proof.
  rewrite in_extractKeywords.
  intros [[_ [Hn [pre [post [E _]]]]] _].
  pose proof (normalised_chars text) as H. rewrite E in H.
  rewrite !forallb_append, !andb_true_iff in H. destruct H as [_ [H _]].
  apply (map_id_on (fun c => (isAlnumLower c || isSpace c) && negb (isSpace c))).
  - intros c Hc. apply toLower_alnum.
    destruct (isAlnumLower c), (isSpace c); simpl in Hc; congruence.
  - apply forallb_and; assumption.
Qed.

Lemma someKeywordIn_iff (keywords : list string) (titleLower : string) :
  someKeywordIn keywords titleLower = true <->
  exists kw, In kw keywords
             /\ exists pre post, titleLower = (pre ++ kw ++ post)%string.
Proof.
  unfold someKeywordIn. rewrite existsb_exists.
  split; intros [kw [Hin H]]; exists kw; split; auto; now apply includes_iff.
Qed.

(** C4: [extractKeywords] gives no keyword for an absent or empty text,
    and for any text its results are exactly the keywords of the
    specification: the tokens of the normalised text (lower-cased, every
    code unit outside [a-z0-9] and white space turned into a space, split
    at runs of white space) that are longer than two code units and are
    not stop words; being a function, equal inputs give equal results. *)
Theorem extractKeywords_refines_spec :
  extractKeywords None = []
  /\ extractKeywords (Some EmptyString) = []
  /\ (forall text w,
        In w (extractKeywords (Some text)) <-> isKeyword text w)
  /\ (forall t1 t2, t1 = t2 -> extractKeywords t1 = extractKeywords t2).
Proof.
  split; [reflexivity|]. split; [reflexivity|]. split.
  - exact in_extractKeywords.
  - intros t1 t2 ->. reflexivity.
Qed.

Lemma extractKeywords_refines_spec_witness :
  isKeyword "Learn Rust programming!" "rust"
  /\ extractKeywords (Some "Learn Rust") = extractKeywords (Some "Learn Rust").
Proof.
  destruct extractKeywords_refines_spec as (_ & _ & Hin & Hdet). split.
  - apply Hin. right. left. reflexivity.
  - apply Hdet. reflexivity.
Defined.

(** C1: when the keyword set of the goal is not empty, a title is
    relevant exactly when one of the keywords occurs in it as a substring,
    case ignored. *)
Theorem isRelevant_iff_keyword_occurs :
  forall (goal videoTitle : string) (k : list string),
    k = extractKeywords (Some goal) ->
    k <> [] ->
    (isRelevant goal videoTitle = true <->
     exists kw, In kw k /\ occursIgnoringCase kw videoTitle).
Proof.
  intros goal videoTitle k -> Hne.
  assert (Hrel : isRelevant goal videoTitle
                 = someKeywordIn (extractKeywords (Some goal)) (toLowerCase videoTitle)).
  { unfold isRelevant. destruct goal as [|c goal]; [now destruct Hne|].
    destruct (extractKeywords (Some (String c goal))); [now destruct Hne|].
    reflexivity. }
  rewrite Hrel, someKeywordIn_iff. unfold occursIgnoringCase.
  split; intros [kw [Hin [pre [post E]]]]; exists kw; split; auto;
    exists pre, post; rewrite (keyword_lower _ _ Hin) in *; exact E.
Qed.

Lemma isRelevant_iff_keyword_occurs_witness :
  isRelevant "art" "Smart Contract" = true <->
  exists kw, In kw ["art"] /\ occursIgnoringCase kw "Smart Contract".
Proof.
  apply (isRelevant_iff_keyword_occurs "art" "Smart Contract" ["art"]).
  - reflexivity.
  - discriminate.
Defined.

(** C2: when the goal has no keyword, every title is relevant. *)
Theorem isRelevant_fail_open :
  forall (goal videoTitle : string),
    extractKeywords (Some goal) = [] ->
    isRelevant goal videoTitle = true.
Proof.
  intros goal videoTitle H. unfold isRelevant.
  destruct goal; [reflexivity|]. now rewrite H.
Qed.

Lemma isRelevant_fail_open_witness :
  isRelevant "to be or not to be" "Cute cat compilation" = true.
Proof.
  apply (isRelevant_fail_open "to be or not to be" "Cute cat compilation").
  reflexivity.
Defined.

End KeywordFacts.

(** ** The document tree *)

Module DomFacts.

Import Dom DomLoops Filter Observe.
Local Open Scope list_scope.

Lemma Node_ind' (P : Node -> Prop) :
  (forall d, P (Text d)) ->
  (forall a cs, Forall P cs -> P (Elem a cs)) ->
  forall n, P n.
Proof.
  intros HT HE. fix IH 1. intros [d | a cs]; [apply HT | apply HE].
  induction cs as [|c cs IHcs]; constructor; [apply IH | exact IHcs].
Qed.

Lemma updateElem_Elem (u : nat) (f : Node -> Node) (a : Attrs) (cs : list Node) :
  updateElem u f (Elem a cs) =
  if uid a =? u then Some (f (Elem a cs))
  else option_map (Elem a) (updateChildren u f cs).
Proof.
  simpl. destruct (uid a =? u); [reflexivity|]. f_equal.
  induction cs as [|c cs IH]; simpl; [reflexivity | now rewrite IH].
Qed.

Lemma removeMatching_Elem (ss : list Selector) (anc : list string) (a : Attrs) (cs : list Node) :
  removeMatching ss anc (Elem a cs) = Elem a (keepChildren ss (tagName a :: anc) cs).
Proof.
  simpl. f_equal.
  induction cs as [|c cs IH]; simpl; [reflexivity | now rewrite IH].
Qed.

Lemma removeFirst_Elem (ss : list Selector) (anc : list string) (a : Attrs) (cs : list Node) :
  removeFirst ss anc (Elem a cs) =
  option_map (Elem a) (removeFirstChild ss (tagName a :: anc) cs).
Proof.
  simpl. f_equal.
  induction cs as [|c cs IH]; simpl; [reflexivity | now rewrite IH].
Qed.

Lemma parentOf_Elem (u : nat) (a : Attrs) (cs : list Node) :
  parentOf u (Elem a cs) = parentAmong u a cs.
Proof.
  simpl. induction cs as [|c cs IH]; simpl; [reflexivity | now rewrite IH].
Qed.

(** *** The attributes in document order *)

Lemma subtree_attrs_anc (n : Node) : forall anc anc',
  List.map refAttrs (subtree anc n) = List.map refAttrs (subtree anc' n).
Proof.
  induction n as [d | a cs IH] using Node_ind'; intros anc anc'; simpl;
    [reflexivity | f_equal].
  generalize (tagName a :: anc), (tagName a :: anc'). intros l l'.
  induction IH as [|c cs Hc _ IHcs]; simpl; [reflexivity|].
  rewrite !map_app. f_equal; auto.
Qed.

Lemma flat_map_subtree_attrs (anc : list string) (cs : list Node) :
  List.map refAttrs (flat_map (subtree anc) cs) = flat_map attrsIn cs.
Proof.
  induction cs as [|c cs IH]; simpl; [reflexivity|].
  rewrite map_app, IH. f_equal. apply subtree_attrs_anc.
Qed.

Lemma subtree_attrs (anc : list string) (n : Node) :
  List.map refAttrs (subtree anc n) = attrsIn n.
Proof. apply subtree_attrs_anc. Qed.

Lemma descendants_attrs (anc : list string) (n : Node) :
  List.map refAttrs (descendants anc n) = attrsBelow n.
Proof.
  destruct n as [d | a cs]; [reflexivity|].
  unfold attrsBelow. simpl. now rewrite !flat_map_subtree_attrs.
Qed.

Lemma attrsIn_Elem (a : Attrs) (cs : list Node) :
  attrsIn (Elem a cs) = a :: flat_map attrsIn cs.
Proof. unfold attrsIn. simpl. f_equal. apply flat_map_subtree_attrs. Qed.

Lemma attrsBelow_Elem (a : Attrs) (cs : list Node) :
  attrsBelow (Elem a cs) = flat_map attrsIn cs.
Proof. unfold attrsBelow. simpl. apply flat_map_subtree_attrs. Qed.

Lemma uids_attrs (n : Node) : uids n = List.map uid (attrsIn n).
Proof. unfold uids, attrsIn. now rewrite map_map. Qed.

(** *** Queries by class *)

Lemma matchesAny_class (c : string) (r : Ref) :
  matchesAny [Class c] r = hasClass c (refAttrs r).
Proof. unfold matchesAny. simpl. apply orb_false_r. Qed.

Lemma filter_class_length (c : string) (rs : list Ref) :
  List.length (filter (matchesAny [Class c]) rs)
  = List.length (filter (hasClass c) (List.map refAttrs rs)).
Proof.
  induction rs as [|r rs IH]; [reflexivity|].
  cbn [filter List.map]. rewrite matchesAny_class.
  destruct (hasClass c (refAttrs r)); simpl; congruence.
Qed.

Lemma queryClass_length (c : string) (anc : list string) (n : Node) :
  List.length (querySelectorAll [Class c] anc n)
  = List.length (filter (hasClass c) (attrsBelow n)).
Proof.
  unfold querySelectorAll. now rewrite filter_class_length, descendants_attrs.
Qed.

Lemma queryClass_nil (c : string) (anc : list string) (n : Node) :
  querySelectorAll [Class c] anc n = [] <->
  Forall (fun a => hasClass c a = false) (attrsBelow n).
Proof.
  rewrite <- length_zero_iff_nil, queryClass_length, length_zero_iff_nil.
  induction (attrsBelow n) as [|a l IH]; simpl.
  - split; auto.
  - destruct (hasClass c a) eqn:E.
    + split; [discriminate | intros H; inversion H; congruence].
    + rewrite IH. split; [auto | intros H; now inversion H].
Qed.

(** *** Writing through a reference *)

Lemma updateElem_none (u : nat) (f : Node -> Node) (n : Node) :
  updateElem u f n = None -> ~ In u (List.map uid (attrsIn n)).
Proof.
  induction n as [d | a cs IH] using Node_ind'; intros H; [intros []|].
  rewrite updateElem_Elem in H. rewrite attrsIn_Elem. simpl.
  destruct (uid a =? u) eqn:E; [discriminate|]. apply Nat.eqb_neq in E.
  intros [Hin | Hin]; [now apply E|].
  destruct (updateChildren u f cs) as [cs'|] eqn:Hc; [discriminate|]. clear H.
  induction IH as [|c cs Hc0 _ IHcs]; simpl in *; [exact Hin|].
  destruct (updateElem u f c) as [c'|] eqn:Ec; [discriminate|].
  destruct (updateChildren u f cs) as [cs''|]; [discriminate|].
  rewrite map_app, in_app_iff in Hin. destruct Hin as [Hin | Hin].
  - now apply Hc0.
  - now apply IHcs.
Qed.

(** A write at [u] replaces, in the document order of attributes, the
    segment of the first element with identity [u] by that of its image. *)
Lemma updateElem_attrs (u : nat) (f : Node -> Node) (n : Node) : forall n',
  updateElem u f n = Some n' ->
  exists l1 a cs l2,
    uid a = u
    /\ ~ In u (List.map uid l1)
    /\ attrsIn n = l1 ++ attrsIn (Elem a cs) ++ l2
    /\ attrsIn n' = l1 ++ attrsIn (f (Elem a cs)) ++ l2.
Proof.
  induction n as [d | a cs IH] using Node_ind'; intros n' H; [discriminate|].
  rewrite updateElem_Elem in H. destruct (uid a =? u) eqn:E.
  - injection H as <-. apply Nat.eqb_eq in E.
    exists [], a, cs, []. rewrite !app_nil_r. simpl. auto.
  - destruct (updateChildren u f cs) as [cs'|] eqn:Hc; [|discriminate].
    injection H as <-.
    assert (exists l1 b ds l2,
              uid b = u
              /\ ~ In u (List.map uid l1)
              /\ flat_map attrsIn cs = l1 ++ attrsIn (Elem b ds) ++ l2
              /\ flat_map attrsIn cs' = l1 ++ attrsIn (f (Elem b ds)) ++ l2)
      as (l1 & b & ds & l2 & Hu & Hl1 & E1 & E2).
    { clear E. revert cs' Hc.
      induction IH as [|c cs Hc0 _ IHcs]; intros cs' Hc; simpl in Hc; [discriminate|].
      destruct (updateElem u f c) as [c'|] eqn:Ec.
      - injection Hc as <-.
        destruct (Hc0 _ eq_refl) as (l1 & b & ds & l2 & Hu & Hl1 & E1 & E2).
        exists l1, b, ds, (l2 ++ flat_map attrsIn cs). simpl.
        rewrite E1, E2, <- !app_assoc. auto.
      - destruct (updateChildren u f cs) as [cs''|]; [|discriminate].
        injection Hc as <-.
        destruct (IHcs _ eq_refl) as (l1 & b & ds & l2 & Hu & Hl1 & E1 & E2).
        exists (attrsIn c ++ l1), b, ds, l2. simpl.
        rewrite E1, E2, <- !app_assoc. repeat split; auto.
        rewrite map_app, in_app_iff. intros [Hin | Hin]; [|auto].
        now apply (updateElem_none u f c). }
    exists (a :: l1), b, ds, l2.
    rewrite (attrsIn_Elem a cs), (attrsIn_Elem a cs'), E1, E2.
    apply Nat.eqb_neq in E.
    split; [exact Hu|]. split; [|split; reflexivity].
    simpl. intros [H | H]; auto.
Qed.

Lemma updateElem_some (u : nat) (f : Node -> Node) (n : Node) :
  In u (List.map uid (attrsIn n)) -> exists n', updateElem u f n = Some n'.
Proof.
  intros H. destruct (updateElem u f n) as [n'|] eqn:E; [now exists n'|].
  now apply updateElem_none in E.
Qed.

Lemma parentOf_in (u : nat) (n : Node) : forall p,
  parentOf u n = Some p -> In (uid p) (List.map uid (attrsIn n)).
Proof.
  induction n as [d | a cs IH] using Node_ind'; intros p H; [discriminate|].
  rewrite parentOf_Elem in H. rewrite attrsIn_Elem. simpl.
  induction IH as [|c cs Hc _ IHcs]; simpl in H; [discriminate|].
  simpl. rewrite map_app, in_app_iff.
  destruct c as [d | b ds].
  - destruct (IHcs H) as [E | E]; auto.
  - destruct (uid b =? u).
    + injection H as <-. now left.
    + destruct (parentOf u (Elem b ds)) as [q|] eqn:Eq.
      * injection H as <-. right. left. now apply Hc.
      * destruct (IHcs H) as [E | E]; auto.
Qed.

Lemma updateElem_root (u : nat) (f : Node -> Node) (a : Attrs) (cs : list Node) (n' : Node) :
  updateElem u f (Elem a cs) = Some n' ->
  n' = f (Elem a cs) \/ exists cs', n' = Elem a cs'.
Proof.
  rewrite updateElem_Elem. destruct (uid a =? u).
  - intros H. injection H as <-. now left.
  - destruct (updateChildren u f cs) as [cs'|]; [|discriminate].
    intros H. injection H as <-. right. now exists cs'.
Qed.

(** *** Removing the elements of a class *)

Lemma isMatch_class (c : string) (anc : list string) (n : Node) :
  isMatch [Class c] anc n = classListContains c n.
Proof. destruct n as [d | a cs]; [reflexivity | apply matchesAny_class]. Qed.

Lemma removeMatching_id (c : string) (n : Node) : forall anc,
  Forall (lacks c) (attrsBelow n) -> removeMatching [Class c] anc n = n.
Proof.
  induction n as [d | a cs IH] using Node_ind'; intros anc H; [reflexivity|].
  rewrite removeMatching_Elem. f_equal. rewrite attrsBelow_Elem in H.
  generalize (tagName a :: anc). intros anc'.
  induction IH as [|x cs Hx _ IHcs]; [reflexivity|].
  cbn [keepChildren flat_map] in *.
  apply Forall_app in H. destruct H as [H1 H2].
  rewrite isMatch_class, IHcs by assumption. destruct x as [d | b ds]; [reflexivity|].
  rewrite attrsIn_Elem in H1. inversion H1 as [|? ? Hb Hds]; subst.
  cbn [classListContains]. unfold lacks in Hb. rewrite Hb.
  rewrite Hx; [reflexivity | now rewrite attrsBelow_Elem].
Qed.

Lemma keepChildren_id (c : string) (anc : list string) (l : list Node) :
  Forall (lacks c) (flat_map attrsIn l) -> keepChildren [Class c] anc l = l.
Proof.
  induction l as [|x l IH]; intros H; [reflexivity|].
  cbn [keepChildren flat_map] in *.
  apply Forall_app in H. destruct H as [H1 H2].
  rewrite isMatch_class, IH by assumption. destruct x as [d | b ds]; [reflexivity|].
  rewrite attrsIn_Elem in H1. inversion H1 as [|? ? Hb Hds]; subst.
  cbn [classListContains]. unfold lacks in Hb. rewrite Hb.
  rewrite removeMatching_id; [reflexivity | now rewrite attrsBelow_Elem].
Qed.

Lemma keepChildren_app (ss : list Selector) (anc : list string) (l1 l2 : list Node) :
  keepChildren ss anc (l1 ++ l2) = keepChildren ss anc l1 ++ keepChildren ss anc l2.
Proof.
  induction l1 as [|x l1 IH]; simpl; [reflexivity|].
  destruct (isMatch ss anc x); simpl; now rewrite IH.
Qed.

(** After the removal no element of the class is left below the node. *)
Lemma removeMatching_clean (c : string) (n : Node) : forall anc,
  Forall (lacks c) (attrsBelow (removeMatching [Class c] anc n)).
Proof.
  induction n as [d | a cs IH] using Node_ind'; intros anc; [constructor|].
  rewrite removeMatching_Elem, attrsBelow_Elem.
  generalize (tagName a :: anc). intros anc'.
  induction IH as [|x cs Hx _ IHcs]; [constructor|].
  cbn [keepChildren]. rewrite isMatch_class.
  destruct (classListContains c x) eqn:E; [exact IHcs|].
  cbn [flat_map]. apply Forall_app. split; [|exact IHcs].
  destruct x as [d | b ds]; [constructor|].
  specialize (Hx anc'). rewrite removeMatching_Elem in *.
  rewrite attrsIn_Elem. constructor; [exact E|].
  now rewrite attrsBelow_Elem in Hx.
Qed.

Lemma removeFirst_none (c : string) (n : Node) : forall anc,
  Forall (lacks c) (attrsBelow n) -> removeFirst [Class c] anc n = None.
Proof.
  induction n as [d | a cs IH] using Node_ind'; intros anc H; [reflexivity|].
  rewrite removeFirst_Elem. rewrite attrsBelow_Elem in H.
  generalize (tagName a :: anc). intros anc'.
  assert (E : removeFirstChild [Class c] anc' cs = None); [|now rewrite E].
  induction IH as [|x cs Hx _ IHcs]; [reflexivity|].
  cbn [removeFirstChild flat_map] in *.
  apply Forall_app in H. destruct H as [H1 H2].
  rewrite isMatch_class, IHcs by assumption. destruct x as [d | b ds]; [reflexivity|].
  rewrite attrsIn_Elem in H1. inversion H1 as [|? ? Hb Hds]; subst.
  cbn [classListContains]. unfold lacks in Hb. rewrite Hb.
  rewrite Hx; [reflexivity | now rewrite attrsBelow_Elem].
Qed.

(** Where nothing of the class is left, looking for its first element
    under any element changes nothing. *)
Lemma withElem_removeFirst_noop (c : string) (anc0 : list string) (u : nat) (n : Node) :
  Forall (lacks c) (attrsBelow n) ->
  withElem u (removeFirstMatching [Class c] anc0) n = n.
Proof.
  unfold withElem.
  destruct (updateElem u (removeFirstMatching [Class c] anc0) n) as [n'|] eqn:E;
    [|reflexivity].
  revert n' E. induction n as [d | a cs IH] using Node_ind'; intros n' E H;
    [discriminate|].
  rewrite updateElem_Elem in E. destruct (uid a =? u).
  - injection E as <-. unfold removeFirstMatching.
    now rewrite removeFirst_none.
  - destruct (updateChildren u _ cs) as [cs'|] eqn:Hc; [|discriminate].
    injection E as <-. f_equal. rewrite attrsBelow_Elem in H.
    revert cs' Hc. induction IH as [|x cs Hx _ IHcs]; intros cs' Hc;
      [discriminate|].
    cbn [updateChildren flat_map] in *.
    apply Forall_app in H. destruct H as [H1 H2].
    destruct (updateElem u _ x) as [x'|] eqn:Ex.
    + injection Hc as <-. f_equal. apply Hx; [reflexivity|].
      destruct x as [d | b ds]; [constructor|].
      rewrite attrsIn_Elem in H1. rewrite attrsBelow_Elem. now inversion H1.
    + destruct (updateChildren u _ cs) as [cs''|]; [|discriminate].
      injection Hc as <-. f_equal. now apply IHcs.
Qed.

End DomFacts.

(** ** Marking and clearing an item *)

Module MarkFacts.

Import Dom DomLoops Filter Observe DomFacts.
Local Open Scope list_scope.

Lemma hasClass_app (c : string) (a : Attrs) (l : list string) :
  hasClass c (setClassList (classList a ++ l) a)
  = hasClass c a || existsb (String.eqb c) l.
Proof. unfold hasClass. simpl. apply existsb_app. Qed.

Lemma hasClass_removed (c : string) (a : Attrs) :
  hasClass c (setClassList (filter (fun x => negb (String.eqb c x)) (classList a)) a) = false.
Proof.
  unfold hasClass. simpl. induction (classList a) as [|x l IH]; simpl; [reflexivity|].
  destruct (String.eqb c x) eqn:E; simpl; [exact IH | now rewrite E].
Qed.

Lemma remove_absent (c : string) (a : Attrs) :
  hasClass c a = false ->
  setClassList (filter (fun x => negb (String.eqb c x)) (classList a)) a = a.
Proof.
  intros H. destruct a as [u t i l sp ti]. unfold setClassList, hasClass in *. simpl in *.
  f_equal. induction l as [|x l IH]; simpl in *; [reflexivity|].
  apply orb_false_iff in H. destruct H as [H1 H2]. rewrite H1. simpl. now rewrite IH.
Qed.

(** The second loop of [markRelevant] finds nothing left to remove. *)
Lemma markRelevantEl_eq (x : Node) :
  markRelevantEl x = removeMatching [Class OVERLAY] [] (classListRemove BLURRED x).
Proof.
  unfold markRelevantEl.
  assert (H : forall (l : list Ref) v,
             Forall (lacks OVERLAY) (attrsBelow v) ->
             fold_left
               (fun v p => withElem (uid (refAttrs p))
                             (removeFirstMatching [Class OVERLAY] []) v) l v = v).
  { induction l as [|r l IH]; intros v Hv; simpl; [reflexivity|].
    rewrite withElem_removeFirst_noop by assumption. now apply IH. }
  apply H. apply removeMatching_clean.
Qed.

Lemma markRelevantEl_Elem (a : Attrs) (cs : list Node) :
  markRelevantEl (Elem a cs)
  = Elem (setClassList (filter (fun x => negb (String.eqb BLURRED x)) (classList a)) a)
         (keepChildren [Class OVERLAY] [tagName a] cs).
Proof.
  rewrite markRelevantEl_eq. cbn [classListRemove mapAttrs].
  rewrite removeMatching_Elem. reflexivity.
Qed.

Lemma markRelevantEl_unmarked (x : Node) : isMarked (markRelevantEl x) = false.
Proof.
  destruct x as [d | a cs]; [reflexivity|].
  rewrite markRelevantEl_Elem. apply hasClass_removed.
Qed.

Lemma markRelevantEl_clean (x : Node) :
  Forall (lacks OVERLAY) (attrsBelow (markRelevantEl x)).
Proof. rewrite markRelevantEl_eq. apply removeMatching_clean. Qed.

Lemma markRelevantEl_no_overlay (x : Node) : overlaysOf (markRelevantEl x) = [].
Proof. apply queryClass_nil, markRelevantEl_clean. Qed.

Lemma markRelevantEl_idem (x : Node) :
  markRelevantEl (markRelevantEl x) = markRelevantEl x.
Proof.
  destruct x as [d | a cs]; [reflexivity|].
  pose proof (markRelevantEl_clean (Elem a cs)) as Hc.
  rewrite markRelevantEl_Elem in *. rewrite markRelevantEl_Elem.
  rewrite attrsBelow_Elem in Hc. f_equal.
  - apply remove_absent, hasClass_removed.
  - now apply keepChildren_id.
Qed.

(** An item that is not marked and carries no overlay is left as it is. *)
Lemma markRelevantEl_fix (x : Node) :
  isMarked x = false -> Forall (lacks OVERLAY) (attrsBelow x) ->
  markRelevantEl x = x.
Proof.
  intros Hm Ho. destruct x as [d | a cs]; [reflexivity|].
  rewrite markRelevantEl_Elem. rewrite attrsBelow_Elem in Ho. f_equal.
  - now apply remove_absent.
  - now apply keepChildren_id.
Qed.

(** *** [markIrrelevant] *)

Lemma markIrrelevantEl_marked (k : nat) (x : Node) :
  isMarked x = true -> markIrrelevantEl k x = x.
Proof. unfold markIrrelevantEl, isMarked. now intros ->. Qed.

Lemma markIrrelevantEl_Text (k : nat) (d : string) :
  markIrrelevantEl k (Text d) = Text d.
Proof. reflexivity. Qed.

(** On an unmarked item the call is one write of the overlay at some
    element of the item with the class added. *)
Lemma markIrrelevantEl_as_update (k : nat) (a : Attrs) (cs : list Node) :
  hasClass BLURRED a = false ->
  exists u,
    updateElem u (attachOverlay (createOverlay k))
      (Elem (setClassList (classList a ++ [BLURRED]) a) cs)
    = Some (markIrrelevantEl k (Elem a cs)).
Proof.
  intros H. unfold markIrrelevantEl. cbn [classListContains classListAdd mapAttrs].
  rewrite H. set (marked := Elem _ cs).
  assert (Hroot : updateElem (uid a) (attachOverlay (createOverlay k)) marked
                  = Some (attachOverlay (createOverlay k) marked)).
  { unfold marked. rewrite updateElem_Elem. cbn [uid setClassList].
    now rewrite Nat.eqb_refl. }
  destruct (querySelector THUMBNAIL_SELECTORS [] marked) as [thumb|];
    [|now exists (uid a)].
  destruct (parentOf (uid (refAttrs thumb)) marked) as [p|] eqn:Hp;
    [|now exists (uid a)].
  apply parentOf_in in Hp.
  destruct (updateElem_some (uid p) (attachOverlay (createOverlay k)) marked Hp)
    as [n' Hn'].
  exists (uid p). unfold withElem. now rewrite Hn'.
Qed.

Lemma attach_root_class (c : string) (u : nat) (o x x' : Node) :
  updateElem u (attachOverlay o) x = Some x' ->
  classListContains c x' = classListContains c x.
Proof.
  destruct x as [d | a cs]; [discriminate|]. intros H.
  destruct (updateElem_root _ _ _ _ _ H) as [-> | [cs' ->]]; reflexivity.
Qed.

Lemma markIrrelevantEl_isMarked (k : nat) (a : Attrs) (cs : list Node) :
  isMarked (markIrrelevantEl k (Elem a cs)) = true.
Proof.
  destruct (hasClass BLURRED a) eqn:H.
  - now rewrite markIrrelevantEl_marked.
  - destruct (markIrrelevantEl_as_update k a cs H) as [u Hu].
    unfold isMarked. rewrite (attach_root_class _ _ _ _ _ Hu).
    cbn [classListContains]. rewrite hasClass_app, H. reflexivity.
Qed.

Lemma markIrrelevantEl_idem (k k' : nat) (x : Node) :
  markIrrelevantEl k' (markIrrelevantEl k x) = markIrrelevantEl k x.
Proof.
  destruct x as [d | a cs]; [reflexivity|].
  apply markIrrelevantEl_marked, markIrrelevantEl_isMarked.
Qed.

(** *** Counting overlays and badges *)

Lemma countIn_Elem (c : string) (a : Attrs) (cs : list Node) :
  List.length (filter (hasClass c) (attrsIn (Elem a cs)))
  = (if hasClass c a then 1 else 0) + countBelow c (Elem a cs).
Proof.
  unfold countBelow. rewrite attrsIn_Elem, attrsBelow_Elem. simpl.
  now destruct (hasClass c a).
Qed.

Lemma countIn_node (c : string) (n : Node) :
  List.length (filter (hasClass c) (attrsIn n))
  = (if classListContains c n then 1 else 0) + countBelow c n.
Proof. destruct n as [d | a cs]; [reflexivity | apply countIn_Elem]. Qed.

Lemma attrsIn_attach (o : Node) (a : Attrs) (cs : list Node) :
  attrsIn (attachOverlay o (Elem a cs))
  = mkAttrs (uid a) (tagName a) (id a) (classList a) "relative" (title a)
    :: flat_map attrsIn cs ++ attrsIn o.
Proof.
  unfold attachOverlay. cbn [setStylePosition mapAttrs appendChild].
  rewrite attrsIn_Elem, flat_map_app. simpl. now rewrite app_nil_r.
Qed.

Lemma count_segment (P : Attrs -> bool) (l1 : list Attrs) (x : Attrs) (m l2 : list Attrs) :
  List.length (filter P (l1 ++ (x :: m) ++ l2))
  = List.length (filter P l1) + (if P x then 1 else 0)
    + List.length (filter P m) + List.length (filter P l2).
Proof.
  rewrite !filter_app, !length_app. cbn [filter].
  destruct (P x); cbn [List.length]; lia.
Qed.

(** Marking an unmarked item adds the elements of the overlay, and
    nothing else, to what is below the item. *)
Lemma markIrrelevantEl_count (c : string) (k : nat) (a : Attrs) (cs : list Node) :
  hasClass BLURRED a = false ->
  countBelow c (markIrrelevantEl k (Elem a cs))
  = countBelow c (Elem a cs)
    + List.length (filter (hasClass c) (attrsIn (createOverlay k))).
Proof.
  intros H. destruct (markIrrelevantEl_as_update k a cs H) as [u Hu].
  pose proof (attach_root_class c _ _ _ _ Hu) as Hroot.
  destruct (updateElem_attrs _ _ _ _ Hu) as (l1 & b & ds & l2 & _ & _ & E1 & E2).
  pose proof (countIn_node c (markIrrelevantEl k (Elem a cs))) as C2.
  pose proof (countIn_Elem c (setClassList (classList a ++ [BLURRED]) a) cs) as C1.
  rewrite E2, attrsIn_attach, count_segment in C2.
  rewrite E1, attrsIn_Elem, count_segment in C1.
  rewrite Hroot in C2. cbn [classListContains] in C2.
  change (hasClass c (mkAttrs (uid b) (tagName b) (id b) (classList b) "relative" (title b)))
    with (hasClass c b) in C2.
  rewrite filter_app, length_app in C2.
  assert (Hsame : countBelow c (Elem (setClassList (classList a ++ [BLURRED]) a) cs)
                  = countBelow c (Elem a cs)).
  { unfold countBelow. now rewrite !attrsBelow_Elem. }
  rewrite Hsame in C1. lia.
Qed.

Lemma overlay_counts (k : nat) :
  List.length (filter (hasClass OVERLAY) (attrsIn (createOverlay k))) = 1
  /\ List.length (filter (hasClass BADGE) (attrsIn (createOverlay k))) = 1.
Proof. split; reflexivity. Qed.

Lemma overlaysOf_length (x : Node) :
  List.length (overlaysOf x) = countBelow OVERLAY x.
Proof. apply queryClass_length. Qed.

Lemma badgesOf_length (x : Node) :
  List.length (badgesOf x) = countBelow BADGE x.
Proof. apply queryClass_length. Qed.

(** *** Marking, then clearing *)

Lemma lacks_root (c : string) (x : Node) :
  Forall (lacks c) (attrsIn x) ->
  classListContains c x = false /\ Forall (lacks c) (attrsBelow x).
Proof.
  destruct x as [d | a cs]; [split; [reflexivity | constructor]|].
  rewrite attrsIn_Elem, attrsBelow_Elem. intros H. now inversion H.
Qed.

Lemma updateElem_none_any (u : nat) (f g : Node -> Node) (n : Node) :
  updateElem u f n = None -> updateElem u g n = None.
Proof.
  intros H. apply updateElem_none in H.
  destruct (updateElem u g n) as [n'|] eqn:E; [|reflexivity].
  destruct (updateElem_attrs _ _ _ _ E) as (l1 & a & cs & l2 & Hu & _ & E1 & _).
  exfalso. apply H. rewrite E1, attrsIn_Elem, map_app, in_app_iff. right. now left.
Qed.

(** Writing an overlay at some element and then removing every overlay
    is the same as setting the inline position of that element. *)
Lemma attach_then_strip (o : Node) (u : nat) (n : Node) : forall anc n',
  classListContains OVERLAY o = true ->
  Forall (lacks OVERLAY) (attrsBelow n) ->
  updateElem u (attachOverlay o) n = Some n' ->
  updateElem u (setStylePosition "relative") n
  = Some (removeMatching [Class OVERLAY] anc n').
Proof.
  induction n as [d | a cs IH] using Node_ind'; intros anc n' Ho Hn H; [discriminate|].
  rewrite updateElem_Elem in *. rewrite attrsBelow_Elem in Hn.
  destruct (uid a =? u).
  - injection H as <-. unfold attachOverlay.
    cbn [setStylePosition mapAttrs appendChild].
    rewrite removeMatching_Elem, keepChildren_app, keepChildren_id by assumption.
    cbn [keepChildren]. rewrite isMatch_class, Ho, app_nil_r. reflexivity.
  - destruct (updateChildren u _ cs) as [cs'|] eqn:Hc; [|discriminate].
    injection H as <-. rewrite removeMatching_Elem.
    generalize (tagName a :: anc). intros anc'.
    assert (E : updateChildren u (setStylePosition "relative") cs
                = Some (keepChildren [Class OVERLAY] anc' cs')); [|now rewrite E].
    revert cs' Hc. induction IH as [|x cs Hx _ IHcs]; intros cs' Hc; [discriminate|].
    cbn [updateChildren flat_map] in *.
    apply Forall_app in Hn. destruct Hn as [H1 H2].
    destruct (lacks_root _ _ H1) as [Hr Hb].
    destruct (updateElem u (attachOverlay o) x) as [x'|] eqn:Ex.
    + injection Hc as <-. cbn [keepChildren].
      rewrite isMatch_class, (attach_root_class _ _ _ _ _ Ex), Hr.
      rewrite (Hx anc' x' Ho Hb eq_refl). now rewrite keepChildren_id.
    + destruct (updateChildren u (attachOverlay o) cs) as [cs''|]; [|discriminate].
      injection Hc as <-. cbn [keepChildren].
      rewrite isMatch_class, Hr, (updateElem_none_any _ _ _ _ Ex).
      rewrite removeMatching_id by assumption.
      now rewrite (IHcs H2 cs'' eq_refl).
Qed.

Lemma update_classListRemove (c v : string) (u : nat) (x y : Node) :
  updateElem u (setStylePosition v) x = Some y ->
  updateElem u (setStylePosition v) (classListRemove c x) = Some (classListRemove c y).
Proof.
  destruct x as [d | a cs]; [discriminate|]. cbn [classListRemove mapAttrs].
  rewrite !updateElem_Elem. cbn [uid setClassList]. destruct (uid a =? u).
  - intros H. injection H as <-. reflexivity.
  - destruct (updateChildren u _ cs) as [cs'|]; [|discriminate].
    intros H. injection H as <-. reflexivity.
Qed.

Lemma erase_update_position (v : string) (u : nat) (n : Node) : forall n',
  updateElem u (setStylePosition v) n = Some n' ->
  eraseInlinePosition n' = eraseInlinePosition n.
Proof.
  induction n as [d | a cs IH] using Node_ind'; intros n' H; [discriminate|].
  rewrite updateElem_Elem in H. destruct (uid a =? u).
  - injection H as <-. reflexivity.
  - destruct (updateChildren u _ cs) as [cs'|] eqn:Hc; [|discriminate].
    injection H as <-. cbn [eraseInlinePosition]. f_equal.
    revert cs' Hc. induction IH as [|x cs Hx _ IHcs]; intros cs' Hc; [discriminate|].
    cbn [updateChildren] in Hc.
    destruct (updateElem u _ x) as [x'|] eqn:Ex.
    + injection Hc as <-. cbn [List.map]. now rewrite (Hx x' eq_refl).
    + destruct (updateChildren u _ cs) as [cs''|]; [|discriminate].
      injection Hc as <-. cbn [List.map]. now rewrite (IHcs cs'' eq_refl).
Qed.

Lemma strip_classListRemove (c : string) (x : Node) :
  removeMatching [Class OVERLAY] [] (classListRemove c x)
  = classListRemove c (removeMatching [Class OVERLAY] [] x).
Proof.
  destruct x as [d | a cs]; [reflexivity|].
  cbn [classListRemove mapAttrs]. rewrite !removeMatching_Elem. reflexivity.
Qed.

Lemma remove_added (a : Attrs) (cs : list Node) :
  hasClass BLURRED a = false ->
  classListRemove BLURRED (Elem (setClassList (classList a ++ [BLURRED]) a) cs) = Elem a cs.
Proof.
  intros H. cbn [classListRemove mapAttrs]. f_equal.
  unfold setClassList. cbn [classList uid tagName id stylePosition title].
  rewrite filter_app. cbn [filter]. rewrite String.eqb_refl. cbn [negb].
  rewrite app_nil_r. exact (remove_absent BLURRED a H).
Qed.

(** Marking an unmarked item without overlays and clearing it again
    gives the item with the inline position of one element set. *)
Lemma mark_then_clear (k : nat) (a : Attrs) (cs : list Node) :
  hasClass BLURRED a = false ->
  Forall (lacks OVERLAY) (attrsBelow (Elem a cs)) ->
  exists u,
    updateElem u (setStylePosition "relative") (Elem a cs)
    = Some (markRelevantEl (markIrrelevantEl k (Elem a cs))).
Proof.
  intros Hm Ho. destruct (markIrrelevantEl_as_update k a cs Hm) as [u Hu].
  exists u. rewrite markRelevantEl_eq, strip_classListRemove.
  assert (Ho' : Forall (lacks OVERLAY)
                  (attrsBelow (Elem (setClassList (classList a ++ [BLURRED]) a) cs))).
  { rewrite attrsBelow_Elem in *. exact Ho. }
  pose proof (attach_then_strip (createOverlay k) u _ [] _ eq_refl Ho' Hu) as H.
  apply (update_classListRemove BLURRED) in H. now rewrite remove_added in H.
Qed.

(** *** Sequences of calls *)

Lemma untouched_iff (x : Node) :
  untouched x <->
  isMarked x = false /\ countBelow OVERLAY x = 0 /\ countBelow BADGE x = 0.
Proof.
  unfold untouched.
  rewrite <- overlaysOf_length, <- badgesOf_length, !length_zero_iff_nil.
  reflexivity.
Qed.

Lemma erase_attrsIn (n : Node) :
  attrsIn (eraseInlinePosition n) = List.map clearPosition (attrsIn n).
Proof.
  induction n as [d | a cs IH] using Node_ind'; [reflexivity|].
  cbn [eraseInlinePosition]. rewrite !attrsIn_Elem. cbn [List.map]. f_equal.
  induction IH as [|x cs Hx _ IHcs]; [reflexivity|].
  cbn [List.map flat_map]. now rewrite map_app, Hx, IHcs.
Qed.

Lemma erase_countBelow (c : string) (n : Node) :
  countBelow c (eraseInlinePosition n) = countBelow c n.
Proof.
  pose proof (countIn_node c n) as H1.
  pose proof (countIn_node c (eraseInlinePosition n)) as H2.
  rewrite erase_attrsIn in H2.
  assert (E : forall l, List.length (filter (hasClass c) (List.map clearPosition l))
                        = List.length (filter (hasClass c) l)).
  { induction l as [|a l IH]; [reflexivity|]. cbn [List.map filter].
    change (hasClass c (clearPosition a)) with (hasClass c a).
    destruct (hasClass c a); cbn [List.length]; now rewrite IH. }
  rewrite E in H2.
  assert (R : classListContains c (eraseInlinePosition n) = classListContains c n)
    by (destruct n; reflexivity).
  rewrite R in H2. lia.
Qed.

Lemma untouched_erase (x y : Node) :
  eraseInlinePosition x = eraseInlinePosition y -> untouched y -> untouched x.
Proof.
  rewrite !untouched_iff. intros E (Hm & Ho & Hb).
  rewrite <- (erase_countBelow OVERLAY x), <- (erase_countBelow BADGE x), E.
  rewrite !erase_countBelow. repeat split; auto.
  assert (R : forall n, isMarked (eraseInlinePosition n) = isMarked n)
    by (intros n; destruct n; reflexivity).
  now rewrite <- R, E, R.
Qed.

Lemma untouched_lacks (x : Node) :
  untouched x -> Forall (lacks OVERLAY) (attrsBelow x).
Proof. intros (_ & Ho & _). now apply (queryClass_nil OVERLAY []). Qed.

Lemma untouched_then_marked (k : nat) (a : Attrs) (cs : list Node) :
  untouched (Elem a cs) ->
  isMarked (markIrrelevantEl k (Elem a cs)) = true
  /\ countBelow OVERLAY (markIrrelevantEl k (Elem a cs)) = 1
  /\ countBelow BADGE (markIrrelevantEl k (Elem a cs)) = 1.
Proof.
  rewrite untouched_iff. intros (Hm & Ho & Hb).
  split; [apply markIrrelevantEl_isMarked|].
  rewrite !markIrrelevantEl_count by exact Hm.
  destruct (overlay_counts k) as [-> ->]. lia.
Qed.

Lemma marked_then_cleared (k : nat) (a : Attrs) (cs : list Node) :
  untouched (Elem a cs) ->
  untouched (markRelevantEl (markIrrelevantEl k (Elem a cs))).
Proof.
  intros H. destruct (mark_then_clear k a cs) as [u Hu].
  - apply H.
  - now apply untouched_lacks.
  - apply (untouched_erase _ (Elem a cs)); [|exact H].
    exact (erase_update_position _ _ _ _ Hu).
Qed.

Lemma settled_markIrrelevant (k : nat) (x : Node) :
  settled x -> settled (markIrrelevantEl k x).
Proof.
  intros [H | (k0 & a & cs & H & ->)].
  - destruct x as [d | a cs]; [now left | right]. now exists k, a, cs.
  - rewrite markIrrelevantEl_idem. right. now exists k0, a, cs.
Qed.

Lemma settled_markRelevant (x : Node) :
  settled x -> untouched (markRelevantEl x).
Proof.
  intros [H | (k0 & a & cs & H & ->)].
  - rewrite markRelevantEl_fix; [exact H | apply H | now apply untouched_lacks].
  - now apply marked_then_cleared.
Qed.

Lemma settled_applyCalls (calls : list Call) : forall k x,
  settled x -> settled (applyCalls k calls x).
Proof.
  induction calls as [|[|] calls IH]; intros k x H; cbn [applyCalls].
  - exact H.
  - apply IH. now apply settled_markIrrelevant.
  - apply IH. left. now apply settled_markRelevant.
Qed.

Lemma settled_counts (x : Node) :
  settled x ->
  (isMarked x = true /\ countBelow OVERLAY x = 1 /\ countBelow BADGE x = 1)
  \/ (isMarked x = false /\ countBelow OVERLAY x = 0 /\ countBelow BADGE x = 0).
Proof.
  intros [H | (k0 & a & cs & H & ->)].
  - right. now apply untouched_iff.
  - left. now apply untouched_then_marked.
Qed.

(** C5: on every item marking twice is marking once and leaves it
    de-emphasised, clearing twice is clearing once and leaves it unmarked
    without overlay; marking an untouched item leaves it with exactly one
    overlay and one badge; after any sequence of calls on an untouched
    item it carries at most one overlay and one badge, and clearing it
    twice leaves it unmarked with none. *)
Theorem mark_calls_idempotent :
  forall (a : Attrs) (cs : list Node) (k k' : nat),
    markIrrelevantEl k' (markIrrelevantEl k (Elem a cs)) = markIrrelevantEl k (Elem a cs)
    /\ isMarked (markIrrelevantEl k (Elem a cs)) = true
    /\ markRelevantEl (markRelevantEl (Elem a cs)) = markRelevantEl (Elem a cs)
    /\ isMarked (markRelevantEl (Elem a cs)) = false
    /\ overlaysOf (markRelevantEl (Elem a cs)) = []
    /\ (untouched (Elem a cs) ->
        (isMarked (markIrrelevantEl k' (markIrrelevantEl k (Elem a cs))) = true
         /\ List.length (overlaysOf (markIrrelevantEl k' (markIrrelevantEl k (Elem a cs)))) = 1
         /\ List.length (badgesOf (markIrrelevantEl k' (markIrrelevantEl k (Elem a cs)))) = 1)
        /\ forall calls : list Call,
             List.length (overlaysOf (applyCalls k calls (Elem a cs))) <= 1
             /\ List.length (badgesOf (applyCalls k calls (Elem a cs))) <= 1
             /\ isMarked (markRelevantEl (markRelevantEl (applyCalls k calls (Elem a cs)))) = false
             /\ overlaysOf (markRelevantEl (markRelevantEl (applyCalls k calls (Elem a cs)))) = []
             /\ badgesOf (markRelevantEl (markRelevantEl (applyCalls k calls (Elem a cs)))) = []).
Proof.
  intros a cs k k'.
  split; [apply markIrrelevantEl_idem|]. split; [apply markIrrelevantEl_isMarked|].
  split; [apply markRelevantEl_idem|]. split; [apply markRelevantEl_unmarked|].
  split; [apply markRelevantEl_no_overlay|].
  intros H. split.
  - rewrite markIrrelevantEl_idem, overlaysOf_length, badgesOf_length.
    now apply untouched_then_marked.
  - intros calls.
    assert (S : settled (applyCalls k calls (Elem a cs)))
      by (apply settled_applyCalls; now left).
    rewrite overlaysOf_length, badgesOf_length, markRelevantEl_idem.
    pose proof (settled_markRelevant _ S) as (Hm & Ho & Hb).
    destruct (settled_counts _ S) as [(_ & -> & ->) | (_ & -> & ->)]; auto.
Qed.

Lemma mark_calls_idempotent_witness :
  List.length (badgesOf (markIrrelevantEl 11 (markIrrelevantEl 9 sampleVideo))) = 1
  /\ List.length
       (badgesOf
          (applyCalls 9 [CallMarkIrrelevant; CallMarkRelevant; CallMarkIrrelevant;
                         CallMarkIrrelevant]
             sampleVideo)) <= 1.
Proof.
  destruct (mark_calls_idempotent
              (mkAttrs 1 "ytd-video-renderer" "" [] "" None)
              [ Elem (mkAttrs 2 "div" "dismissible" [] "" None)
                  [ Elem (mkAttrs 3 "ytd-thumbnail" "" [] "" None) [];
                    Elem (mkAttrs 4 "a" "video-title" [] "" None)
                      [Text "Cute cat compilation"] ] ]
              9 11) as (_ & _ & _ & _ & _ & H).
  destruct H as [(_ & _ & H1) H2].
  - repeat split.
  - split; [exact H1|].
    exact (proj1 (proj2 (H2 [CallMarkIrrelevant; CallMarkRelevant; CallMarkIrrelevant;
                             CallMarkIrrelevant]))).
Defined.

Lemma parentAmong_uid (u : nat) (a a' : Attrs) (cs : list Node) :
  uid a' = uid a ->
  option_map uid (parentAmong u a' cs) = option_map uid (parentAmong u a cs).
Proof.
  intros E. induction cs as [|c cs IH]; [reflexivity|].
  cbn [parentAmong]. destruct c as [d | b ds]; [exact IH|].
  destruct (uid b =? u); [cbn [option_map]; now rewrite E|].
  destruct (parentOf u (Elem b ds)); [reflexivity | exact IH].
Qed.

(** [markIrrelevant] on an unmarked item is the item with the class
    added and the overlay attached at the host. *)
Lemma markIrrelevantEl_at_host (k : nat) (a : Attrs) (cs : list Node) :
  hasClass BLURRED a = false ->
  exists host,
    Layout.overlayHost (Elem a cs) = Some host
    /\ updateElem host (attachOverlay (createOverlay k))
         (Elem (setClassList (classList a ++ [BLURRED]) a) cs)
       = Some (markIrrelevantEl k (Elem a cs)).
Proof.
  intros H. unfold markIrrelevantEl, Layout.overlayHost.
  cbn [classListContains classListAdd mapAttrs]. rewrite H.
  set (marked := Elem (setClassList (classList a ++ [BLURRED]) a) cs).
  assert (Hq : querySelector THUMBNAIL_SELECTORS [] (Elem a cs)
               = querySelector THUMBNAIL_SELECTORS [] marked) by reflexivity.
  rewrite Hq.
  assert (Hroot : updateElem (uid a) (attachOverlay (createOverlay k)) marked
                  = Some (attachOverlay (createOverlay k) marked)).
  { unfold marked. rewrite updateElem_Elem. cbn [uid setClassList].
    now rewrite Nat.eqb_refl. }
  destruct (querySelector THUMBNAIL_SELECTORS [] marked) as [thumb|];
    [|exists (uid a); now split].
  assert (Hp : option_map uid (parentOf (uid (refAttrs thumb)) marked)
               = option_map uid (parentOf (uid (refAttrs thumb)) (Elem a cs))).
  { unfold marked. rewrite !parentOf_Elem. now apply parentAmong_uid. }
  destruct (parentOf (uid (refAttrs thumb)) marked) as [p|] eqn:E1;
    destruct (parentOf (uid (refAttrs thumb)) (Elem a cs)) as [q|];
    cbn [option_map] in Hp; try discriminate Hp.
  - injection Hp as Hp. exists (uid q). split; [reflexivity|]. rewrite <- Hp.
    apply parentOf_in in E1.
    destruct (updateElem_some (uid p) (attachOverlay (createOverlay k)) marked E1)
      as [n' Hn'].
    unfold withElem. now rewrite Hn'.
  - exists (uid a). now split.
Qed.

(** C6, as the code has it: marking an untouched item and clearing it
    again leaves it untouched, with its classes, children and texts as
    before; what remains is the inline position [relative] of the
    element the overlay was appended to, which is the parent of the
    first thumbnail container of the item, or the item itself when it
    has none: the result is the item with the position of that one
    element set. *)
Theorem mark_then_clear_restores :
  forall (a : Attrs) (cs : list Node) (k : nat),
    untouched (Elem a cs) ->
    untouched (markRelevantEl (markIrrelevantEl k (Elem a cs)))
    /\ eraseInlinePosition (markRelevantEl (markIrrelevantEl k (Elem a cs)))
       = eraseInlinePosition (Elem a cs)
    /\ exists host,
         Layout.overlayHost (Elem a cs) = Some host
         /\ updateElem host (setStylePosition "relative") (Elem a cs)
            = Some (markRelevantEl (markIrrelevantEl k (Elem a cs))).
Proof.
  intros a cs k H.
  assert (Hm : hasClass BLURRED a = false) by apply H.
  pose proof (untouched_lacks _ H) as Ho.
  destruct (markIrrelevantEl_at_host k a cs Hm) as (host & Eh & Hu).
  assert (Hc : updateElem host (setStylePosition "relative") (Elem a cs)
               = Some (markRelevantEl (markIrrelevantEl k (Elem a cs)))).
  { rewrite markRelevantEl_eq, strip_classListRemove.
    assert (Ho' : Forall (lacks OVERLAY)
                    (attrsBelow (Elem (setClassList (classList a ++ [BLURRED]) a) cs))).
    { rewrite attrsBelow_Elem in *. exact Ho. }
    pose proof (attach_then_strip (createOverlay k) host _ [] _ eq_refl Ho' Hu) as R.
    apply (update_classListRemove BLURRED) in R. now rewrite remove_added in R. }
  split; [now apply marked_then_cleared|]. split.
  - exact (erase_update_position _ _ _ _ Hc).
  - now exists host.
Qed.

Lemma mark_then_clear_restores_witness :
  eraseInlinePosition (markRelevantEl (markIrrelevantEl 9 sampleVideo))
  = eraseInlinePosition sampleVideo
  /\ exists host,
       Layout.overlayHost sampleVideo = Some host
       /\ updateElem host (setStylePosition "relative") sampleVideo
          = Some (markRelevantEl (markIrrelevantEl 9 sampleVideo)).
Proof.
  refine (proj2 (mark_then_clear_restores
                   (mkAttrs 1 "ytd-video-renderer" "" [] "" None)
                   [ Elem (mkAttrs 2 "div" "dismissible" [] "" None)
                       [ Elem (mkAttrs 3 "ytd-thumbnail" "" [] "" None) [];
                         Elem (mkAttrs 4 "a" "video-title" [] "" None)
                           [Text "Cute cat compilation"] ] ]
                   9 _)).
  repeat split.
Defined.

Example overlay_host_of_sample : Layout.overlayHost sampleVideo = Some 2.
Proof. reflexivity. Qed.

(** The claim C6 as stated fails: the sample video is untouched, and
    marking and clearing it does not give it back. *)
Lemma mark_then_clear_leaves_position :
  untouched sampleVideo
  /\ markRelevantEl (markIrrelevantEl 9 sampleVideo) <> sampleVideo
  /\ Forall (fun a => stylePosition a = "") (attrsIn sampleVideo)
  /\ In "relative"
       (List.map stylePosition
          (attrsIn (markRelevantEl (markIrrelevantEl 9 sampleVideo)))).
Proof.
  split; [repeat split|]. split; [discriminate|]. split.
  - repeat constructor.
  - vm_compute. auto.
Qed.

End MarkFacts.

(** ** Clearing the document *)

Module ClearFacts.

Import Dom DomLoops Filter Observe DomFacts MarkFacts.
Local Open Scope list_scope.

Lemma Subseq_refl {A : Type} (l : list A) : Subseq l l.
Proof. induction l; [apply Subseq_nil | now apply Subseq_keep]. Qed.

Lemma Subseq_nil_l {A : Type} (l : list A) : Subseq [] l.
Proof. induction l; [apply Subseq_nil | now apply Subseq_drop]. Qed.

Lemma Subseq_length {A : Type} (l l' : list A) :
  Subseq l l' -> List.length l <= List.length l'.
Proof. intros S. induction S; simpl; lia. Qed.

Lemma Subseq_app {A : Type} (l1 l1' l2 l2' : list A) :
  Subseq l1 l1' -> Subseq l2 l2' -> Subseq (l1 ++ l2) (l1' ++ l2').
Proof.
  intros H1 H2. induction H1; simpl;
    [assumption | now apply Subseq_drop | now apply Subseq_keep].
Qed.

Lemma Subseq_map {A B : Type} (f : A -> B) (l l' : list A) :
  Subseq l l' -> Subseq (List.map f l) (List.map f l').
Proof.
  intros H. induction H; simpl;
    [apply Subseq_nil | now apply Subseq_drop | now apply Subseq_keep].
Qed.

Lemma Subseq_In {A : Type} (l l' : list A) (x : A) :
  Subseq l l' -> In x l -> In x l'.
Proof.
  intros H. induction H; simpl; [auto | auto |].
  intros [-> | Hin]; auto.
Qed.

Lemma Subseq_NoDup {A : Type} (l l' : list A) :
  Subseq l l' -> NoDup l' -> NoDup l.
Proof.
  intros H. induction H; intros Hn; [constructor | |].
  - inversion Hn; auto.
  - inversion Hn as [|? ? Hx Hl]; subst. constructor; [|auto].
    intros Hin. apply Hx. now apply (Subseq_In l l').
Qed.

(** Removing elements leaves a part of the attributes, the root kept. *)
Lemma removeMatching_Subseq (ss : list Selector) (n : Node) : forall anc,
  Subseq (attrsIn (removeMatching ss anc n)) (attrsIn n).
Proof.
  induction n as [d | a cs IH] using Node_ind'; intros anc; [apply Subseq_nil|].
  rewrite removeMatching_Elem, !attrsIn_Elem. apply Subseq_keep.
  generalize (tagName a :: anc). intros anc'.
  induction IH as [|x cs Hx _ IHcs]; [apply Subseq_nil|].
  cbn [keepChildren flat_map]. destruct (isMatch ss anc' x).
  - change (flat_map attrsIn (keepChildren ss anc' cs))
      with ([] ++ flat_map attrsIn (keepChildren ss anc' cs)).
    apply Subseq_app; [apply Subseq_nil_l | exact IHcs].
  - cbn [flat_map]. apply Subseq_app; [apply Hx | exact IHcs].
Qed.

Lemma keepChildren_Subseq (ss : list Selector) (anc : list string) (l : list Node) :
  Subseq (flat_map attrsIn (keepChildren ss anc l)) (flat_map attrsIn l).
Proof.
  induction l as [|x l IH]; [apply Subseq_nil|].
  cbn [keepChildren flat_map]. destruct (isMatch ss anc x).
  - change (flat_map attrsIn (keepChildren ss anc l))
      with ([] ++ flat_map attrsIn (keepChildren ss anc l)).
    apply Subseq_app; [apply Subseq_nil_l | exact IH].
  - cbn [flat_map]. apply Subseq_app; [apply removeMatching_Subseq | exact IH].
Qed.

Lemma markRelevantEl_attrs (a : Attrs) (cs : list Node) :
  exists a' below,
    attrsIn (markRelevantEl (Elem a cs)) = a' :: below
    /\ uid a' = uid a
    /\ hasClass BLURRED a' = false
    /\ Subseq below (flat_map attrsIn cs).
Proof.
  rewrite markRelevantEl_Elem, attrsIn_Elem.
  eexists; eexists. split; [reflexivity|]. split; [reflexivity|].
  split; [apply hasClass_removed | apply keepChildren_Subseq].
Qed.

(** One call of [markRelevant] in a document with distinct identities:
    identities stay distinct, and what is marked afterwards was marked
    before and is not the element cleared. *)
Lemma markRelevant_step (u : nat) (d : Node) :
  NoDup (List.map uid (attrsIn d)) ->
  NoDup (List.map uid (attrsIn (withElem u markRelevantEl d)))
  /\ forall x, In x (attrsIn (withElem u markRelevantEl d)) ->
               hasClass BLURRED x = true ->
               uid x <> u /\ In x (attrsIn d).
Proof.
  intros Hn. unfold withElem.
  destruct (updateElem u markRelevantEl d) as [d'|] eqn:E.
  - destruct (updateElem_attrs _ _ _ _ E) as (l1 & a & cs & l2 & Hu & _ & E1 & E2).
    destruct (markRelevantEl_attrs a cs) as (a' & below & Ea & Hua & Hb & Hs).
    rewrite Ea in E2. rewrite attrsIn_Elem in E1. rewrite E1 in Hn |- *. rewrite E2.
    split.
    + apply (Subseq_NoDup _ _ (A := nat)) with (2 := Hn).
      rewrite !map_app. apply Subseq_app; [apply Subseq_refl|].
      apply Subseq_app; [|apply Subseq_refl].
      cbn [List.map]. rewrite Hua. apply Subseq_keep. now apply Subseq_map.
    + assert (Hl1 : ~ In (uid a) (List.map uid l1)
                    /\ ~ In (uid a) (List.map uid (flat_map attrsIn cs))
                    /\ ~ In (uid a) (List.map uid l2)).
      { rewrite !map_app in Hn. cbn [List.map app] in Hn.
        apply NoDup_remove_2 in Hn. rewrite !in_app_iff in Hn. tauto. }
      destruct Hl1 as (N1 & N2 & N3).
      intros x Hx Hbx. rewrite <- Hu.
      rewrite !in_app_iff in Hx. cbn [In] in Hx. rewrite !in_app_iff. cbn [In].
      destruct Hx as [Hx | [[Hx | Hx] | Hx]].
      * split; [|auto]. intros Hux. apply N1. rewrite <- Hux. now apply in_map.
      * subst x. congruence.
      * apply (Subseq_In _ _ _ Hs) in Hx. split; [|auto].
        intros Hux. apply N2. rewrite <- Hux. now apply in_map.
      * split; [|auto]. intros Hux. apply N3. rewrite <- Hux. now apply in_map.
  - split; [exact Hn|]. intros x Hx _. split; [|exact Hx].
    apply updateElem_none in E. intros Hux. apply E. rewrite <- Hux.
    now apply in_map.
Qed.

Lemma distinct_NoDup (l : list nat) : distinct l = true -> NoDup l.
Proof.
  induction l as [|x l IH]; simpl; [constructor|].
  rewrite andb_true_iff, negb_true_iff. intros [Hx Hl].
  constructor; [|auto]. intros Hin.
  assert (E : existsb (Nat.eqb x) l = true); [|congruence].
  apply existsb_exists. exists x. split; [exact Hin | apply Nat.eqb_refl].
Qed.

Lemma uniqueUids_NoDup (d : Node) :
  uniqueUids d = true -> NoDup (List.map uid (attrsIn d)).
Proof. unfold uniqueUids. rewrite uids_attrs. apply distinct_NoDup. Qed.

Lemma filter_matches_attrs (c : string) (rs : list Ref) :
  List.map refAttrs (filter (matchesAny [Class c]) rs)
  = filter (hasClass c) (List.map refAttrs rs).
Proof.
  induction rs as [|r rs IH]; [reflexivity|].
  cbn [filter List.map]. rewrite matchesAny_class.
  destruct (hasClass c (refAttrs r)); cbn [List.map]; now rewrite IH.
Qed.

Lemma markedItems_attrs (d : Node) :
  List.map refAttrs (markedItems d) = filter (hasClass BLURRED) (attrsIn d).
Proof. unfold markedItems, documentQuerySelectorAll. apply filter_matches_attrs. Qed.

Lemma markedItems_nil (d : Node) :
  markedItems d = [] <-> forall x, In x (attrsIn d) -> hasClass BLURRED x = false.
Proof.
  split.
  - intros H x Hx. destruct (hasClass BLURRED x) eqn:E; [|reflexivity].
    assert (Hin : In x (filter (hasClass BLURRED) (attrsIn d)))
      by (apply filter_In; auto).
    rewrite <- markedItems_attrs, H in Hin. destruct Hin.
  - intros H. apply map_eq_nil with (f := refAttrs). rewrite markedItems_attrs.
    induction (attrsIn d) as [|x l IH]; [reflexivity|].
    cbn [filter]. rewrite (H x) by now left. apply IH. intros y Hy. apply H. now right.
Qed.

(** The loop of [clearAllFilters], call by call. *)
Lemma clear_loop (l : list Ref) : forall p,
  trace (fold_left (fun q el => markRelevant (uid (refAttrs el)) q) l p)
  = trace p ++ List.map (fun el => MarkRelevant (uid (refAttrs el))) l
  /\ nextUid (fold_left (fun q el => markRelevant (uid (refAttrs el)) q) l p) = nextUid p
  /\ document (fold_left (fun q el => markRelevant (uid (refAttrs el)) q) l p)
     = fold_left (fun d el => withElem (uid (refAttrs el)) markRelevantEl d) l (document p).
Proof.
  induction l as [|r l IH]; intros p; cbn [fold_left List.map].
  - now rewrite app_nil_r.
  - destruct (IH (markRelevant (uid (refAttrs r)) p)) as (-> & -> & ->).
    cbn [markRelevant trace nextUid document]. now rewrite <- app_assoc.
Qed.

Lemma clear_loop_unmarks (l : list nat) : forall d,
  NoDup (List.map uid (attrsIn d)) ->
  (forall x, In x (attrsIn d) -> hasClass BLURRED x = true -> In (uid x) l) ->
  forall x, In x (attrsIn (fold_left (fun d u => withElem u markRelevantEl d) l d)) ->
            hasClass BLURRED x = false.
Proof.
  induction l as [|u l IH]; intros d Hn Hl x Hx; cbn [fold_left] in Hx.
  - destruct (hasClass BLURRED x) eqn:E; [|reflexivity]. destruct (Hl x Hx E).
  - destruct (markRelevant_step u d Hn) as [Hn' Hstep].
    apply (IH _ Hn') with (x := x); [|exact Hx].
    intros y Hy Hby. destruct (Hstep y Hy Hby) as [Hne Hin].
    destruct (Hl y Hin Hby) as [E | H]; [congruence | exact H].
Qed.

Lemma fold_left_map {A B C : Type} (f : A -> C -> A) (g : B -> C) (l : list B) : forall a,
  fold_left (fun a b => f a (g b)) l a = fold_left f (List.map g l) a.
Proof. induction l as [|b l IH]; intros a; simpl; [reflexivity | apply IH]. Qed.

(** [clearAllFilters] calls [markRelevant] on the marked items, in
    document order, and leaves no item marked. *)
Lemma clearAllFilters_spec (p : Page) :
  uniqueUids (document p) = true ->
  trace (clearAllFilters p) = trace p ++ List.map MarkRelevant (markedUids (document p))
  /\ nextUid (clearAllFilters p) = nextUid p
  /\ markedItems (document (clearAllFilters p)) = [].
Proof.
  intros Hu. unfold clearAllFilters.
  destruct (clear_loop (documentQuerySelectorAll [Class BLURRED] (document p)) p)
    as (Ht & Hn & Hd).
  split; [|split; [exact Hn|]].
  - rewrite Ht. unfold markedUids, markedItems. now rewrite map_map.
  - rewrite Hd. apply markedItems_nil.
    rewrite (fold_left_map (fun d u => withElem u markRelevantEl d)
               (fun el => uid (refAttrs el))).
    apply clear_loop_unmarks; [now apply uniqueUids_NoDup|].
    intros x Hx Hb.
    change (documentQuerySelectorAll [Class BLURRED] (document p))
      with (markedItems (document p)).
    rewrite <- (map_map refAttrs uid), markedItems_attrs.
    apply in_map, filter_In. auto.
Qed.

(** C3, as the code has it: when the engine is disabled or the goal text
    is empty, a scan calls [markRelevant] on every marked item, in
    document order, and does nothing else (no title is looked up and no
    relevance is checked); afterwards no item is marked. *)
Theorem scan_without_goal_or_disabled_clears :
  forall (p : Page) (currentGoal : string) (isEnabled : bool),
    isEnabled = false \/ currentGoal = EmptyString ->
    uniqueUids (document p) = true ->
    trace (scanVideos currentGoal isEnabled p)
    = trace p ++ List.map MarkRelevant (markedUids (document p))
    /\ markedItems (document (scanVideos currentGoal isEnabled p)) = [].
Proof.
  intros p currentGoal isEnabled Hcase Hu.
  assert (E : scanVideos currentGoal isEnabled p = clearAllFilters p).
  { unfold scanVideos. destruct Hcase as [-> | ->]; [reflexivity|].
    now rewrite orb_true_r. }
  rewrite E. destruct (clearAllFilters_spec p Hu) as (Ht & _ & Hm). auto.
Qed.

Lemma scan_without_goal_or_disabled_clears_witness :
  trace (scanVideos "rust" false samplePage) = [MarkRelevant 5]
  /\ markedItems (document (scanVideos "rust" false samplePage)) = [].
Proof.
  apply (scan_without_goal_or_disabled_clears samplePage "rust" false).
  - left. reflexivity.
  - reflexivity.
Defined.

(** The claim C3 as stated fails where the goal has text but no keyword:
    the scan looks up titles and checks relevance, and the marked item
    without a title stays marked. *)
Lemma scan_with_stop_word_goal_classifies :
  extractKeywords (Some "the") = []
  /\ trace (scanVideos "the" true samplePage)
     = [ QueryTitle 1; CheckRelevant "Cute cat compilation"; MarkRelevant 1;
         QueryTitle 5 ]
  /\ markedUids (document samplePage) = [5]
  /\ markedUids (document (scanVideos "the" true samplePage)) = [5].
Proof. repeat split. Qed.

End ClearFacts.

(** ** The engine *)

Module EngineFacts.

Import Dom Filter Observe Engine Scenario ClearFacts.
Local Open Scope list_scope.

(** *** Goal updates *)

(** C10: a GOAL_UPDATED notification whose goal is missing, null or empty
    sets the goal to the empty string and scans at once; the scan calls
    [markRelevant] on every marked item and nothing else, and leaves no
    item marked.  The handler is total: nothing is raised. *)
Theorem goal_update_without_goal_clears :
  forall (st : State) (goal : Field string),
    noGoal goal = true ->
    uniqueUids (document (page st)) = true ->
    currentGoal (onMessage (GOAL_UPDATED goal) st) = EmptyString
    /\ scanLog (onMessage (GOAL_UPDATED goal) st) = scanLog st ++ [clock st]
    /\ timers (onMessage (GOAL_UPDATED goal) st) = timers st
    /\ page (onMessage (GOAL_UPDATED goal) st) = clearAllFilters (page st)
    /\ trace (page (onMessage (GOAL_UPDATED goal) st))
       = trace (page st) ++ List.map MarkRelevant (markedUids (document (page st)))
    /\ markedItems (document (page (onMessage (GOAL_UPDATED goal) st))) = [].
Proof.
  intros st goal Hg Hu.
  assert (E : orEmpty goal = EmptyString).
  { destruct goal as [| | [|c s]]; try reflexivity. discriminate Hg. }
  cbn [onMessage runScan setGoal currentGoal scanLog timers page isEnabled clock].
  rewrite E.
  assert (Es : scanVideos "" (isEnabled st) (page st) = clearAllFilters (page st)).
  { unfold scanVideos. cbn [falsy]. now rewrite orb_true_r. }
  rewrite Es. destruct (clearAllFilters_spec (page st) Hu) as (Ht & _ & Hm).
  repeat split; assumption.
Qed.

Lemma goal_update_without_goal_clears_witness :
  currentGoal (onMessage (GOAL_UPDATED Null) (setGoal "rust" (boot "https://www.youtube.com/" samplePage)))
  = EmptyString
  /\ markedItems
       (document (page (onMessage (GOAL_UPDATED Null)
                          (setGoal "rust" (boot "https://www.youtube.com/" samplePage)))))
     = [].
Proof.
  destruct (goal_update_without_goal_clears
              (setGoal "rust" (boot "https://www.youtube.com/" samplePage)) Null)
    as (H1 & _ & _ & _ & _ & H2).
  - reflexivity.
  - reflexivity.
  - split; [exact H1 | exact H2].
Defined.

(** *** The answer to GET_STATE *)

(** The settings of the engine and the number of requests sent. *)
Lemma fire_settings (timer : nat * nat) (st : State) :
  currentGoal (fire timer st) = currentGoal st
  /\ isEnabled (fire timer st) = isEnabled st
  /\ requests (fire timer st) = requests st.
Proof. repeat split. Qed.

Lemma fireDue_settings (fuel t : nat) : forall st,
  currentGoal (fireDue fuel t st) = currentGoal st
  /\ isEnabled (fireDue fuel t st) = isEnabled st
  /\ requests (fireDue fuel t st) = requests st.
Proof.
  induction fuel as [|k IH]; intros st; cbn [fireDue]; [repeat split|].
  destruct (earliestDue t (timers st)) as [timer|]; [|repeat split].
  destruct (IH (fire timer st)) as (-> & -> & ->). apply fire_settings.
Qed.

Lemma advanceTo_settings (t : nat) (st : State) :
  currentGoal (advanceTo t st) = currentGoal st
  /\ isEnabled (advanceTo t st) = isEnabled st
  /\ requests (advanceTo t st) = requests st.
Proof. unfold advanceTo. apply (fireDue_settings _ t st). Qed.

Lemma debouncedScan_settings (st : State) :
  currentGoal (debouncedScan st) = currentGoal st
  /\ isEnabled (debouncedScan st) = isEnabled st
  /\ requests (debouncedScan st) = requests st.
Proof. unfold debouncedScan. destruct (scanTimer st); repeat split. Qed.

Lemma handle_settings (i : Input) (st : State) :
  carriesNoState i = true ->
  currentGoal (handle i st) = currentGoal st
  /\ isEnabled (handle i st) = isEnabled st
  /\ requests (handle i st) = requests st.
Proof.
  destruct i as [added | [g | e | ty] | [|] [r|] | href]; intros H;
    try discriminate H; try (repeat split; fail).
  - unfold handle, onMutations.
    destruct (existsb (fun n => 0 <? n) added); [|repeat split].
    apply debouncedScan_settings.
  - unfold handle, onPoll. destruct (String.eqb href (lastUrl st)); [repeat split|].
    apply (debouncedScan_settings (setLastUrl href st)).
Qed.

Lemma run_settings (inputs : list (nat * Input)) : forall st,
  forallb (fun ti => carriesNoState (snd ti)) inputs = true ->
  currentGoal (run inputs st) = currentGoal st
  /\ isEnabled (run inputs st) = isEnabled st
  /\ requests (run inputs st) = requests st.
Proof.
  induction inputs as [|[t i] inputs IH]; intros st H; [repeat split|].
  cbn [forallb snd] in H. apply andb_true_iff in H. destruct H as [Hi Hrest].
  unfold run in *. cbn [fold_left]. destruct (IH (deliver st (t, i)) Hrest) as (-> & -> & ->).
  unfold deliver. cbn [fst snd].
  destruct (handle_settings i (advanceTo t st) Hi) as (-> & -> & ->).
  apply advanceTo_settings.
Qed.

(** C9: an answer to GET_STATE that failed or is empty changes nothing;
    as long as no answer arrived and nothing was pushed, the goal is
    empty, the engine enabled and the one request is all that was sent;
    a notification pushed later sets the goal or the toggle. *)
Theorem store_failure_keeps_defaults :
  forall (href : string) (host : Page),
    (forall st response, onStateResponse true response st = st)
    /\ (forall st, onStateResponse false None st = st)
    /\ (forall inputs,
          forallb (fun ti => carriesNoState (snd ti)) inputs = true ->
          currentGoal (run inputs (boot href host)) = EmptyString
          /\ isEnabled (run inputs (boot href host)) = true
          /\ requests (run inputs (boot href host)) = 1)
    /\ (forall st g, currentGoal (onMessage (GOAL_UPDATED (Value g)) st) = g)
    /\ (forall st b, isEnabled (onMessage (TOGGLE_CHANGED (Value b)) st) = b).
Proof.
  intros href host. split; [reflexivity|]. split; [reflexivity|]. split; [|split].
  - intros inputs H. now destruct (run_settings inputs (boot href host) H) as (-> & -> & ->).
  - reflexivity.
  - intros st [|]; reflexivity.
Qed.

Lemma store_failure_keeps_defaults_witness :
  currentGoal
    (run [ (40, StateResponse true None); (500, Mutations [2]); (1000, Poll "https://www.youtube.com/watch") ]
         (boot "https://www.youtube.com/" samplePage)) = EmptyString
  /\ isEnabled
       (run [ (40, StateResponse true None); (500, Mutations [2]); (1000, Poll "https://www.youtube.com/watch") ]
            (boot "https://www.youtube.com/" samplePage)) = true
  /\ requests
       (run [ (40, StateResponse true None); (500, Mutations [2]); (1000, Poll "https://www.youtube.com/watch") ]
            (boot "https://www.youtube.com/" samplePage)) = 1.
Proof.
  apply (proj1 (proj2 (proj2 (store_failure_keeps_defaults
                                "https://www.youtube.com/" samplePage)))).
  reflexivity.
Defined.

(** *** The debounced scan *)

Lemma advanceTo_idle (t : nat) (st : State) :
  timers st = [] -> advanceTo t st = setClock t st.
Proof. unfold advanceTo. now intros ->. Qed.

Lemma advanceTo_early (t id due : nat) (st : State) :
  timers st = [(id, due)] -> t < due -> advanceTo t st = setClock t st.
Proof.
  unfold advanceTo. intros E H. rewrite E. cbn [List.length fireDue].
  rewrite E. cbn [earliestDue snd]. apply Nat.leb_gt in H. now rewrite H.
Qed.

Lemma advanceTo_due (t id due : nat) (st : State) :
  timers st = [(id, due)] -> due <= t ->
  scanLog (advanceTo t st) = scanLog st ++ [due]
  /\ timers (advanceTo t st) = []
  /\ page (advanceTo t st) = scanVideos (currentGoal st) (isEnabled st) (page st).
Proof.
  unfold advanceTo. intros E H. rewrite E. cbn [List.length fireDue].
  rewrite E. cbn [earliestDue snd]. apply Nat.leb_le in H. rewrite H.
  cbn [fire fireDue runScan setClock clearTimeout setTimers scanLog timers page
       clock currentGoal isEnabled fst snd].
  rewrite E. cbn [filter fst]. now rewrite Nat.eqb_refl.
Qed.

(** One structural change: the pending timeout, if any, is replaced by
    one due a window later; nothing is scanned. *)
Lemma change_restarts_timer (t : nat) (added : list nat) (st : State) :
  addsContent added = true ->
  (timers st = []
   \/ exists id due, timers st = [(id, due)] /\ scanTimer st = Some id /\ t < due) ->
  exists id',
    timers (deliver st (t, Mutations added)) = [(id', t + DEBOUNCE_MS)]
    /\ scanTimer (deliver st (t, Mutations added)) = Some id'
    /\ scanLog (deliver st (t, Mutations added)) = scanLog st.
Proof.
  intros Ha H. unfold deliver. cbn [fst snd]. unfold handle, onMutations.
  fold (addsContent added). rewrite Ha. unfold debouncedScan.
  destruct H as [E | (id & due & E & Es & Hlt)].
  - rewrite (advanceTo_idle t st E). exists (nextTimer st).
    cbn [scanTimer setClock]. destruct (scanTimer st) as [id|];
      cbn [setScanTimeout clearTimeout setTimers setClock timers scanTimer scanLog
           clock nextTimer];
      rewrite E; repeat split.
  - rewrite (advanceTo_early t id due st E Hlt). exists (nextTimer st).
    cbn [scanTimer setClock]. rewrite Es.
    cbn [setScanTimeout clearTimeout setTimers setClock timers scanTimer scanLog
         clock nextTimer].
    rewrite E. cbn [filter fst]. rewrite Nat.eqb_refl. repeat split.
Qed.

Lemma last_cons (l : list nat) : forall x d d',
  last (x :: l) d = last l x /\ last (x :: l) d = last (x :: l) d'.
Proof.
  induction l as [|y l IH]; intros x d d'; [split; reflexivity|].
  destruct (IH y d d') as [E1 E2]. destruct (IH y x d) as [E3 E4].
  cbn [last] in *. split; congruence.
Qed.

Lemma burst_restarts_timer (burst : list (nat * list nat)) : forall t0 st id,
  timers st = [(id, t0 + DEBOUNCE_MS)] ->
  scanTimer st = Some id ->
  forallb (fun e => addsContent (snd e)) burst = true ->
  within DEBOUNCE_MS (t0 :: List.map fst burst) = true ->
  exists id',
    timers (run (burstInputs burst) st) = [(id', last (List.map fst burst) t0 + DEBOUNCE_MS)]
    /\ scanTimer (run (burstInputs burst) st) = Some id'
    /\ scanLog (run (burstInputs burst) st) = scanLog st.
Proof.
  induction burst as [|[t added] burst IH]; intros t0 st id Et Es Ha Hw.
  - exists id. repeat split; assumption.
  - cbn [forallb snd] in Ha. apply andb_true_iff in Ha. destruct Ha as [Ha Hrest].
    cbn [List.map fst within] in Hw. rewrite !andb_true_iff in Hw.
    destruct Hw as [[Hle Hlt] Hw]. apply Nat.ltb_lt in Hlt.
    destruct (change_restarts_timer t added st Ha) as (id' & Et' & Es' & El').
    { right. now exists id, (t0 + DEBOUNCE_MS). }
    unfold run, burstInputs in *. cbn [List.map fold_left fst snd].
    destruct (IH t _ id' Et' Es' Hrest Hw) as (id'' & Et'' & Es'' & El'').
    exists id''. rewrite Et'', Es'', El'', El'. repeat split.
    f_equal. f_equal. f_equal. symmetry. apply (last_cons (List.map fst burst) t t0 t0).
Qed.

(** C8: a burst of structural changes, each less than the debounce
    window after the one before, starting where no timeout is pending or
    the one pending is the script's own and not yet due, scans nothing
    while it lasts and leaves one timeout pending; once the window has
    passed after the last change exactly one scan has run, at the end of
    that window. *)
Theorem burst_runs_one_scan :
  forall (st : State) (first : nat * list nat) (rest : list (nat * list nat)) (T : nat),
    (timers st = []
     \/ exists id due,
          timers st = [(id, due)] /\ scanTimer st = Some id /\ fst first < due) ->
    forallb (fun e => addsContent (snd e)) (first :: rest) = true ->
    within DEBOUNCE_MS (List.map fst (first :: rest)) = true ->
    last (List.map fst rest) (fst first) + DEBOUNCE_MS <= T ->
    scanLog (run (burstInputs (first :: rest)) st) = scanLog st
    /\ List.length (timers (run (burstInputs (first :: rest)) st)) = 1
    /\ scanLog (advanceTo T (run (burstInputs (first :: rest)) st))
       = scanLog st ++ [last (List.map fst rest) (fst first) + DEBOUNCE_MS]
    /\ timers (advanceTo T (run (burstInputs (first :: rest)) st)) = [].
Proof.
  intros st [t0 added] rest T Et Ha Hw HT. cbn [fst] in *.
  cbn [forallb snd] in Ha. apply andb_true_iff in Ha. destruct Ha as [Ha Hrest].
  destruct (change_restarts_timer t0 added st Ha Et) as (id & Et1 & Es1 & El1).
  cbn [List.map fst] in Hw.
  destruct (burst_restarts_timer rest t0 _ id Et1 Es1 Hrest Hw) as (id' & Et2 & Es2 & El2).
  assert (E : run (burstInputs ((t0, added) :: rest)) st
              = run (burstInputs rest) (deliver st (t0, Mutations added)))
    by reflexivity.
  rewrite E.
  destruct (advanceTo_due T id' _ _ Et2 HT) as (Hl & Htm & _).
  rewrite Hl, Htm, Et2, El2, El1. repeat split.
Qed.

Lemma burst_runs_one_scan_witness :
  scanLog (advanceTo 2000
             (run (burstInputs [(1000, [1]); (1100, [0; 3]); (1399, [2])])
                  (boot "https://www.youtube.com/" samplePage)))
  = [1699].
Proof.
  refine (proj1 (proj2 (proj2
           (burst_runs_one_scan (boot "https://www.youtube.com/" samplePage)
              (1000, [1]) [(1100, [0; 3]); (1399, [2])] 2000 _ _ _ _)))).
  - left. reflexivity.
  - reflexivity.
  - reflexivity.
  - cbn. repeat constructor.
Defined.

Example two_bursts_two_scans :
  scanLog (advanceTo 5000
             (run (burstInputs [(1000, [1]); (1200, [1]); (1600, [1]); (1700, [0])])
                  (boot "https://www.youtube.com/" samplePage)))
  = [1500; 1900].
Proof. reflexivity. Qed.

Example state_response_seeds :
  currentGoal
    (onStateResponse false (Some (mkResponse (Value "learn rust") Undefined))
       (boot "https://www.youtube.com/" samplePage)) = "learn rust"
  /\ isEnabled
       (onStateResponse false (Some (mkResponse Undefined (Value false)))
          (boot "https://www.youtube.com/" samplePage)) = false.
Proof. split; reflexivity. Qed.

End EngineFacts.

(** ** Scanning the document *)

Module ScanFacts.

Import Dom DomLoops Filter Observe DomFacts MarkFacts ClearFacts.
Local Open Scope list_scope.

(** *** References before and after a write *)

Lemma unchangedUnless_refl (u : nat) (r : Ref) : unchangedUnless u r r.
Proof. repeat split. Qed.

Lemma Forall2_same {A : Type} (R : A -> A -> Prop) (l : list A) :
  (forall x, R x x) -> Forall2 R l l.
Proof. intros H. induction l; constructor; auto. Qed.

Lemma subtree_uids (anc : list string) (n : Node) (r : Ref) :
  In r (subtree anc n) -> In (uid (refAttrs r)) (List.map uid (attrsIn n)).
Proof.
  intros H. rewrite <- (subtree_attrs anc n), map_map.
  now apply (in_map (fun x => uid (refAttrs x))).
Qed.

(** A write at [u] replaces, in the document order of references, the
    segment of the first element with identity [u] by that of its image;
    before it only the children of its ancestors change, after it
    nothing. *)
Lemma updateElem_refs (u : nat) (f : Node -> Node) (n : Node) : forall anc n',
  updateElem u f n = Some n' ->
  exists L1 L1' ance a cs L2,
    subtree anc n = L1 ++ subtree ance (Elem a cs) ++ L2
    /\ subtree anc n' = L1' ++ subtree ance (f (Elem a cs)) ++ L2
    /\ uid a = u
    /\ Forall (fun r => uid (refAttrs r) <> u) L1
    /\ Forall2 (unchangedUnless u) L1 L1'.
Proof.
  induction n as [d | a cs IH] using Node_ind'; intros anc n' H; [discriminate|].
  rewrite updateElem_Elem in H. destruct (uid a =? u) eqn:E.
  - injection H as <-. apply Nat.eqb_eq in E.
    exists [], [], anc, a, cs, []. rewrite !app_nil_r. cbn [app]. auto.
  - destruct (updateChildren u f cs) as [cs'|] eqn:Hc; [|discriminate].
    injection H as <-. apply Nat.eqb_neq in E.
    assert (exists L1 L1' ance b ds L2,
              flat_map (subtree (tagName a :: anc)) cs
              = L1 ++ subtree ance (Elem b ds) ++ L2
              /\ flat_map (subtree (tagName a :: anc)) cs'
                 = L1' ++ subtree ance (f (Elem b ds)) ++ L2
              /\ uid b = u
              /\ Forall (fun r => uid (refAttrs r) <> u) L1
              /\ Forall2 (unchangedUnless u) L1 L1')
      as (L1 & L1' & ance & b & ds & L2 & E1 & E2 & Hu & Hl1 & Hr).
    { generalize (tagName a :: anc). intros anc'. revert cs' Hc.
      induction IH as [|c cs Hc0 _ IHcs]; intros cs' Hc; [discriminate|].
      cbn [updateChildren] in Hc. destruct (updateElem u f c) as [c'|] eqn:Ec.
      - injection Hc as <-.
        destruct (Hc0 anc' c' eq_refl)
          as (L1 & L1' & ance & b & ds & L2 & E1 & E2 & Hu & Hl1 & Hr).
        exists L1, L1', ance, b, ds, (L2 ++ flat_map (subtree anc') cs).
        cbn [flat_map]. rewrite E1, E2, <- !app_assoc. auto.
      - destruct (updateChildren u f cs) as [cs''|]; [|discriminate].
        injection Hc as <-.
        destruct (IHcs cs'' eq_refl)
          as (L1 & L1' & ance & b & ds & L2 & E1 & E2 & Hu & Hl1 & Hr).
        exists (subtree anc' c ++ L1), (subtree anc' c ++ L1'), ance, b, ds, L2.
        cbn [flat_map]. rewrite E1, E2, <- !app_assoc.
        split; [reflexivity|]. split; [reflexivity|]. split; [exact Hu|]. split.
        + apply Forall_app. split; [|exact Hl1].
          apply Forall_forall. intros r Hin Hur.
          apply (updateElem_none _ _ _ Ec). rewrite <- Hur.
          now apply (subtree_uids anc').
        + apply Forall2_app; [|exact Hr].
          apply Forall2_same, unchangedUnless_refl. }
    exists ((anc, a, cs) :: L1), ((anc, a, cs') :: L1'), ance, b, ds, L2.
    cbn [subtree]. rewrite E1, E2.
    split; [reflexivity|]. split; [reflexivity|]. split; [exact Hu|]. split.
    + constructor; [exact E | exact Hl1].
    + constructor; [|exact Hr].
      split; [reflexivity|]. split; [reflexivity|]. intros Hnot. exfalso. apply Hnot.
      change (refNode (anc, a, cs)) with (Elem a cs). rewrite attrsIn_Elem. right.
      rewrite <- (flat_map_subtree_attrs (tagName a :: anc)), E1, map_map.
      rewrite !map_app, !in_app_iff. right. left. cbn [subtree List.map]. left.
      exact Hu.
Qed.

(** *** Looking up an element after a write *)

Lemma find_app_or {A : Type} (p : A -> bool) (l1 l2 : list A) :
  find p (l1 ++ l2) = match find p l1 with
                      | Some x => Some x
                      | None => find p l2
                      end.
Proof.
  induction l1 as [|x l1 IH]; [reflexivity|]. cbn [app find].
  destruct (p x); [reflexivity | exact IH].
Qed.

Lemma find_absent (v : nat) (l : list Ref) :
  (forall r, In r l -> uid (refAttrs r) <> v) ->
  find (fun r => uid (refAttrs r) =? v) l = None.
Proof.
  intros H. induction l as [|x l IH]; [reflexivity|]. cbn [find].
  destruct (uid (refAttrs x) =? v) eqn:E.
  - apply Nat.eqb_eq in E. destruct (H x (or_introl eq_refl) E).
  - apply IH. intros r Hr. apply H. now right.
Qed.

Lemma find_subtree_absent (v : nat) (anc : list string) (n : Node) :
  ~ In v (List.map uid (attrsIn n)) ->
  find (fun r => uid (refAttrs r) =? v) (subtree anc n) = None.
Proof.
  intros H. apply find_absent. intros r Hr E. apply H. rewrite <- E.
  now apply (subtree_uids anc).
Qed.

Lemma find_unchanged (u v : nat) (L L' : list Ref) :
  Forall2 (unchangedUnless u) L L' ->
  match find (fun r => uid (refAttrs r) =? v) L with
  | Some r => exists r', find (fun r => uid (refAttrs r) =? v) L' = Some r'
                         /\ unchangedUnless u r r'
  | None => find (fun r => uid (refAttrs r) =? v) L' = None
  end.
Proof.
  intros H. induction H as [|r r' L L' Hr _ IH]; [reflexivity|].
  cbn [find]. destruct Hr as (Ha & Hb & Hc). rewrite Hb.
  destruct (uid (refAttrs r) =? v).
  - exists r'. repeat split; assumption.
  - exact IH.
Qed.

Lemma find_unique (l : list Ref) (r : Ref) :
  NoDup (List.map (fun x => uid (refAttrs x)) l) -> In r l ->
  find (fun x => uid (refAttrs x) =? uid (refAttrs r)) l = Some r.
Proof.
  induction l as [|x l IH]; intros Hn Hin; [destruct Hin|].
  cbn [List.map] in Hn. inversion Hn as [|? ? Hx Hl]; subst. cbn [find].
  destruct Hin as [-> | Hin].
  - now rewrite Nat.eqb_refl.
  - destruct (uid (refAttrs x) =? uid (refAttrs r)) eqn:E; [|now apply IH].
    apply Nat.eqb_eq in E. exfalso. apply Hx. rewrite E.
    now apply (in_map (fun x => uid (refAttrs x))).
Qed.

(** The first element with identity [u], as the write finds it. *)
Lemma findElem_target (u : nat) (f : Node -> Node) (n : Node) (anc : list string) (ru : Ref) :
  findElem u anc n = Some ru ->
  exists n' L1 L1' L2,
    updateElem u f n = Some n'
    /\ subtree anc n = L1 ++ subtree (refAncestors ru) (refNode ru) ++ L2
    /\ subtree anc n' = L1' ++ subtree (refAncestors ru) (f (refNode ru)) ++ L2
    /\ uid (refAttrs ru) = u
    /\ Forall (fun r => uid (refAttrs r) <> u) L1
    /\ Forall2 (unchangedUnless u) L1 L1'.
Proof.
  intros H. unfold findElem in H.
  destruct (find_some _ _ H) as [Hin Hu]. apply Nat.eqb_eq in Hu.
  destruct (updateElem_some u f n) as [n' Hn'].
  { rewrite <- Hu. now apply (subtree_uids anc). }
  destruct (updateElem_refs u f n anc n' Hn')
    as (L1 & L1' & ance & a & cs & L2 & E1 & E2 & Hua & Hl1 & Hr).
  assert (Eru : ru = (ance, a, cs)).
  { rewrite E1, find_app_or in H. rewrite find_absent in H.
    - cbn [subtree app find refAttrs fst snd] in H. rewrite Hua, Nat.eqb_refl in H.
      now injection H as <-.
    - intros r Hr0. rewrite Forall_forall in Hl1. now apply Hl1. }
  subst ru. exists n', L1, L1', L2. auto 10.
Qed.

(** A write at [u] does not move or change an element that is neither
    above nor below the one written, old or new. *)
Lemma findElem_other (u v : nat) (f : Node -> Node) (n : Node) (anc : list string) (ru rv : Ref) :
  findElem u anc n = Some ru ->
  findElem v anc n = Some rv ->
  ~ In u (List.map uid (attrsIn (refNode rv))) ->
  ~ In v (List.map uid (attrsIn (refNode ru))) ->
  ~ In v (List.map uid (attrsIn (f (refNode ru)))) ->
  findElem v anc (withElem u f n) = Some rv.
Proof.
  intros Hu Hv Huv Hvu Hvf.
  destruct (findElem_target u f n anc ru Hu)
    as (n' & L1 & L1' & L2 & Hn' & E1 & E2 & Hua & Hl1 & Hr).
  unfold withElem. rewrite Hn'. unfold findElem in *.
  rewrite E1 in Hv. rewrite E2. rewrite !find_app_or in *.
  pose proof (find_unchanged u v L1 L1' Hr) as Hf.
  rewrite (find_subtree_absent v _ _ Hvu) in Hv.
  rewrite (find_subtree_absent v _ _ Hvf).
  destruct (find (fun r => uid (refAttrs r) =? v) L1) as [r|].
  - injection Hv as ->. destruct Hf as (r' & -> & _ & _ & Hsame).
    now rewrite (Hsame Huv).
  - now rewrite Hf.
Qed.

(** After a write the reference finds the image of its element. *)
Lemma findElem_self (u : nat) (f : Node -> Node) (n : Node) (anc : list string)
      (ru : Ref) (a' : Attrs) (cs' : list Node) :
  findElem u anc n = Some ru ->
  f (refNode ru) = Elem a' cs' ->
  uid a' = u ->
  findElem u anc (withElem u f n) = Some (refAncestors ru, a', cs').
Proof.
  intros Hu Hf Ha.
  destruct (findElem_target u f n anc ru Hu)
    as (n' & L1 & L1' & L2 & Hn' & E1 & E2 & Hua & Hl1 & Hr).
  unfold withElem. rewrite Hn'. unfold findElem. rewrite E2, Hf, find_app_or.
  pose proof (find_unchanged u u L1 L1' Hr) as H1.
  rewrite find_absent in H1 by (rewrite Forall_forall in Hl1; exact Hl1).
  rewrite H1. cbn [subtree app find refAttrs fst snd].
  now rewrite Ha, Nat.eqb_refl.
Qed.

(** *** The identities below a video, before and after a round *)

Local Abbreviation ids n := (List.map uid (attrsIn n)).

Lemma markRelevantEl_ids (n : Node) (x : nat) :
  In x (ids (markRelevantEl n)) -> In x (ids n).
Proof.
  destruct n as [d | a cs]; [auto|].
  destruct (markRelevantEl_attrs a cs) as (a' & below & -> & Hu & _ & Hs).
  rewrite attrsIn_Elem. cbn [List.map In]. rewrite Hu.
  intros [H | H]; [now left | right].
  apply (Subseq_In _ _ _ (Subseq_map uid _ _ Hs)), H.
Qed.

Lemma markIrrelevantEl_ids (k : nat) (n : Node) (x : nat) :
  In x (ids (markIrrelevantEl k n)) -> In x (ids n) \/ x = k \/ x = k + 1.
Proof.
  destruct n as [d | a cs]; [auto|].
  destruct (hasClass BLURRED a) eqn:Hb.
  - rewrite markIrrelevantEl_marked by exact Hb. auto.
  - destruct (markIrrelevantEl_as_update k a cs Hb) as [u Hu].
    destruct (updateElem_attrs _ _ _ _ Hu) as (l1 & b & ds & l2 & _ & _ & E1 & E2).
    rewrite E2, attrsIn_attach. rewrite !attrsIn_Elem in *.
    assert (Hsame : List.map uid (a :: flat_map attrsIn cs)
                    = List.map uid (l1 ++ (b :: flat_map attrsIn ds) ++ l2)).
    { rewrite <- E1. reflexivity. }
    rewrite Hsame. rewrite !map_app. cbn [List.map]. rewrite !map_app.
    cbn [uid createOverlay createDiv attrsIn subtree flat_map List.map app refAttrs fst snd].
    rewrite !in_app_iff. cbn [In]. rewrite !in_app_iff. cbn [In].
    intuition auto.
Qed.

Lemma markRelevantEl_root (a : Attrs) (cs : list Node) :
  exists a' cs', markRelevantEl (Elem a cs) = Elem a' cs' /\ uid a' = uid a.
Proof. rewrite markRelevantEl_Elem. eexists; eexists. split; reflexivity. Qed.

Lemma markIrrelevantEl_root (k : nat) (a : Attrs) (cs : list Node) :
  exists a' cs', markIrrelevantEl k (Elem a cs) = Elem a' cs' /\ uid a' = uid a.
Proof.
  destruct (hasClass BLURRED a) eqn:Hb.
  - rewrite markIrrelevantEl_marked by exact Hb. now exists a, cs.
  - destruct (markIrrelevantEl_as_update k a cs Hb) as [u Hu].
    destruct (updateElem_root _ _ _ _ _ Hu) as [-> | [cs' ->]].
    + eexists; eexists. split; reflexivity.
    + eexists; eexists. split; reflexivity.
Qed.

Lemma roundResult_ids (goal : string) (k : nat) (r : Ref) (x : nat) :
  In x (ids (roundResult goal k r)) -> In x (ids (refNode r)) \/ x = k \/ x = k + 1.
Proof.
  unfold roundResult.
  destruct (extractTitle (refAncestors r) (refNode r)) as [t|]; [|auto].
  destruct (isRelevant goal t).
  - intros H. left. now apply markRelevantEl_ids.
  - apply markIrrelevantEl_ids.
Qed.

(** *** The videos of a well-formed, flat document *)

Lemma subtree_below (n : Node) : forall anc r,
  In r (subtree anc n) -> incl (attrsIn (refNode r)) (attrsIn n).
Proof.
  induction n as [d | a cs IH] using Node_ind'; intros anc r H; [destruct H|].
  cbn [subtree In] in H. destruct H as [<- | H]; [apply incl_refl|].
  rewrite attrsIn_Elem. apply incl_tl.
  generalize dependent (tagName a :: anc). intros anc' H.
  induction IH as [|c cs Hc _ IHcs]; [destruct H|].
  cbn [flat_map] in *. apply in_app_iff in H. destruct H as [H | H].
  - apply incl_appl. now apply (Hc anc').
  - apply incl_appr. now apply IHcs.
Qed.

Lemma uid_injective (l : list Attrs) (x y : Attrs) :
  NoDup (List.map uid l) -> In x l -> In y l -> uid x = uid y -> x = y.
Proof.
  induction l as [|z l IH]; intros Hn Hx Hy E; [destruct Hx|].
  cbn [List.map] in Hn. inversion Hn as [|? ? Hz Hl]; subst.
  destruct Hx as [-> | Hx], Hy as [-> | Hy]; auto.
  - exfalso. apply Hz. rewrite E. now apply in_map.
  - exfalso. apply Hz. rewrite <- E. now apply in_map.
Qed.

Lemma isVideo_matches (r : Ref) : matchesAny VIDEO_SELECTORS r = isVideo (refAttrs r).
Proof. reflexivity. Qed.

Lemma video_in_document (d : Node) (r : Ref) :
  In r (documentQuerySelectorAll VIDEO_SELECTORS d) ->
  In r (subtree [] d) /\ isVideo (refAttrs r) = true.
Proof. unfold documentQuerySelectorAll. rewrite filter_In, isVideo_matches. auto. Qed.

Lemma video_found (d : Node) (r : Ref) :
  uniqueUids d = true ->
  In r (documentQuerySelectorAll VIDEO_SELECTORS d) ->
  findElem (uid (refAttrs r)) [] d = Some r.
Proof.
  intros Hu Hr. apply video_in_document in Hr. destruct Hr as [Hin _].
  apply find_unique; [|exact Hin]. now apply distinct_NoDup.
Qed.

Lemma videos_distinct (d : Node) :
  uniqueUids d = true ->
  NoDup (List.map (fun r => uid (refAttrs r)) (documentQuerySelectorAll VIDEO_SELECTORS d)).
Proof.
  intros Hu. apply distinct_NoDup in Hu. unfold uids in Hu.
  unfold documentQuerySelectorAll.
  induction (subtree [] d) as [|x l IH]; [constructor|].
  cbn [List.map] in Hu. inversion Hu as [|? ? Hx Hl]; subst. cbn [filter].
  destruct (matchesAny VIDEO_SELECTORS x); [|auto].
  cbn [List.map]. constructor; [|auto].
  intros Hin. apply Hx. apply in_map_iff in Hin. destruct Hin as (y & E & Hy).
  apply filter_In in Hy. apply in_map_iff. exists y. tauto.
Qed.

(** In a flat document with distinct identities no video is below
    another. *)
Lemma videos_apart (d : Node) (r r' : Ref) :
  uniqueUids d = true -> flatVideos d = true ->
  In r (documentQuerySelectorAll VIDEO_SELECTORS d) ->
  In r' (documentQuerySelectorAll VIDEO_SELECTORS d) ->
  uid (refAttrs r) <> uid (refAttrs r') ->
  ~ In (uid (refAttrs r)) (ids (refNode r')).
Proof.
  intros Hu Hf Hr Hr' Hne Hin.
  apply video_in_document in Hr. destruct Hr as [Hr Hv].
  apply video_in_document in Hr'. destruct Hr' as [Hr' Hv'].
  unfold flatVideos in Hf. rewrite forallb_forall in Hf.
  specialize (Hf r' Hr'). rewrite Hv' in Hf. cbn [negb orb] in Hf.
  rewrite forallb_forall in Hf.
  pose proof (subtree_below d [] r' Hr') as Hsub.
  destruct r' as [[anc' a'] cs']. change (refNode (anc', a', cs')) with (Elem a' cs') in *.
  cbn [refAttrs fst snd] in *.
  rewrite attrsIn_Elem in Hin. cbn [List.map In] in Hin.
  destruct Hin as [E | Hin]; [now apply Hne|].
  apply in_map_iff in Hin. destruct Hin as (x & Ex & Hx).
  assert (Hxd : In x (attrsIn d)).
  { apply Hsub. rewrite attrsIn_Elem. now right. }
  assert (Hrd : In (refAttrs r) (attrsIn d)).
  { unfold attrsIn. now apply in_map. }
  assert (Exr : x = refAttrs r).
  { apply (uid_injective (attrsIn d)); auto.
    rewrite <- uids_attrs. now apply distinct_NoDup. }
  subst x. rewrite attrsBelow_Elem in Hf. specialize (Hf _ Hx).
  now rewrite Hv in Hf.
Qed.

(** *** One round, and the loop *)

Lemma scanVideo_round (goal : string) (p : Page) (r : Ref) :
  findElem (uid (refAttrs r)) [] (document p) = Some r ->
  trace (scanVideo goal p r) = trace p ++ roundEvents goal r
  /\ nextUid p <= nextUid (scanVideo goal p r)
  /\ document (scanVideo goal p r)
     = match extractTitle (refAncestors r) (refNode r) with
       | None => document p
       | Some t =>
           if isRelevant goal t
           then withElem (uid (refAttrs r)) markRelevantEl (document p)
           else withElem (uid (refAttrs r)) (markIrrelevantEl (nextUid p)) (document p)
       end.
Proof.
  intros H. unfold scanVideo, roundEvents. rewrite H.
  destruct (extractTitle (refAncestors r) (refNode r)) as [t|].
  - destruct (isRelevant goal t);
      cbn [markRelevant markIrrelevant emit trace nextUid document];
      rewrite <- !app_assoc; repeat split; lia.
  - cbn [emit trace nextUid document]. repeat split. lia.
Qed.

(** In any document, the round of a video whose title cannot be
    extracted only looks the title up: document and identity supply are
    as before. *)
Lemma scanVideo_skip (goal : string) (p : Page) (video now : Ref) :
  findElem (uid (refAttrs video)) [] (document p) = Some now ->
  extractTitle (refAncestors now) (refNode now) = None ->
  scanVideo goal p video = emit (QueryTitle (uid (refAttrs video))) p.
Proof. intros Hf Ht. unfold scanVideo. now rewrite Hf, Ht. Qed.

Lemma write_frame (f : Node -> Node) (k : nat) (doc : Node) (r rv : Ref) (v : nat) :
  findElem (uid (refAttrs r)) [] doc = Some r ->
  findElem v [] doc = Some rv ->
  (forall x, In x (ids (f (refNode r))) -> In x (ids (refNode r)) \/ x = k \/ x = k + 1) ->
  v < k ->
  ~ In (uid (refAttrs r)) (ids (refNode rv)) ->
  ~ In v (ids (refNode r)) ->
  findElem v [] (withElem (uid (refAttrs r)) f doc) = Some rv.
Proof.
  intros Hr Hv Hf Hk H1 H2. apply (findElem_other _ _ _ _ _ r rv); auto.
  intros Hin. destruct (Hf _ Hin) as [H | [H | H]]; [auto | lia | lia].
Qed.

Section Loop.

Variables (goal : string) (N0 : nat) (V : list Ref).

Hypothesis Vdistinct : NoDup (List.map (fun r => uid (refAttrs r)) V).
Hypothesis Vbound : forall r, In r V -> uid (refAttrs r) < N0.
Hypothesis Vapart :
  forall r r', In r V -> In r' V ->
    uid (refAttrs r) <> uid (refAttrs r') ->
    ~ In (uid (refAttrs r)) (ids (refNode r')).

(** The round of [r] leaves every other video of [V] as it finds it. *)
Lemma round_frame (p : Page) (r : Ref) (v : nat) (rv : Ref) :
  In r V ->
  N0 <= nextUid p ->
  findElem (uid (refAttrs r)) [] (document p) = Some r ->
  findElem v [] (document p) = Some rv ->
  v < N0 ->
  ~ In (uid (refAttrs r)) (ids (refNode rv)) ->
  ~ In v (ids (refNode r)) ->
  findElem v [] (document (scanVideo goal p r)) = Some rv.
Proof.
  intros Hr HN Hfr Hfv Hv H1 H2.
  destruct (scanVideo_round goal p r Hfr) as (_ & _ & ->).
  destruct (extractTitle (refAncestors r) (refNode r)) as [t|]; [|exact Hfv].
  destruct (isRelevant goal t).
  - apply (write_frame _ (nextUid p)); auto; [|lia].
    intros x Hx. left. now apply markRelevantEl_ids.
  - apply (write_frame _ (nextUid p)); auto; [|lia].
    intros x Hx. now apply markIrrelevantEl_ids.
Qed.

(** The round of [r] leaves [r] as [roundResult] says. *)
Lemma round_done (p : Page) (r : Ref) :
  N0 <= nextUid p ->
  findElem (uid (refAttrs r)) [] (document p) = Some r ->
  roundDone goal N0 (document (scanVideo goal p r)) r.
Proof.
  intros HN Hfr. exists (nextUid p).
  destruct (scanVideo_round goal p r Hfr) as (_ & _ & ->).
  unfold roundResult.
  destruct (extractTitle (refAncestors r) (refNode r)) as [t|];
    [|exists r; auto].
  destruct r as [[anc a] cs]. change (refNode (anc, a, cs)) with (Elem a cs) in *.
  cbn [refAttrs refAncestors fst snd] in *.
  destruct (isRelevant goal t).
  - destruct (markRelevantEl_root a cs) as (a' & cs' & E & Hu).
    exists (anc, a', cs'). split; [exact HN|]. split; [|split; [reflexivity | now rewrite E]].
    exact (findElem_self (uid a) _ _ [] (anc, a, cs) a' cs' Hfr E Hu).
  - destruct (markIrrelevantEl_root (nextUid p) a cs) as (a' & cs' & E & Hu).
    exists (anc, a', cs'). split; [exact HN|]. split; [|split; [reflexivity | now rewrite E]].
    exact (findElem_self (uid a) _ _ [] (anc, a, cs) a' cs' Hfr E Hu).
Qed.

Lemma scan_loop (pending : list Ref) : forall (done : list Ref) (p : Page),
  V = done ++ pending ->
  N0 <= nextUid p ->
  (forall r, In r pending -> findElem (uid (refAttrs r)) [] (document p) = Some r) ->
  (forall r, In r done -> roundDone goal N0 (document p) r) ->
  trace (fold_left (scanVideo goal) pending p)
  = trace p ++ flat_map (roundEvents goal) pending
  /\ forall r, In r V ->
       roundDone goal N0 (document (fold_left (scanVideo goal) pending p)) r.
Proof.
  induction pending as [|r pending IH]; intros done p EV HN Hpend Hdone.
  - cbn [fold_left flat_map]. rewrite app_nil_r in *. subst V. split; auto.
  - assert (HrV : In r V) by (rewrite EV; apply in_elt).
    assert (Hother : forall x, In x (done ++ pending) ->
                               uid (refAttrs x) <> uid (refAttrs r)).
    { intros x Hx E. rewrite EV, map_app in Vdistinct. cbn [List.map] in Vdistinct.
      apply NoDup_remove_2 in Vdistinct. apply Vdistinct.
      rewrite <- map_app, <- E. now apply (in_map (fun r => uid (refAttrs r))). }
    assert (HinV : forall x, In x (done ++ pending) -> In x V).
    { intros x Hx. rewrite EV. apply in_app_iff in Hx. apply in_app_iff.
      destruct Hx; [now left | right; now right]. }
    pose proof (Hpend r (or_introl eq_refl)) as Hfr.
    destruct (scanVideo_round goal p r Hfr) as (Ht & Hn & _).
    cbn [fold_left flat_map].
    destruct (IH (done ++ [r]) (scanVideo goal p r)) as [IHt IHd].
    + now rewrite <- app_assoc.
    + lia.
    + intros x Hx.
      assert (Hx' : In x (done ++ pending)) by (apply in_app_iff; now right).
      apply round_frame; auto.
      * apply Hpend. now right.
      * apply Vapart; auto. intros E. now apply (Hother x).
    + intros x Hx. apply in_app_iff in Hx. destruct Hx as [Hx | [<- | []]].
      * assert (Hx' : In x (done ++ pending)) by (apply in_app_iff; now left).
        destruct (Hdone x Hx) as (k & r' & Hk & Hf & Ha & Hnode).
        exists k, r'. split; [exact Hk|]. split; [|auto].
        apply round_frame; auto.
        rewrite Hnode. intros Hin.
        destruct (roundResult_ids _ _ _ _ Hin) as [H | [H | H]].
        -- revert H. apply Vapart; auto. intros E. now apply (Hother x).
        -- specialize (Vbound r HrV). lia.
        -- specialize (Vbound r HrV). lia.
      * now apply round_done.
    + split; [|exact IHd]. rewrite IHt, Ht. now rewrite <- app_assoc.
Qed.

End Loop.

Lemma ref_eq (r r' : Ref) :
  refAncestors r' = refAncestors r -> refNode r' = refNode r -> r' = r.
Proof.
  destruct r as [[anc a] cs], r' as [[anc' a'] cs']. unfold refNode.
  cbn [refAncestors fst snd]. intros -> H. now injection H as -> ->.
Qed.

Lemma roundEvents_marks (goal : string) (r : Ref) (u : nat) :
  In (MarkRelevant u) (roundEvents goal r) \/ In (MarkIrrelevant u) (roundEvents goal r) ->
  uid (refAttrs r) = u
  /\ extractTitle (refAncestors r) (refNode r) <> None.
Proof.
  unfold roundEvents.
  destruct (extractTitle (refAncestors r) (refNode r)) as [t|].
  - intros H. split; [|discriminate].
    destruct (isRelevant goal t); cbn [In] in H;
      repeat match goal with
             | H : _ \/ _ |- _ => destruct H
             | H : False |- _ => destruct H
             end;
      try discriminate;
      match goal with H : _ = _ |- _ => now injection H end.
  - cbn [In]. intros [[H | []] | [H | []]]; discriminate H.
Qed.

(** C7, as the code has it: in a scan with a goal and the engine
    enabled, over a document in which no video lies inside another, a
    video whose title cannot be extracted is left exactly as it was:
    the element is found unchanged afterwards, its round only looked up
    the title, and neither [markRelevant] nor [markIrrelevant] was
    called on it; every video of the document, before and after it,
    had its round, as the calls made and the document show. *)
Theorem scan_skips_untitled :
  forall (p : Page) (currentGoal : string) (video : Ref),
    currentGoal <> EmptyString ->
    wellFormed p = true ->
    flatVideos (document p) = true ->
    In video (documentQuerySelectorAll VIDEO_SELECTORS (document p)) ->
    extractTitle (refAncestors video) (refNode video) = None ->
    findElem (uid (refAttrs video)) [] (document (scanVideos currentGoal true p))
    = Some video
    /\ (exists events,
          trace (scanVideos currentGoal true p) = trace p ++ events
          /\ events
             = flat_map (roundEvents currentGoal)
                 (documentQuerySelectorAll VIDEO_SELECTORS (document p))
          /\ ~ In (MarkRelevant (uid (refAttrs video))) events
          /\ ~ In (MarkIrrelevant (uid (refAttrs video))) events)
    /\ (forall other,
          In other (documentQuerySelectorAll VIDEO_SELECTORS (document p)) ->
          roundDone currentGoal (nextUid p)
            (document (scanVideos currentGoal true p)) other).
Proof.
  intros p goal video Hgoal Hwf Hflat Hvideo Htitle.
  unfold wellFormed in Hwf. apply andb_true_iff in Hwf. destruct Hwf as [Hu Hb].
  rewrite forallb_forall in Hb.
  set (V := documentQuerySelectorAll VIDEO_SELECTORS (document p)) in *.
  assert (Escan : scanVideos goal true p = fold_left (scanVideo goal) V p).
  { unfold scanVideos. destruct goal; [now destruct Hgoal | reflexivity]. }
  rewrite Escan.
  destruct (scan_loop goal (nextUid p) V) with (pending := V) (done := @nil Ref) (p := p)
    as [Ht Hd].
  - now apply videos_distinct.
  - intros r Hr. apply Nat.ltb_lt, Hb.
    apply video_in_document in Hr. destruct Hr as [Hr _].
    unfold uids. now apply (in_map (fun r => uid (refAttrs r))).
  - intros r r' Hr Hr'. now apply (videos_apart (document p)).
  - reflexivity.
  - lia.
  - intros r Hr. now apply video_found.
  - intros r [].
  - split; [|split].
    + destruct (Hd video Hvideo) as (k & r' & _ & Hf & Ha & Hn).
      unfold roundResult in Hn. rewrite Htitle in Hn.
      now rewrite Hf, (ref_eq video r' Ha Hn).
    + exists (flat_map (roundEvents goal) V). split; [exact Ht|]. split; [reflexivity|].
      assert (Hno : forall r, In r V ->
                      ~ (In (MarkRelevant (uid (refAttrs video))) (roundEvents goal r)
                         \/ In (MarkIrrelevant (uid (refAttrs video))) (roundEvents goal r))).
      { intros r Hr Hin. apply roundEvents_marks in Hin. destruct Hin as [E Hsome].
        assert (Er : r = video).
        { pose proof (video_found _ _ Hu Hr) as F1.
          pose proof (video_found _ _ Hu Hvideo) as F2.
          rewrite E, F2 in F1. now injection F1. }
        subst r. now apply Hsome. }
      split; intros Hin; apply in_flat_map in Hin; destruct Hin as (r & Hr & Hin);
        apply (Hno r Hr); auto.
    + exact Hd.
Qed.

Lemma scan_skips_untitled_witness :
  findElem 5 [] (document (scanVideos "rust" true samplePage)) = Some sampleUntitled.
Proof.
  refine (proj1 (scan_skips_untitled samplePage "rust" sampleUntitled _ _ _ _ _)).
  - discriminate.
  - reflexivity.
  - reflexivity.
  - right. left. reflexivity.
  - reflexivity.
Defined.

(** The claim C7 as stated fails where videos are nested: the inner
    video of the nested page is enumerated and has no title, and the
    round of the outer video, whose first thumbnail lies in the inner
    one, gives it the inline position and the overlay. *)
Lemma scan_marks_nested_untitled :
  wellFormed Layout.nestedPage = true
  /\ In Layout.nestedInner
        (documentQuerySelectorAll VIDEO_SELECTORS (document Layout.nestedPage))
  /\ extractTitle (refAncestors Layout.nestedInner) (refNode Layout.nestedInner) = None
  /\ overlaysOf (refNode Layout.nestedInner) = []
  /\ exists now,
       findElem 2 [] (document (scanVideos "rust" true Layout.nestedPage)) = Some now
       /\ now <> Layout.nestedInner
       /\ stylePosition (refAttrs now) = "relative"
       /\ List.length (overlaysOf (refNode now)) = 1.
Proof.
  split; [reflexivity|]. split; [right; left; reflexivity|].
  split; [reflexivity|]. split; [reflexivity|].
  eexists. split; [reflexivity|]. split; [discriminate|]. split; reflexivity.
Qed.

Example title_from_attribute :
  extractTitle []
    (Elem (mkAttrs 1 "ytd-compact-video-renderer" "" [] "" None)
       [ Elem (mkAttrs 2 "h3" "" [] "" None)
           [ Elem (mkAttrs 3 "a" "" [] "" (Some " Rust tips ")) [] ] ])
  = Some "Rust tips".
Proof. reflexivity. Qed.

Example scan_sample_feed :
  trace (scanVideos "rust" true samplePage)
  = [ QueryTitle 1; CheckRelevant "Cute cat compilation"; MarkIrrelevant 1;
      QueryTitle 5 ]
  /\ markedUids (document (scanVideos "rust" true samplePage)) = [1; 5].
Proof. split; reflexivity. Qed.

End ScanFacts.

(** ** More on keywords and relevance *)

Module KeywordMore.

Import JsString KeywordSpec StringFacts KeywordFacts.

(** The pipeline of [extractKeywords], which on the empty text gives no
    keyword either. *)
Lemma extractKeywords_pipeline (t : string) :
  extractKeywords (Some t)
  = filter keepWord (splitWhitespace (JsString.map replaceSpecial (toLowerCase t))).
Proof. destruct t; reflexivity. Qed.

Lemma map_append (f : ascii -> ascii) (s t : string) :
  JsString.map f (s ++ t) = (JsString.map f s ++ JsString.map f t)%string.
Proof. induction s as [|a s IH]; simpl; [reflexivity | now rewrite IH]. Qed.

Lemma map_length (f : ascii -> ascii) (s : string) :
  String.length (JsString.map f s) = String.length s.
Proof. induction s as [|a s IH]; simpl; [reflexivity | now rewrite IH]. Qed.

Lemma append_length (s t : string) :
  String.length (s ++ t) = String.length s + String.length t.
Proof. induction s as [|a s IH]; simpl; [reflexivity | now rewrite IH]. Qed.

(** White space stays as it is in the normalised text; a code unit that
    is no letter or digit becomes white space. *)
Lemma normalise_space (c : ascii) :
  isSpace c = true -> replaceSpecial (toLower c) = c.
Proof.
  destruct c as [[] [] [] [] [] [] [] []]; vm_compute; intros H;
    first [reflexivity | discriminate H].
Qed.

Lemma normalise_separator (c : ascii) :
  isAlnumLower (toLower c) = false -> isSpace (replaceSpecial (toLower c)) = true.
Proof.
  intros H. unfold replaceSpecial. rewrite H. cbn [orb].
  destruct (isSpace (toLower c)) eqn:E; [exact E | reflexivity].
Qed.

(** *** Splitting *)

Lemma split_run_irrelevant (s : string) :
  filter keepWord (splitFrom true EmptyString s)
  = filter keepWord (splitFrom false EmptyString s).
Proof.
  destruct s as [|c s]; [reflexivity|]. cbn [splitFrom].
  destruct (isSpace c); reflexivity.
Qed.

(** The results of a split at a separator: those before it, then those
    after it. *)
Lemma split_at_separator (s1 : string) : forall inRun cur c s2,
  isSpace c = true ->
  (inRun = true -> cur = EmptyString) ->
  filter keepWord (splitFrom inRun cur (s1 ++ String c s2))
  = (filter keepWord (splitFrom inRun cur s1)
     ++ filter keepWord (splitFrom false EmptyString s2))%list.
Proof.
  induction s1 as [|d s1 IH]; intros inRun cur c s2 Hc Hrun.
  - cbn [append splitFrom]. rewrite Hc. destruct inRun.
    + rewrite (Hrun eq_refl). cbn [filter keepWord String.length Nat.ltb Nat.leb andb app].
      apply split_run_irrelevant.
    + cbn [filter]. rewrite split_run_irrelevant.
      destruct (keepWord cur); reflexivity.
  - cbn [append splitFrom]. destruct (isSpace d).
    + destruct inRun.
      * now apply IH.
      * cbn [filter]. rewrite (IH true EmptyString c s2 Hc) by reflexivity.
        destruct (keepWord cur); reflexivity.
    + apply IH; [exact Hc | discriminate].
Qed.

Lemma split_word (w : string) : forall cur,
  noSpace w = true -> splitFrom false cur w = [(cur ++ w)%string].
Proof.
  induction w as [|c w IH]; intros cur H.
  - now rewrite append_nil_r.
  - unfold noSpace in H. cbn [JsString.forallb] in H.
    apply andb_true_iff in H. destruct H as [Hc Hw]. apply negb_true_iff in Hc.
    cbn [splitFrom]. rewrite Hc, (IH _ Hw), append_assoc. reflexivity.
Qed.

(** *** The shape of a keyword *)

Lemma alnum_not_space (c : ascii) : isAlnumLower c = true -> isSpace c = false.
Proof.
  destruct c as [[] [] [] [] [] [] [] []]; vm_compute; intros H;
    first [reflexivity | discriminate H].
Qed.

Lemma keyword_chars (text w : string) :
  isKeyword text w -> JsString.forallb isAlnumLower w = true.
Proof.
  intros [[_ [Hn [pre [post [E _]]]]] _].
  pose proof (normalised_chars text) as Hc. rewrite E in Hc.
  rewrite !forallb_append, !andb_true_iff in Hc. destruct Hc as [_ [Hc _]].
  apply (forallb_impl (fun c => (isAlnumLower c || isSpace c) && negb (isSpace c))).
  - intros c Hx. destruct (isAlnumLower c), (isSpace c); simpl in Hx; congruence.
  - now apply forallb_and.
Qed.

(** X1: every keyword has more than two code units, all of them lower-case
    letters or digits, and is not a stop word. *)
Theorem keyword_shape :
  forall (text w : string),
    In w (extractKeywords (Some text)) ->
    2 < String.length w
    /\ JsString.forallb isAlnumLower w = true
    /\ ~ In w STOP_WORDS.
Proof.
  intros text w H. apply in_extractKeywords in H.
  pose proof (keyword_chars text w H) as Hc.
  destruct H as [_ [Hlen Hstop]]. repeat split; assumption.
Qed.

Lemma keyword_shape_witness :
  2 < String.length "rust"
  /\ JsString.forallb isAlnumLower "rust" = true
  /\ ~ In "rust" STOP_WORDS.
Proof.
  apply (keyword_shape "How to LEARN Rust?" "rust"). right. left. reflexivity.
Defined.

(** *** Texts put together *)

Lemma keywords_at_separator (t1 t2 : string) (c : ascii) :
  isSpace (replaceSpecial (toLower c)) = true ->
  extractKeywords (Some (t1 ++ String c t2))
  = (extractKeywords (Some t1) ++ extractKeywords (Some t2))%list.
Proof.
  intros Hc. rewrite !extractKeywords_pipeline.
  unfold toLowerCase. rewrite !map_append. cbn [JsString.map].
  unfold splitWhitespace. apply split_at_separator; [exact Hc | discriminate].
Qed.

(** X2: the keywords of two texts joined by a code unit that is no letter
    or digit are the keywords of the first followed by those of the
    second. *)
Theorem keywords_of_joined_texts :
  forall (t1 t2 : string) (c : ascii),
    isAlnumLower (toLower c) = false ->
    extractKeywords (Some (t1 ++ String c t2))
    = (extractKeywords (Some t1) ++ extractKeywords (Some t2))%list.
Proof.
  intros t1 t2 c Hc. apply keywords_at_separator.
  unfold replaceSpecial. rewrite Hc. cbn [orb].
  destruct (isSpace (toLower c)) eqn:E; [exact E | reflexivity].
Qed.

Lemma keywords_of_joined_texts_witness :
  extractKeywords (Some "learn Rust,Ownership rules")
  = (extractKeywords (Some "learn Rust") ++ extractKeywords (Some "Ownership rules"))%list.
Proof.
  apply (keywords_of_joined_texts "learn Rust" "Ownership rules" ","%char).
  reflexivity.
Defined.

(** *** Keywords of keywords *)

Lemma keywords_of_keyword (k : string) :
  keepWord k = true -> JsString.forallb isAlnumLower k = true ->
  extractKeywords (Some k) = [k].
Proof.
  intros Hk Ha. rewrite extractKeywords_pipeline. unfold toLowerCase.
  rewrite map_map.
  rewrite (map_id_on isAlnumLower) by
    (try exact Ha; intros c Hc; rewrite (toLower_alnum c Hc);
     unfold replaceSpecial; now rewrite Hc).
  unfold splitWhitespace. rewrite split_word.
  - cbn [append filter]. now rewrite Hk.
  - apply (forallb_impl isAlnumLower); [|exact Ha].
    intros c Hc. now rewrite (alnum_not_space c Hc).
Qed.

Lemma keywords_of_joined_keywords (ks : list string) :
  Forall (fun k => keepWord k = true /\ JsString.forallb isAlnumLower k = true) ks ->
  extractKeywords (Some (String.concat " " ks)) = ks.
Proof.
  induction ks as [|k ks IH]; intros H; [reflexivity|].
  inversion H as [|? ? [Hk Ha] Hrest]; subst.
  destruct ks as [|k' ks]; [now apply keywords_of_keyword|].
  change (String.concat " " (k :: k' :: ks))
    with (k ++ String " " (String.concat " " (k' :: ks)))%string.
  rewrite keywords_at_separator by reflexivity.
  now rewrite keywords_of_keyword, IH.
Qed.

(** X3: the keywords are re-derivable from themselves: joined by spaces and
    extracted again they come back as they were, in order and number. *)
Theorem keywords_of_keywords :
  forall (text : string),
    extractKeywords (Some (String.concat " " (extractKeywords (Some text))))
    = extractKeywords (Some text).
Proof.
  intros text. apply keywords_of_joined_keywords. apply Forall_forall.
  intros k Hk. split.
  - rewrite extractKeywords_pipeline in Hk. now apply filter_In in Hk.
  - apply (keyword_chars text). now apply in_extractKeywords.
Qed.

(** *** White space around the text *)

Lemma trimStart_keywords (s : string) :
  filter keepWord
    (splitWhitespace (JsString.map (fun c => replaceSpecial (toLower c)) (trimStart s)))
  = filter keepWord
      (splitWhitespace (JsString.map (fun c => replaceSpecial (toLower c)) s)).
Proof.
  induction s as [|c s IH]; [reflexivity|]. cbn [trimStart].
  destruct (isSpace c) eqn:Hc; [|reflexivity].
  rewrite IH. cbn [JsString.map]. rewrite (normalise_space c Hc).
  unfold splitWhitespace. cbn [splitFrom]. rewrite Hc.
  cbn [filter keepWord String.length Nat.ltb Nat.leb andb].
  symmetry. apply split_run_irrelevant.
Qed.

Lemma splitFrom_cons (inRun : bool) (cur : string) (c : ascii) (s : string) :
  splitFrom inRun cur (String c s)
  = if isSpace c
    then if inRun then splitFrom true EmptyString s
         else cur :: splitFrom true EmptyString s
    else splitFrom false (cur ++ String c EmptyString) s.
Proof. reflexivity. Qed.

Lemma trimEnd_keywords (s : string) : forall inRun cur,
  (inRun = true -> cur = EmptyString) ->
  filter keepWord
    (splitFrom inRun cur (JsString.map (fun c => replaceSpecial (toLower c)) (trimEnd s)))
  = filter keepWord
      (splitFrom inRun cur (JsString.map (fun c => replaceSpecial (toLower c)) s)).
Proof.
  induction s as [|c s IH]; intros inRun cur Hrun; [reflexivity|].
  pose proof (IH true EmptyString (fun _ => eq_refl)) as IH1.
  assert (IH2 : forall cur',
             filter keepWord
               (splitFrom false cur'
                  (JsString.map (fun c => replaceSpecial (toLower c)) (trimEnd s)))
             = filter keepWord
                 (splitFrom false cur'
                    (JsString.map (fun c => replaceSpecial (toLower c)) s)))
    by (intros cur'; apply IH; discriminate).
  clear IH. cbn [trimEnd]. destruct (trimEnd s) as [|a r] eqn:E.
  - cbn [JsString.map splitFrom] in IH1, IH2. destruct (isSpace c) eqn:Hc.
    + cbn [JsString.map]. rewrite (normalise_space c Hc). cbn [splitFrom]. rewrite Hc.
      destruct inRun.
      * rewrite (Hrun eq_refl). exact IH1.
      * cbn [filter]. rewrite <- IH1.
        cbn [filter keepWord String.length Nat.ltb Nat.leb andb].
        destruct (keepWord cur); reflexivity.
    + cbn [JsString.map splitFrom].
      destruct (isSpace (replaceSpecial (toLower c))).
      * destruct inRun; [exact IH1|]. cbn [filter]. rewrite <- IH1. reflexivity.
      * apply IH2.
  - rewrite <- E in *. clear E a r.
    change (JsString.map (fun c => replaceSpecial (toLower c)) (String c (trimEnd s)))
      with (String (replaceSpecial (toLower c))
              (JsString.map (fun c => replaceSpecial (toLower c)) (trimEnd s))).
    change (JsString.map (fun c => replaceSpecial (toLower c)) (String c s))
      with (String (replaceSpecial (toLower c))
              (JsString.map (fun c => replaceSpecial (toLower c)) s)).
    rewrite !splitFrom_cons.
    destruct (isSpace (replaceSpecial (toLower c))).
    + destruct inRun; [exact IH1|]. cbn [filter]. now rewrite IH1.
    + apply IH2.
Qed.

Lemma trim_keywords (text : string) :
  extractKeywords (Some (trim text)) = extractKeywords (Some text).
Proof.
  rewrite !extractKeywords_pipeline. unfold toLowerCase, trim.
  rewrite !map_map. unfold splitWhitespace at 1.
  rewrite trimEnd_keywords by discriminate.
  apply trimStart_keywords.
Qed.

(** X4: white space before and after the text does not matter. *)
Theorem keywords_ignore_surrounding_space :
  forall (text : string),
    extractKeywords (Some (trim text)) = extractKeywords (Some text).
Proof.
  intros text. rewrite !extractKeywords_pipeline. unfold toLowerCase, trim.
  rewrite !map_map. unfold splitWhitespace at 1.
  rewrite trimEnd_keywords by discriminate.
  apply trimStart_keywords.
Qed.

(** *** Relevance *)

(** [isRelevant] by the keywords of the goal, the empty goal included. *)
Lemma isRelevant_by_keywords (goal videoTitle : string) :
  isRelevant goal videoTitle
  = match extractKeywords (Some goal) with
    | [] => true
    | ks => someKeywordIn ks (toLowerCase videoTitle)
    end.
Proof.
  unfold isRelevant. destruct goal as [|c goal]; [reflexivity|].
  destruct (extractKeywords (Some (String c goal))); reflexivity.
Qed.

Lemma toLowerCase_empty (s : string) :
  toLowerCase s = EmptyString -> s = EmptyString.
Proof. destruct s; [reflexivity | discriminate]. Qed.

(** X5: neither the case of the goal nor that of the title matters. *)
Theorem relevance_ignores_case :
  forall (goal1 goal2 title1 title2 : string),
    toLowerCase goal1 = toLowerCase goal2 ->
    toLowerCase title1 = toLowerCase title2 ->
    extractKeywords (Some goal1) = extractKeywords (Some goal2)
    /\ isRelevant goal1 title1 = isRelevant goal2 title2.
Proof.
  intros goal1 goal2 title1 title2 Hg Ht.
  assert (E : extractKeywords (Some goal1) = extractKeywords (Some goal2))
    by (rewrite !extractKeywords_pipeline; now rewrite Hg).
  split; [exact E|]. now rewrite !isRelevant_by_keywords, E, Ht.
Qed.

Lemma relevance_ignores_case_witness :
  isRelevant "Learn RUST" "rust ownership" = isRelevant "learn rust" "Rust Ownership".
Proof.
  apply (relevance_ignores_case "Learn RUST" "learn rust" "rust ownership" "Rust Ownership");
    reflexivity.
Defined.

(** X6: a title that contains a relevant title is relevant. *)
Theorem relevance_of_longer_title :
  forall (goal videoTitle before after : string),
    isRelevant goal videoTitle = true ->
    isRelevant goal (before ++ videoTitle ++ after) = true.
Proof.
  intros goal videoTitle before after. rewrite !isRelevant_by_keywords.
  destruct (extractKeywords (Some goal)) as [|k ks]; [reflexivity|].
  rewrite !someKeywordIn_iff. intros (kw & Hin & pre & post & E).
  exists kw. split; [exact Hin|].
  exists (toLowerCase before ++ pre)%string, (post ++ toLowerCase after)%string.
  unfold toLowerCase in *. rewrite !map_append, E, !append_assoc. reflexivity.
Qed.

Lemma relevance_of_longer_title_witness :
  isRelevant "rust" ("[4K] " ++ "Rust tips" ++ " - part 2") = true.
Proof.
  apply (relevance_of_longer_title "rust" "Rust tips" "[4K] " " - part 2").
  reflexivity.
Defined.

(** X7: when the goal has a keyword, a title of fewer than three code units
    is irrelevant. *)
Theorem short_title_irrelevant :
  forall (goal videoTitle : string),
    extractKeywords (Some goal) <> [] ->
    String.length videoTitle < 3 ->
    isRelevant goal videoTitle = false.
Proof.
  intros goal videoTitle Hne Hlen. rewrite isRelevant_by_keywords.
  destruct (extractKeywords (Some goal)) as [|k ks] eqn:E; [now destruct Hne|].
  destruct (someKeywordIn (k :: ks) (toLowerCase videoTitle)) eqn:S; [|reflexivity].
  exfalso. apply someKeywordIn_iff in S. destruct S as (kw & Hin & pre & post & Ep).
  rewrite <- E in Hin. apply in_extractKeywords in Hin. destruct Hin as (_ & Hk & _).
  assert (L : String.length (toLowerCase videoTitle) = String.length videoTitle)
    by apply map_length.
  rewrite Ep, !append_length in L. lia.
Qed.

Lemma short_title_irrelevant_witness : isRelevant "learn rust" "Go" = false.
Proof.
  apply (short_title_irrelevant "learn rust" "Go"); [discriminate | cbn; lia].
Defined.

Lemma someKeywordIn_app (ks1 ks2 : list string) (t : string) :
  someKeywordIn (ks1 ++ ks2)%list t = someKeywordIn ks1 t || someKeywordIn ks2 t.
Proof. apply existsb_app. Qed.

(** X8: two goals joined by a code unit that is no letter or digit: when
    both have keywords, a title is relevant to the joined goal exactly
    when it is relevant to one of them; a part without keyword does not
    count. *)
Theorem relevance_of_joined_goals :
  forall (goal1 goal2 videoTitle : string) (c : ascii),
    isAlnumLower (toLower c) = false ->
    isRelevant (goal1 ++ String c goal2) videoTitle
    = match extractKeywords (Some goal1), extractKeywords (Some goal2) with
      | [], _ => isRelevant goal2 videoTitle
      | _, [] => isRelevant goal1 videoTitle
      | _, _ => isRelevant goal1 videoTitle || isRelevant goal2 videoTitle
      end.
Proof.
  intros goal1 goal2 videoTitle c Hc.
  rewrite !isRelevant_by_keywords,
    (keywords_at_separator _ _ _ (normalise_separator c Hc)).
  destruct (extractKeywords (Some goal1)) as [|k1 ks1];
    destruct (extractKeywords (Some goal2)) as [|k2 ks2]; try reflexivity.
  - now rewrite app_nil_r.
  - change ((k1 :: ks1) ++ k2 :: ks2)%list with (k1 :: (ks1 ++ k2 :: ks2))%list.
    now rewrite <- someKeywordIn_app.
Qed.

Lemma relevance_of_joined_goals_witness :
  isRelevant ("rust" ++ String "/" "golang") "Golang crash course"
  = (isRelevant "rust" "Golang crash course" || isRelevant "golang" "Golang crash course").
Proof.
  apply (relevance_of_joined_goals "rust" "golang" "Golang crash course" "/"%char).
  reflexivity.
Defined.

End KeywordMore.

(** ** More on marking and scanning *)

Module ScanMore.

Import JsString Dom DomLoops Filter Observe Layout.
Import DomFacts MarkFacts ClearFacts ScanFacts.
Local Open Scope list_scope.

Local Abbreviation ids n := (List.map uid (attrsIn n)).

(** *** Trimming *)

Lemma trimEnd_cons (c : ascii) (s : string) :
  trimEnd (String c s)
  = match trimEnd s with
    | EmptyString => if isSpace c then EmptyString else String c EmptyString
    | r => String c r
    end.
Proof. reflexivity. Qed.

Lemma trimEnd_fix (s : string) : trimEnd (trimEnd s) = trimEnd s.
Proof.
  induction s as [|c s IH]; [reflexivity|].
  rewrite trimEnd_cons. destruct (trimEnd s) as [|d r] eqn:E.
  - destruct (isSpace c) eqn:Ec; [reflexivity|].
    rewrite trimEnd_cons. cbn [trimEnd]. now rewrite Ec.
  - rewrite trimEnd_cons, IH. reflexivity.
Qed.

Lemma trimStart_head (s : string) :
  trimStart s = EmptyString
  \/ exists c r, trimStart s = String c r /\ isSpace c = false.
Proof.
  induction s as [|c s IH]; [now left|].
  cbn [trimStart]. destruct (isSpace c) eqn:E; [exact IH|].
  right. now exists c, s.
Qed.

Lemma trimEnd_head (c : ascii) (s : string) :
  trimEnd (String c s) = EmptyString \/ exists r, trimEnd (String c s) = String c r.
Proof.
  rewrite trimEnd_cons. destruct (trimEnd s) as [|d r].
  - destruct (isSpace c); [now left | right; now exists EmptyString].
  - right. now exists (String d r).
Qed.

Lemma trim_fix (s : string) : trim (trim s) = trim s.
Proof.
  unfold trim. destruct (trimStart_head s) as [E | (c & r & E & Hc)]; rewrite E.
  - reflexivity.
  - destruct (trimEnd_head c r) as [E2 | (r' & E2)].
    + now rewrite E2.
    + assert (F : trimStart (trimEnd (String c r)) = trimEnd (String c r)).
      { rewrite E2. cbn [trimStart]. now rewrite Hc. }
      rewrite F. apply trimEnd_fix.
Qed.

Lemma titleText_trimmed (titleEl : Ref) : trim (titleText titleEl) = titleText titleEl.
Proof. unfold titleText. apply trim_fix. Qed.

Lemma extractTitle_trimmed (anc : list string) (video : Node) (t : string) :
  extractTitle anc video = Some t -> falsy t = false /\ trim t = t.
Proof.
  unfold extractTitle. destruct (findTitleEl anc video) as [el|]; [|discriminate].
  pose proof (titleText_trimmed el) as T.
  destruct (titleText el) as [|c r]; [discriminate|].
  intros [= <-]. split; [reflexivity | exact T].
Qed.

(** *** The titles the scan checks *)

Lemma forallb_snoc {A : Type} (f : A -> bool) (l : list A) (x : A) :
  List.forallb f (l ++ [x]) = List.forallb f l && f x.
Proof. rewrite forallb_app. cbn [List.forallb]. now rewrite andb_true_r. Qed.

Lemma scanVideo_checks (goal : string) (p : Page) (r : Ref) :
  List.forallb trimmedCheck (trace p) = true ->
  List.forallb trimmedCheck (trace (scanVideo goal p r)) = true.
Proof.
  intros H. unfold scanVideo.
  destruct (findElem (uid (refAttrs r)) [] (document p)) as [now|]; [|exact H].
  destruct (extractTitle (refAncestors now) (refNode now)) as [t|] eqn:E.
  - apply extractTitle_trimmed in E. destruct E as [E1 E2].
    assert (C : trimmedCheck (CheckRelevant t) = true).
    { cbn [trimmedCheck]. rewrite E1, E2, String.eqb_refl. reflexivity. }
    destruct (isRelevant goal t); unfold markRelevant, markIrrelevant, emit;
      cbn [trace]; rewrite !forallb_snoc, H, C; reflexivity.
  - unfold emit. cbn [trace]. rewrite forallb_snoc, H. reflexivity.
Qed.

Lemma clear_checks (l : list Ref) : forall p,
  List.forallb trimmedCheck (trace p) = true ->
  List.forallb trimmedCheck
    (trace (fold_left (fun q el => markRelevant (uid (refAttrs el)) q) l p)) = true.
Proof.
  induction l as [|r l IH]; intros p H; [exact H|].
  cbn [fold_left]. apply IH. unfold markRelevant. cbn [trace].
  rewrite forallb_snoc, H. reflexivity.
Qed.

(** X9: in every scan, enabled or not and whatever the goal, the titles
    handed to [isRelevant] are trimmed and not empty: a video whose
    title is empty or white space is never classified. *)
Theorem scan_checks_trimmed_titles :
  forall (currentGoal : string) (isEnabled : bool) (p : Page),
    List.forallb trimmedCheck (trace p) = true ->
    List.forallb trimmedCheck (trace (scanVideos currentGoal isEnabled p)) = true.
Proof.
  intros goal enabled p H. unfold scanVideos.
  destruct (negb enabled || falsy goal).
  - unfold clearAllFilters. now apply clear_checks.
  - generalize (documentQuerySelectorAll VIDEO_SELECTORS (document p)).
    intros l. revert p H. induction l as [|r l IH]; intros p H; [exact H|].
    cbn [fold_left]. apply IH. now apply scanVideo_checks.
Qed.

Lemma scan_checks_trimmed_titles_witness :
  List.forallb trimmedCheck (trace (scanVideos "rust" true samplePage)) = true.
Proof. apply scan_checks_trimmed_titles. reflexivity. Defined.

(** *** What a scan makes of a video *)

Lemma scan_rounds (p : Page) (goal : string) :
  goal <> EmptyString ->
  wellFormed p = true ->
  flatVideos (document p) = true ->
  forall r, In r (documentQuerySelectorAll VIDEO_SELECTORS (document p)) ->
    roundDone goal (nextUid p) (document (scanVideos goal true p)) r.
Proof.
  intros Hgoal Hwf Hflat.
  unfold wellFormed in Hwf. apply andb_true_iff in Hwf. destruct Hwf as [Hu Hb].
  rewrite forallb_forall in Hb.
  set (V := documentQuerySelectorAll VIDEO_SELECTORS (document p)) in *.
  assert (Escan : scanVideos goal true p = fold_left (scanVideo goal) V p).
  { unfold scanVideos. destruct goal; [now destruct Hgoal | reflexivity]. }
  rewrite Escan.
  apply (scan_loop goal (nextUid p) V) with (done := @nil Ref).
  - now apply videos_distinct.
  - intros r Hr. apply Nat.ltb_lt, Hb.
    apply video_in_document in Hr. destruct Hr as [Hr _].
    unfold uids. now apply (in_map (fun r => uid (refAttrs r))).
  - intros r r' Hr Hr'. now apply (videos_apart (document p)).
  - reflexivity.
  - lia.
  - intros r Hr. now apply video_found.
  - intros r [].
Qed.

Lemma overlay_count (k : nat) :
  List.length (filter (hasClass OVERLAY) (attrsIn (createOverlay k))) = 1.
Proof. reflexivity. Qed.

(** X10: after a scan with a goal and the engine enabled, a video with a
    title is de-emphasised exactly when its title is not relevant; a
    relevant one carries no overlay, an irrelevant one that was not
    marked before has gained exactly one, and one that was marked
    already carries the overlays it had. *)
Theorem scan_marks_by_relevance :
  forall (p : Page) (currentGoal : string) (video : Ref) (t : string),
    currentGoal <> EmptyString ->
    wellFormed p = true ->
    flatVideos (document p) = true ->
    In video (documentQuerySelectorAll VIDEO_SELECTORS (document p)) ->
    extractTitle (refAncestors video) (refNode video) = Some t ->
    exists now,
      findElem (uid (refAttrs video)) [] (document (scanVideos currentGoal true p))
      = Some now
      /\ refAncestors now = refAncestors video
      /\ isMarked (refNode now) = negb (isRelevant currentGoal t)
      /\ List.length (overlaysOf (refNode now))
         = if isRelevant currentGoal t then 0
           else if isMarked (refNode video)
                then List.length (overlaysOf (refNode video))
                else S (List.length (overlaysOf (refNode video))).
Proof.
  intros p goal video t Hgoal Hwf Hflat Hvideo Htitle.
  destruct (scan_rounds p goal Hgoal Hwf Hflat video Hvideo)
    as (k & now & _ & Hf & Ha & Hn).
  unfold roundResult in Hn. rewrite Htitle in Hn.
  exists now. split; [exact Hf|]. split; [exact Ha|]. rewrite Hn.
  destruct (isRelevant goal t); cbn [negb].
  - split; [apply markRelevantEl_unmarked|].
    now rewrite markRelevantEl_no_overlay.
  - destruct video as [[anc a] cs]. change (refNode (anc, a, cs)) with (Elem a cs).
    split; [apply markIrrelevantEl_isMarked|].
    destruct (isMarked (Elem a cs)) eqn:M.
    + now rewrite markIrrelevantEl_marked.
    + rewrite !overlaysOf_length, markIrrelevantEl_count by exact M.
      rewrite overlay_count. lia.
Qed.

Lemma scan_marks_by_relevance_witness :
  exists now,
    findElem 1 [] (document (scanVideos "rust" true samplePage)) = Some now
    /\ refAncestors now = ["div"]
    /\ isMarked (refNode now) = true
    /\ List.length (overlaysOf (refNode now)) = 1.
Proof.
  assert (G : "rust" <> EmptyString) by discriminate.
  exact (scan_marks_by_relevance samplePage "rust" sampleTitled
           "Cute cat compilation" G eq_refl eq_refl (or_introl eq_refl) eq_refl).
Defined.

(** *** The rest of the page *)

Section Beside.

Variables (goal : string) (N0 : nat) (V : list Ref) (v : nat) (rv : Ref).

Hypothesis Vdistinct : NoDup (List.map (fun r => uid (refAttrs r)) V).
Hypothesis Vbound : forall r, In r V -> uid (refAttrs r) < N0.
Hypothesis Vapart :
  forall r r', In r V -> In r' V ->
    uid (refAttrs r) <> uid (refAttrs r') ->
    ~ In (uid (refAttrs r)) (ids (refNode r')).
Hypothesis vbound : v < N0.
Hypothesis vbeside :
  forall r, In r V ->
    ~ In (uid (refAttrs r)) (ids (refNode rv)) /\ ~ In v (ids (refNode r)).


End Beside.




(** *** Unmarking and clearing *)

(** X12: on an item that carries no overlay, [markRelevant] only takes the
    class of the de-emphasis away: the children, and with them any
    inline position set earlier, stay. *)
Theorem markRelevant_without_overlay :
  forall (item : Node),
    overlaysOf item = [] ->
    markRelevantEl item = classListRemove BLURRED item.
Proof.
  intros item H. rewrite markRelevantEl_eq. apply removeMatching_id.
  unfold overlaysOf in H. apply queryClass_nil in H.
  destruct item as [d|a cs]; [constructor|exact H].
Qed.

Lemma markRelevant_without_overlay_witness :
  markRelevantEl sampleVideo = classListRemove BLURRED sampleVideo.
Proof. apply markRelevant_without_overlay. reflexivity. Defined.

(** X13: clearing is idempotent: on a cleared page [clearAllFilters] finds
    nothing to do, makes no call and leaves the document as it is. *)
Theorem clear_twice :
  forall (p : Page),
    uniqueUids (document p) = true ->
    clearAllFilters (clearAllFilters p) = clearAllFilters p.
Proof.
  intros p Hu. destruct (clearAllFilters_spec p Hu) as (_ & _ & Hm).
  unfold markedItems in Hm.
  unfold clearAllFilters at 1. now rewrite Hm.
Qed.

Lemma clear_twice_witness :
  clearAllFilters (clearAllFilters samplePage) = clearAllFilters samplePage.
Proof. apply clear_twice. reflexivity. Defined.

End ScanMore.

(** ** More on the engine *)

Module EngineMore.

Import Dom Filter Observe Engine Scenario Triggers.
Import ClearFacts EngineFacts.
Local Open Scope list_scope.

(** *** The timeout of the debounced scan *)

Lemma ownTimer_cases (st : State) :
  ownTimer st = true ->
  timers st = []
  \/ exists id due, timers st = [(id, due)] /\ scanTimer st = Some id.
Proof.
  unfold ownTimer. destruct (timers st) as [|[id due] [|x l]]; [now left | | discriminate].
  destruct (scanTimer st) as [id'|]; [|discriminate].
  cbn [fst]. intros H. apply Nat.eqb_eq in H. subst id'. right. now exists id, due.
Qed.

Lemma ownTimer_idle (st : State) : timers st = [] -> ownTimer st = true.
Proof. unfold ownTimer. now intros ->. Qed.

Lemma advanceTo_timers (t : nat) (st : State) :
  ownTimer st = true ->
  timers (advanceTo t st) = []
  \/ (timers (advanceTo t st) = timers st
      /\ scanTimer (advanceTo t st) = scanTimer st
      /\ scanLog (advanceTo t st) = scanLog st
      /\ forall id due, timers st = [(id, due)] -> t < due).
Proof.
  intros H. destruct (ownTimer_cases st H) as [E | (id & due & E & Es)].
  - left. now rewrite (advanceTo_idle t st E).
  - destruct (Nat.lt_ge_cases t due) as [Hlt | Hge].
    + right. rewrite (advanceTo_early t id due st E Hlt).
      repeat split. intros id0 due0 E0. rewrite E in E0. now injection E0 as _ <-.
    + left. now destruct (advanceTo_due t id due st E Hge) as (_ & -> & _).
Qed.

(** [debouncedScan()] where at most the script's own timeout is
    pending: that one is cancelled and one new timeout is set. *)
Lemma debounce_restarts (st : State) :
  ownTimer st = true ->
  timers (debouncedScan st) = [(nextTimer st, clock st + DEBOUNCE_MS)]
  /\ scanTimer (debouncedScan st) = Some (nextTimer st)
  /\ scanLog (debouncedScan st) = scanLog st
  /\ lastUrl (debouncedScan st) = lastUrl st
  /\ page (debouncedScan st) = page st
  /\ currentGoal (debouncedScan st) = currentGoal st
  /\ isEnabled (debouncedScan st) = isEnabled st.
Proof.
  intros H. unfold debouncedScan.
  destruct (ownTimer_cases st H) as [E | (id & due & E & Es)].
  - destruct (scanTimer st) as [id|];
      cbn [setScanTimeout clearTimeout setTimers timers scanTimer scanLog clock
           nextTimer lastUrl page currentGoal isEnabled];
      rewrite E; repeat split.
  - rewrite Es.
    cbn [setScanTimeout clearTimeout setTimers timers scanTimer scanLog clock
         nextTimer lastUrl page currentGoal isEnabled].
    rewrite E. cbn [filter fst]. rewrite Nat.eqb_refl. repeat split.
Qed.

Lemma debouncedScan_page (st : State) :
  page (debouncedScan st) = page st /\ clock (debouncedScan st) = clock st.
Proof. unfold debouncedScan. destruct (scanTimer st); split; reflexivity. Qed.

Lemma debounce_ownTimer (st : State) :
  ownTimer st = true -> ownTimer (debouncedScan st) = true.
Proof.
  intros H. destruct (debounce_restarts st H) as (Et & Es & _).
  unfold ownTimer. rewrite Et, Es. cbn [fst]. apply Nat.eqb_refl.
Qed.

Lemma advanceTo_ownTimer (t : nat) (st : State) :
  ownTimer st = true -> ownTimer (advanceTo t st) = true.
Proof.
  intros H. destruct (advanceTo_timers t st H) as [E | (E & Es & _)].
  - now apply ownTimer_idle.
  - unfold ownTimer in *. now rewrite E, Es.
Qed.

Lemma handle_ownTimer (i : Input) (st : State) :
  ownTimer st = true -> ownTimer (handle i st) = true.
Proof.
  intros H. destruct i as [added | [g | e | ty] | lastError response | href].
  - unfold handle, onMutations.
    destruct (existsb (fun n => 0 <? n) added); [now apply debounce_ownTimer | exact H].
  - exact H.
  - unfold handle, onMessage.
    destruct (negb (isEnabled (setEnabled (truthy e) st))); exact H.
  - exact H.
  - unfold handle, onStateResponse. destruct lastError; [exact H|].
    destruct response; exact H.
  - unfold handle, onPoll. destruct (String.eqb href (lastUrl st)); [exact H|].
    now apply debounce_ownTimer.
Qed.

Lemma run_ownTimer (inputs : list (nat * Input)) : forall st,
  ownTimer st = true -> ownTimer (run inputs st) = true.
Proof.
  induction inputs as [|[t i] inputs IH]; intros st H; [exact H|].
  unfold run in *. cbn [fold_left]. apply IH. unfold deliver. cbn [fst snd].
  now apply handle_ownTimer, advanceTo_ownTimer.
Qed.

(** X14: whatever the tab receives after the script has loaded, at most one
    timeout is pending, and it is the one [scanTimer] names: every
    request for a debounced scan cancels the one before. *)
Theorem one_timeout_pending :
  forall (href : string) (host : Page) (inputs : list (nat * Input)),
    ownTimer (run inputs (boot href host)) = true
    /\ List.length (timers (run inputs (boot href host))) <= 1.
Proof.
  intros href host inputs.
  assert (H : ownTimer (run inputs (boot href host)) = true)
    by now apply run_ownTimer.
  split; [exact H|].
  destruct (ownTimer_cases _ H) as [-> | (id & due & -> & _)]; cbn [List.length]; lia.
Qed.

(** *** Requests of either kind in one burst *)

Lemma trigger_restarts (t : nat) (i : Input) (st : State) :
  triggers (lastUrl st) i = true ->
  ownTimer st = true ->
  (forall id due, timers st = [(id, due)] -> t < due) ->
  exists id',
    timers (deliver st (t, i)) = [(id', t + DEBOUNCE_MS)]
    /\ scanTimer (deliver st (t, i)) = Some id'
    /\ scanLog (deliver st (t, i)) = scanLog st
    /\ lastUrl (deliver st (t, i)) = urlAfter (lastUrl st) i
    /\ page (deliver st (t, i)) = page st
    /\ currentGoal (deliver st (t, i)) = currentGoal st
    /\ isEnabled (deliver st (t, i)) = isEnabled st.
Proof.
  intros Hi Ho Hearly. unfold deliver. cbn [fst snd].
  assert (Ea : advanceTo t st = setClock t st).
  { destruct (ownTimer_cases st Ho) as [E | (id & due & E & _)].
    - now apply advanceTo_idle.
    - apply (advanceTo_early t id due); [exact E | now apply (Hearly id)]. }
  rewrite Ea.
  assert (Ho' : ownTimer (setClock t st) = true) by exact Ho.
  destruct i as [added | m | lastError response | href]; try discriminate Hi.
  - cbn [triggers] in Hi. unfold handle, onMutations. fold (addsContent added).
    rewrite Hi. destruct (debounce_restarts _ Ho') as (Et & Es & El & Eu & Ep & Eg & Ee).
    exists (nextTimer st). rewrite Et, Es, El, Eu, Ep, Eg, Ee. repeat split.
  - cbn [triggers] in Hi. apply negb_true_iff in Hi.
    unfold handle, onPoll. cbn [lastUrl setClock]. rewrite Hi.
    assert (Ho2 : ownTimer (setLastUrl href (setClock t st)) = true) by exact Ho.
    destruct (debounce_restarts _ Ho2) as (Et & Es & El & Eu & Ep & Eg & Ee).
    exists (nextTimer st). rewrite Et, Es, El, Eu, Ep, Eg, Ee. repeat split.
Qed.

Lemma triggers_restart (inputs : list (nat * Input)) : forall t0 st id,
  timers st = [(id, t0 + DEBOUNCE_MS)] ->
  scanTimer st = Some id ->
  triggersFrom (lastUrl st) inputs = true ->
  within DEBOUNCE_MS (t0 :: List.map fst inputs) = true ->
  exists id',
    timers (run inputs st) = [(id', last (List.map fst inputs) t0 + DEBOUNCE_MS)]
    /\ scanTimer (run inputs st) = Some id'
    /\ scanLog (run inputs st) = scanLog st
    /\ page (run inputs st) = page st
    /\ currentGoal (run inputs st) = currentGoal st
    /\ isEnabled (run inputs st) = isEnabled st.
Proof.
  induction inputs as [|[t i] inputs IH]; intros t0 st id Et Es Ha Hw.
  - exists id. repeat split; assumption.
  - cbn [triggersFrom snd] in Ha. apply andb_true_iff in Ha. destruct Ha as [Ha Hrest].
    cbn [List.map fst within] in Hw. rewrite !andb_true_iff in Hw.
    destruct Hw as [[Hle Hlt] Hw]. apply Nat.ltb_lt in Hlt.
    destruct (trigger_restarts t i st Ha)
      as (id' & Et' & Es' & El' & Eu' & Ep' & Eg' & Ee').
    { unfold ownTimer. rewrite Et, Es. cbn [fst]. apply Nat.eqb_refl. }
    { intros id0 due0 E0. rewrite Et in E0. now injection E0 as _ <-. }
    unfold run in *. cbn [fold_left].
    rewrite <- Eu' in Hrest.
    destruct (IH t _ id' Et' Es' Hrest Hw)
      as (id'' & Et'' & Es'' & El'' & Ep'' & Eg'' & Ee'').
    exists id''. rewrite Et'', Es'', El'', El', Ep'', Ep', Eg'', Eg', Ee'', Ee'.
    repeat split.
    f_equal. f_equal. f_equal. symmetry. apply (last_cons (List.map fst inputs) t t0 t0).
Qed.

(** X15: structural changes and changes of the URL share the one timeout: a
    burst of requests of either kind, each less than the window after
    the one before, scans nothing while it lasts, and once the window
    has passed after the last request one scan has run, at the end of
    that window. *)
Theorem mixed_burst_runs_one_scan :
  forall (st : State) (first : nat * Input) (rest : list (nat * Input)) (T : nat),
    timers st = [] ->
    triggersFrom (lastUrl st) (first :: rest) = true ->
    within DEBOUNCE_MS (List.map fst (first :: rest)) = true ->
    last (List.map fst rest) (fst first) + DEBOUNCE_MS <= T ->
    scanLog (run (first :: rest) st) = scanLog st
    /\ scanLog (advanceTo T (run (first :: rest) st))
       = scanLog st ++ [last (List.map fst rest) (fst first) + DEBOUNCE_MS]
    /\ timers (advanceTo T (run (first :: rest) st)) = []
    /\ page (advanceTo T (run (first :: rest) st))
       = scanVideos (currentGoal st) (isEnabled st) (page st).
Proof.
  intros st [t0 i] rest T Et Ha Hw HT. cbn [fst] in *.
  cbn [triggersFrom snd] in Ha. apply andb_true_iff in Ha. destruct Ha as [Ha Hrest].
  destruct (trigger_restarts t0 i st Ha)
    as (id & Et1 & Es1 & El1 & Eu1 & Ep1 & Eg1 & Ee1).
  { now apply ownTimer_idle. }
  { intros id0 due0 E0. rewrite Et in E0. discriminate E0. }
  cbn [List.map fst] in Hw. rewrite <- Eu1 in Hrest.
  destruct (triggers_restart rest t0 _ id Et1 Es1 Hrest Hw)
    as (id' & Et2 & Es2 & El2 & Ep2 & Eg2 & Ee2).
  assert (E : run ((t0, i) :: rest) st = run rest (deliver st (t0, i)))
    by reflexivity.
  rewrite E.
  destruct (advanceTo_due T id' _ _ Et2 HT) as (Hl & Htm & Hp).
  rewrite Hl, Htm, Hp, El2, El1, Ep2, Ep1, Eg2, Eg1, Ee2, Ee1. repeat split.
Qed.

Lemma mixed_burst_runs_one_scan_witness :
  scanLog (advanceTo 3000
             (run [ (1000, Poll "https://www.youtube.com/watch?v=1");
                    (1100, Mutations [0; 3]);
                    (1399, Mutations [2]) ]
                  (boot "https://www.youtube.com/" samplePage)))
  = [1699].
Proof.
  refine (proj1 (proj2
           (mixed_burst_runs_one_scan (boot "https://www.youtube.com/" samplePage)
              (1000, Poll "https://www.youtube.com/watch?v=1")
              [(1100, Mutations [0; 3]); (1399, Mutations [2])] 3000 _ _ _ _))).
  - reflexivity.
  - reflexivity.
  - reflexivity.
  - cbn. repeat constructor.
Defined.

(** *** A scan at once while one is pending *)



(** *** The engine switched off *)

Lemma quiet_refl (st : State) : isEnabled st = false -> quiet st st.
Proof.
  intros H. split; [exact H|]. split; [reflexivity|].
  exists []. now rewrite app_nil_r.
Qed.

Lemma quiet_trans (a b c : State) : quiet a b -> quiet b c -> quiet a c.
Proof.
  intros (_ & Hn & l & Ht & Hl) (He & Hn' & l' & Ht' & Hl').
  split; [exact He|]. split; [congruence|].
  exists (l ++ l'). rewrite Ht', Ht, <- app_assoc. split; [reflexivity|].
  rewrite forallb_app, Hl, Hl'. reflexivity.
Qed.

Lemma quiet_same (st st' : State) :
  isEnabled st' = false -> page st' = page st -> quiet st st'.
Proof.
  intros He Hp. split; [exact He|]. rewrite Hp. split; [reflexivity|].
  exists []. now rewrite app_nil_r.
Qed.

Lemma clear_quiet (p : Page) :
  nextUid (clearAllFilters p) = nextUid p
  /\ exists calls,
       trace (clearAllFilters p) = trace p ++ calls
       /\ forallb isUnmark calls = true.
Proof.
  unfold clearAllFilters.
  destruct (clear_loop (documentQuerySelectorAll [Class BLURRED] (document p)) p)
    as (Ht & Hn & _).
  split; [exact Hn|]. eexists. split; [exact Ht|].
  apply forallb_forall. intros e He. apply in_map_iff in He.
  destruct He as (r & <- & _). reflexivity.
Qed.

Lemma quiet_clear (st : State) : isEnabled st = false -> quiet st (runClear st).
Proof.
  intros H. split; [exact H|]. cbn [runClear page]. apply clear_quiet.
Qed.

Lemma quiet_scan (st : State) : isEnabled st = false -> quiet st (runScan st).
Proof.
  intros H. split; [exact H|]. cbn [runScan page]. rewrite H.
  unfold scanVideos. cbn [negb orb]. apply clear_quiet.
Qed.

Lemma quiet_fire (timer : nat * nat) (st : State) :
  isEnabled st = false -> quiet st (fire timer st).
Proof.
  intros H. unfold fire.
  apply (quiet_trans _ (setClock (snd timer) (clearTimeout (fst timer) st))).
  - now apply quiet_same.
  - now apply quiet_scan.
Qed.

Lemma quiet_fireDue (fuel t : nat) : forall st,
  isEnabled st = false -> quiet st (fireDue fuel t st).
Proof.
  induction fuel as [|k IH]; intros st H; cbn [fireDue]; [now apply quiet_refl|].
  destruct (earliestDue t (timers st)) as [timer|]; [|now apply quiet_refl].
  pose proof (quiet_fire timer st H) as Q.
  apply (quiet_trans _ _ _ Q). apply IH. now destruct Q.
Qed.

Lemma quiet_advanceTo (t : nat) (st : State) :
  isEnabled st = false -> quiet st (advanceTo t st).
Proof.
  intros H. unfold advanceTo.
  pose proof (quiet_fireDue (List.length (timers st)) t st H) as Q.
  apply (quiet_trans _ _ _ Q). apply quiet_same; [now destruct Q | reflexivity].
Qed.

Lemma quiet_handle (i : Input) (st : State) :
  isEnabled st = false -> staysOff i = true -> quiet st (handle i st).
Proof.
  intros H Hi. destruct i as [added | [g | e | ty] | lastError response | href].
  - apply quiet_same.
    + now destruct (handle_settings (Mutations added) st eq_refl) as (_ & -> & _).
    + unfold handle, onMutations.
      destruct (existsb (fun n => 0 <? n) added); [|reflexivity].
      now destruct (debouncedScan_page st).
  - cbn [handle onMessage].
    apply (quiet_trans _ (setGoal (orEmpty g) st)).
    + now apply quiet_same.
    + now apply quiet_scan.
  - cbn [staysOff] in Hi. apply negb_true_iff in Hi.
    unfold handle, onMessage. cbn [isEnabled setEnabled]. rewrite Hi. cbn [negb].
    apply (quiet_trans _ (setEnabled false st)).
    + now apply quiet_same.
    + now apply quiet_clear.
  - now apply quiet_refl.
  - unfold handle, onStateResponse. destruct lastError; [now apply quiet_refl|].
    destruct response as [r|]; [|now apply quiet_refl].
    cbn [staysOff] in Hi. apply negb_true_iff in Hi. rewrite Hi.
    apply (quiet_trans _ (setEnabled false (setGoal (orEmpty (focusGoal r)) st))).
    + now apply quiet_same.
    + now apply quiet_scan.
  - apply quiet_same.
    + now destruct (handle_settings (Poll href) st eq_refl) as (_ & -> & _).
    + unfold handle, onPoll.
      destruct (String.eqb href (lastUrl st)); [reflexivity|].
      now destruct (debouncedScan_page (setLastUrl href st)).
Qed.

(** X17: while the engine is switched off nothing is marked: whatever the
    tab receives short of being switched on again (mutations, changes
    of the URL, timeouts running out, new goals), every scan is a
    clearing, so the only calls made are [markRelevant] and no overlay
    is created. *)
Theorem switched_off_never_marks :
  forall (inputs : list (nat * Input)) (st : State),
    isEnabled st = false ->
    forallb (fun ti => staysOff (snd ti)) inputs = true ->
    isEnabled (run inputs st) = false
    /\ nextUid (page (run inputs st)) = nextUid (page st)
    /\ exists calls,
         trace (page (run inputs st)) = trace (page st) ++ calls
         /\ forallb isUnmark calls = true.
Proof.
  intros inputs st H Hs. change (quiet st (run inputs st)).
  revert st H. induction inputs as [|[t i] inputs IH]; intros st H;
    [now apply quiet_refl|].
  cbn [forallb snd] in Hs. apply andb_true_iff in Hs. destruct Hs as [Hi Hrest].
  unfold run in *. cbn [fold_left].
  pose proof (quiet_advanceTo t st H) as Q1.
  assert (H1 : isEnabled (advanceTo t st) = false) by now destruct Q1.
  pose proof (quiet_handle i (advanceTo t st) H1 Hi) as Q2.
  assert (H2 : isEnabled (deliver st (t, i)) = false) by now destruct Q2.
  apply (quiet_trans _ _ _ Q1). apply (quiet_trans _ _ _ Q2).
  now apply IH.
Qed.

Lemma switched_off_never_marks_witness :
  nextUid
    (page (run [ (1000, Mutations [2]);
                 (1100, Incoming (GOAL_UPDATED (Value "rust")));
                 (2000, Poll "https://www.youtube.com/watch?v=1") ]
               (setEnabled false (boot "https://www.youtube.com/" samplePage))))
  = 9.
Proof.
  refine (proj1 (proj2
           (switched_off_never_marks
              [ (1000, Mutations [2]);
                (1100, Incoming (GOAL_UPDATED (Value "rust")));
                (2000, Poll "https://www.youtube.com/watch?v=1") ]
              (setEnabled false (boot "https://www.youtube.com/" samplePage)) _ _))).
  - reflexivity.
  - reflexivity.
Defined.

End EngineMore.

(** ** The identities of the document across scans *)

Module IdentityFacts.

Import Dom DomLoops Filter Observe Engine.
Import DomFacts MarkFacts ClearFacts ScanFacts.
Local Open Scope list_scope.

Local Abbreviation ids n := (List.map uid (attrsIn n)).

(** [wellFormed] as a proposition. *)
Lemma NoDup_distinct (l : list nat) : NoDup l -> distinct l = true.
Proof.
  induction 1 as [|x l Hx _ IH]; [reflexivity|].
  cbn [distinct]. rewrite IH, andb_true_r. apply negb_true_iff.
  destruct (existsb (Nat.eqb x) l) eqn:E; [|reflexivity].
  apply existsb_exists in E. destruct E as (y & Hy & E).
  apply Nat.eqb_eq in E. now subst y.
Qed.

Lemma wellFormed_iff (p : Page) :
  wellFormed p = true
  <-> NoDup (ids (document p)) /\ forall x, In x (ids (document p)) -> x < nextUid p.
Proof.
  unfold wellFormed, uniqueUids. rewrite andb_true_iff, forallb_forall, uids_attrs.
  split; intros [H1 H2]; split.
  - now apply distinct_NoDup.
  - intros x Hx. now apply Nat.ltb_lt, H2.
  - now apply NoDup_distinct.
  - intros x Hx. now apply Nat.ltb_lt, H2.
Qed.

(** The identities after a write at one element. *)
Lemma withElem_ids (u : nat) (f : Node -> Node) (d : Node) :
  withElem u f d = d
  \/ exists l1 x l2,
       ids d = l1 ++ ids x ++ l2
       /\ ids (withElem u f d) = l1 ++ ids (f x) ++ l2.
Proof.
  unfold withElem. destruct (updateElem u f d) as [d'|] eqn:E; [|now left].
  destruct (updateElem_attrs _ _ _ _ E) as (l1 & a & cs & l2 & _ & _ & E1 & E2).
  right. exists (List.map uid l1), (Elem a cs), (List.map uid l2).
  rewrite E1, E2, !map_app. split; reflexivity.
Qed.

Lemma markIrrelevantEl_perm (k : nat) (n : Node) :
  exists extra,
    (extra = [] \/ extra = [k; k + 1])
    /\ Permutation (ids (markIrrelevantEl k n)) (extra ++ ids n).
Proof.
  destruct n as [d | a cs]; [exists []; split; [now left | reflexivity]|].
  destruct (hasClass BLURRED a) eqn:Hb.
  - rewrite markIrrelevantEl_marked by exact Hb.
    exists []. split; [now left | reflexivity].
  - destruct (markIrrelevantEl_as_update k a cs Hb) as [u Hu].
    destruct (updateElem_attrs _ _ _ _ Hu) as (l1 & b & ds & l2 & _ & _ & E1 & E2).
    exists [k; k + 1]. split; [now right|].
    rewrite E2, attrsIn_attach.
    assert (Hsame : ids (Elem a cs)
                    = List.map uid (l1 ++ attrsIn (Elem b ds) ++ l2)).
    { rewrite <- E1, !attrsIn_Elem. reflexivity. }
    rewrite Hsame, attrsIn_Elem, !map_app.
    change (List.map uid (attrsIn (createOverlay k))) with [k; k + 1].
    cbn [List.map uid].
    set (L1 := List.map uid l1). set (L2 := List.map uid l2).
    set (X := uid b :: List.map uid (flat_map attrsIn ds)).
    change (uid b :: List.map uid (flat_map attrsIn ds ++ attrsIn (createOverlay k)))
      with (List.map uid ((b :: flat_map attrsIn ds) ++ attrsIn (createOverlay k))).
    rewrite map_app.
    change (List.map uid (b :: flat_map attrsIn ds)) with X.
    change (List.map uid (attrsIn (createOverlay k))) with [k; k + 1].
    rewrite <- (app_assoc X).
    transitivity (L1 ++ [k; k + 1] ++ X ++ L2).
    + apply Permutation_app_head. apply Permutation_app_swap_app.
    + apply Permutation_app_swap_app.
Qed.

Lemma markIrrelevant_doc_perm (k u : nat) (d : Node) :
  exists extra,
    (extra = [] \/ extra = [k; k + 1])
    /\ Permutation (ids (withElem u (markIrrelevantEl k) d)) (extra ++ ids d).
Proof.
  destruct (withElem_ids u (markIrrelevantEl k) d) as [-> | (l1 & x & l2 & E1 & E2)].
  - exists []. split; [now left | reflexivity].
  - destruct (markIrrelevantEl_perm k x) as (extra & He & Hp).
    exists extra. split; [exact He|]. rewrite E1, E2.
    transitivity (l1 ++ (extra ++ ids x) ++ l2).
    + apply Permutation_app_head, Permutation_app_tail, Hp.
    + rewrite <- app_assoc. apply Permutation_app_swap_app.
Qed.

Lemma markRelevant_doc_ids (u : nat) (d : Node) (x : nat) :
  In x (ids (withElem u markRelevantEl d)) -> In x (ids d).
Proof.
  destruct (withElem_ids u markRelevantEl d) as [-> | (l1 & n & l2 & E1 & E2)]; [auto|].
  rewrite E1, E2, !in_app_iff. intros [H | [H | H]]; auto.
  right. left. now apply markRelevantEl_ids.
Qed.

Lemma markRelevant_wellFormed (u : nat) (p : Page) :
  wellFormed p = true -> wellFormed (markRelevant u p) = true.
Proof.
  rewrite !wellFormed_iff. intros [Hn Hb]. cbn [markRelevant document nextUid].
  split; [now apply markRelevant_step|].
  intros x Hx. apply Hb. now apply (markRelevant_doc_ids u).
Qed.

Lemma markIrrelevant_wellFormed (u : nat) (p : Page) :
  wellFormed p = true -> wellFormed (markIrrelevant u p) = true.
Proof.
  rewrite !wellFormed_iff. intros [Hn Hb]. cbn [markIrrelevant document nextUid].
  destruct (markIrrelevant_doc_perm (nextUid p) u (document p)) as (extra & He & Hp).
  assert (Hfresh : forall y, nextUid p <= y -> ~ In y (ids (document p))).
  { intros y Hy Hin. specialize (Hb y Hin). lia. }
  split.
  - apply (Permutation_NoDup (Permutation_sym Hp)).
    destruct He as [-> | ->]; [exact Hn|].
    cbn [app]. constructor.
    + cbn [In]. intros [H | H]; [lia | revert H; apply Hfresh; lia].
    + constructor; [apply Hfresh; lia | exact Hn].
  - intros x Hx. apply (Permutation_in _ Hp) in Hx. apply in_app_iff in Hx.
    destruct Hx as [Hx | Hx]; [|specialize (Hb x Hx); lia].
    destruct He as [-> | ->]; [destruct Hx|].
    cbn [In] in Hx. destruct Hx as [<- | [<- | []]]; lia.
Qed.

Lemma scanVideo_wellFormed (goal : string) (p : Page) (r : Ref) :
  wellFormed p = true -> wellFormed (scanVideo goal p r) = true.
Proof.
  intros H. unfold scanVideo.
  destruct (findElem (uid (refAttrs r)) [] (document p)) as [now|]; [|exact H].
  destruct (extractTitle (refAncestors now) (refNode now)) as [t|]; [|exact H].
  destruct (isRelevant goal t).
  - now apply markRelevant_wellFormed.
  - now apply markIrrelevant_wellFormed.
Qed.

Lemma clearAllFilters_wellFormed (p : Page) :
  wellFormed p = true -> wellFormed (clearAllFilters p) = true.
Proof.
  unfold clearAllFilters.
  generalize (documentQuerySelectorAll [Class BLURRED] (document p)). intros l.
  revert p. induction l as [|r l IH]; intros p H; [exact H|].
  cbn [fold_left]. apply IH. now apply markRelevant_wellFormed.
Qed.

Lemma scanVideos_wellFormed (goal : string) (enabled : bool) (p : Page) :
  wellFormed p = true -> wellFormed (scanVideos goal enabled p) = true.
Proof.
  intros H. unfold scanVideos. destruct (negb enabled || falsy goal).
  - now apply clearAllFilters_wellFormed.
  - generalize (documentQuerySelectorAll VIDEO_SELECTORS (document p)). intros l.
    revert p H. induction l as [|r l IH]; intros p H; [exact H|].
    cbn [fold_left]. apply IH. now apply scanVideo_wellFormed.
Qed.

(** The same across a run of the engine. *)
Lemma fireDue_wellFormed (fuel t : nat) : forall st,
  wellFormed (page st) = true -> wellFormed (page (fireDue fuel t st)) = true.
Proof.
  induction fuel as [|k IH]; intros st H; cbn [fireDue]; [exact H|].
  destruct (earliestDue t (timers st)) as [timer|]; [|exact H].
  apply IH. cbn [fire runScan page]. now apply scanVideos_wellFormed.
Qed.

Lemma advanceTo_wellFormed (t : nat) (st : State) :
  wellFormed (page st) = true -> wellFormed (page (advanceTo t st)) = true.
Proof. intros H. unfold advanceTo. cbn [setClock page]. now apply fireDue_wellFormed. Qed.

Lemma debouncedScan_same_page (st : State) : page (debouncedScan st) = page st.
Proof. unfold debouncedScan. now destruct (scanTimer st). Qed.

Lemma handle_wellFormed (i : Input) (st : State) :
  wellFormed (page st) = true -> wellFormed (page (handle i st)) = true.
Proof.
  intros H. destruct i as [added | [g | e | ty] | lastError response | href].
  - unfold handle, onMutations.
    destruct (existsb (fun n => 0 <? n) added); [|exact H].
    now rewrite debouncedScan_same_page.
  - cbn [handle onMessage runScan page]. now apply scanVideos_wellFormed.
  - unfold handle, onMessage.
    destruct (negb (isEnabled (setEnabled (truthy e) st))).
    + cbn [runClear page]. now apply clearAllFilters_wellFormed.
    + cbn [runScan page]. now apply scanVideos_wellFormed.
  - exact H.
  - unfold handle, onStateResponse. destruct lastError; [exact H|].
    destruct response as [r|]; [|exact H].
    cbn [runScan page]. now apply scanVideos_wellFormed.
  - unfold handle, onPoll. destruct (String.eqb href (lastUrl st)); [exact H|].
    now rewrite debouncedScan_same_page.
Qed.

Lemma deliver_wellFormed (st : State) (ti : nat * Input) :
  wellFormed (page st) = true -> wellFormed (page (deliver st ti)) = true.
Proof. intros H. unfold deliver. now apply handle_wellFormed, advanceTo_wellFormed. Qed.

Lemma run_wellFormed (inputs : list (nat * Input)) : forall st,
  wellFormed (page st) = true -> wellFormed (page (run inputs st)) = true.
Proof.
  induction inputs as [|ti inputs IH]; intros st H; [exact H|].
  unfold run in *. cbn [fold_left]. now apply IH, deliver_wellFormed.
Qed.

End IdentityFacts.

(** ** Popup, worker and tabs *)

Module SystemFacts.

Import Dom Filter Observe Engine Background Popup System.
Import ClearFacts EngineFacts IdentityFacts.
Local Open Scope list_scope.

(** *** What a notification does in a tab *)

Lemma advanceTo_clock (t : nat) (st : State) : clock (advanceTo t st) = t.
Proof. reflexivity. Qed.

Lemma deliver_goal (st : State) (t : nat) (goal : string) :
  currentGoal (deliver st (t, Incoming (GOAL_UPDATED (Value goal)))) = goal
  /\ isEnabled (deliver st (t, Incoming (GOAL_UPDATED (Value goal)))) = isEnabled st
  /\ scanLog (deliver st (t, Incoming (GOAL_UPDATED (Value goal))))
     = scanLog (advanceTo t st) ++ [t]
  /\ page (deliver st (t, Incoming (GOAL_UPDATED (Value goal))))
     = scanVideos goal (isEnabled st) (page (advanceTo t st)).
Proof.
  unfold deliver.
  cbn [fst snd Engine.handle onMessage runScan setGoal currentGoal isEnabled page
       scanLog orEmpty clock].
  destruct (advanceTo_settings t st) as (_ & -> & _).
  rewrite advanceTo_clock. repeat split.
Qed.

Lemma deliver_toggle (st : State) (t : nat) (enabled : bool) :
  currentGoal (deliver st (t, Incoming (TOGGLE_CHANGED (Value enabled)))) = currentGoal st
  /\ isEnabled (deliver st (t, Incoming (TOGGLE_CHANGED (Value enabled)))) = enabled
  /\ page (deliver st (t, Incoming (TOGGLE_CHANGED (Value enabled))))
     = if enabled then scanVideos (currentGoal st) true (page (advanceTo t st))
       else clearAllFilters (page (advanceTo t st)).
Proof.
  unfold deliver. cbn [fst snd Engine.handle]. unfold onMessage.
  cbn [truthy setEnabled isEnabled].
  destruct (advanceTo_settings t st) as (Hg & _ & _).
  destruct enabled; cbn [negb runScan runClear setEnabled currentGoal isEnabled page];
    rewrite Hg; repeat split.
Qed.

Lemma deliver_page_event (st : State) (t : nat) (i : Input) :
  Scenario.carriesNoState i = true ->
  currentGoal (deliver st (t, i)) = currentGoal st
  /\ isEnabled (deliver st (t, i)) = isEnabled st.
Proof.
  intros H. unfold deliver. cbn [fst snd].
  destruct (handle_settings i (advanceTo t st) H) as (-> & -> & _).
  now destruct (advanceTo_settings t st) as (-> & -> & _).
Qed.

Lemma openTab_settings (t : nat) (href : string) (host : Page) (s : Storage) :
  currentGoal (openTab t href host s) = orEmpty (storedGoal s)
  /\ isEnabled (openTab t href host s) = notFalse (storedEnabled s)
  /\ page (openTab t href host s)
     = scanVideos (orEmpty (storedGoal s)) (notFalse (storedEnabled s)) host.
Proof.
  unfold openTab. cbn [onRequest reply]. unfold deliver. cbn [fst snd].
  rewrite (advanceTo_idle t (boot href host) eq_refl).
  cbn [Engine.handle onStateResponse focusGoal responseEnabled orEmpty].
  destruct (storedEnabled s) as [| | [|]]; repeat split.
Qed.

(** *** The invariant *)

Lemma mirrors_iff (s : Storage) (st : State) :
  mirrors s st = true
  <-> currentGoal st = orEmpty (storedGoal s)
      /\ isEnabled st = notFalse (storedEnabled s).
Proof.
  unfold mirrors. now rewrite andb_true_iff, String.eqb_eq, Bool.eqb_true_iff.
Qed.

Lemma onTab_forallb (P : State -> bool) (f : State -> State) (l : list State) :
  (forall st, P st = true -> P (f st) = true) ->
  forall n, forallb P l = true -> forallb P (onTab n f l) = true.
Proof.
  intros Hf. induction l as [|st l IH]; intros n H; [reflexivity|].
  cbn [forallb] in H. apply andb_true_iff in H. destruct H as [H1 H2].
  destruct n as [|k]; cbn [onTab forallb].
  - now rewrite (Hf st H1), H2.
  - now rewrite H1, (IH k H2).
Qed.

Lemma forallb_map_to {A : Type} (P Q : A -> bool) (f : A -> A) (l : list A) :
  (forall x, P x = true -> Q (f x) = true) ->
  forallb P l = true -> forallb Q (List.map f l) = true.
Proof.
  intros Hf. induction l as [|x l IH]; intros H; [reflexivity|].
  cbn [forallb List.map] in *. apply andb_true_iff in H. destruct H as [H1 H2].
  now rewrite (Hf x H1), (IH H2).
Qed.

Lemma page_event_mirrors (s : Storage) (t : nat) (i : Input) (st : State) :
  Scenario.carriesNoState i = true ->
  mirrors s st = true -> mirrors s (deliver st (t, i)) = true.
Proof.
  intros Hi. rewrite !mirrors_iff. intros [H1 H2].
  now destruct (deliver_page_event st t i Hi) as (-> & ->).
Qed.

Lemma send_inStep (t : nat) (request : Request) (ui : UI) (w : World) :
  inStep w = true ->
  match request with
  | SET_GOAL goal => JsString.trim goal = goal
  | _ => True
  end ->
  (forall ui0, popup w = Some ui0 ->
               showsToggle (store w) ui0 = true ->
               showsToggle (stored (onRequest request (store w))) ui = true) ->
  popup w <> None ->
  inStep (send t request ui w) = true.
Proof.
  unfold inStep. rewrite !andb_true_iff. intros [[Hg Ht] Hp] Hreq Hui Hopen.
  destruct (popup w) as [ui0|] eqn:Eu; [|now destruct Hopen].
  specialize (Hui ui0 eq_refl Hp).
  unfold send. cbn [store popup tabs].
  destruct request as [| goal | enabled | ty];
    cbn [onRequest stored broadcast] in *; repeat split; auto.
  - unfold goalTrimmed. cbn [storedGoal]. now apply String.eqb_eq.
  - apply (forallb_map_to (mirrors (store w))); [|exact Ht].
    intros st. rewrite !mirrors_iff. cbn [storedGoal storedEnabled orEmpty].
    intros [_ H2]. now destruct (deliver_goal st t goal) as (-> & -> & _).
  - apply (forallb_map_to (mirrors (store w))); [|exact Ht].
    intros st. rewrite !mirrors_iff. cbn [storedGoal storedEnabled notFalse].
    intros [H1 _]. destruct (deliver_toggle st t enabled) as (-> & -> & _).
    split; [exact H1 | now destruct enabled].
Qed.

Lemma save_inStep (t : nat) (ui : UI) (w : World) :
  inStep w = true ->
  popup w = Some ui ->
  inStep match save ui with
         | (ui', Some request) => send t request ui' w
         | (ui', None) => mkWorld (store w) (Some ui') (tabs w)
         end = true.
Proof.
  intros H Eu. unfold save.
  destruct (falsy (JsString.trim (goalInput ui))).
  - unfold inStep in *. cbn [store popup tabs]. now rewrite Eu in H.
  - apply send_inStep; [exact H | apply ScanMore.trim_fix | | now rewrite Eu].
    intros ui0 E0 Hs. rewrite Eu in E0. injection E0 as <-. exact Hs.
Qed.

Lemma happen_inStep (w : World) (th : nat * Happening) :
  inStep w = true -> inStep (happen w th) = true.
Proof.
  intros H. destruct th as [t h]. unfold happen. cbn [fst snd].
  destruct h as [href host | n added | n href | fresh | e].
  - unfold inStep in *. cbn [store popup tabs].
    rewrite !andb_true_iff in *. destruct H as [[Hg Ht] Hp].
    repeat split; auto. rewrite forallb_app, Ht. cbn [forallb].
    rewrite andb_true_r. apply mirrors_iff.
    now destruct (openTab_settings t href host (store w)) as (-> & -> & _).
  - unfold inStep in *. cbn [store popup tabs].
    rewrite !andb_true_iff in *. destruct H as [[Hg Ht] Hp].
    repeat split; auto. apply onTab_forallb; [|exact Ht].
    intros st. now apply page_event_mirrors.
  - unfold inStep in *. cbn [store popup tabs].
    rewrite !andb_true_iff in *. destruct H as [[Hg Ht] Hp].
    repeat split; auto. apply onTab_forallb; [|exact Ht].
    intros st. now apply page_event_mirrors.
  - unfold inStep in *. cbn [store popup tabs].
    rewrite !andb_true_iff in *. destruct H as [[Hg Ht] _].
    repeat split; auto. unfold showsToggle, load.
    destruct (falsy (JsString.trim (orEmpty (storedGoal (store w)))));
      cbn [toggleSwitch statusOff showActiveGoal applyToggleUI setToggle setGoalInput];
      now rewrite !Bool.eqb_reflx.
  - destruct (popup w) as [ui|] eqn:Eu; [|exact H].
    destruct e as [value | | key | | checked].
    + unfold inStep in *. cbn [Popup.handle store popup tabs]. now rewrite Eu in H.
    + cbn [Popup.handle]. now apply save_inStep.
    + cbn [Popup.handle]. destruct (String.eqb key "Enter").
      * now apply save_inStep.
      * unfold inStep in *. cbn [store popup tabs]. now rewrite Eu in H.
    + cbn [Popup.handle]. apply send_inStep; [exact H | reflexivity | | now rewrite Eu].
      intros ui0 E0 Hs. rewrite Eu in E0. injection E0 as <-. exact Hs.
    + cbn [Popup.handle]. apply send_inStep; [exact H | exact I | | now rewrite Eu].
      intros _ _ _. unfold showsToggle.
      cbn [onRequest stored storedEnabled notFalse toggleSwitch statusOff showToast
           applyToggleUI setToggle].
      destruct checked; reflexivity.
Qed.

(** X18: whatever happens after the extension is installed (tabs opening,
    their pages changing, the popup opening and being used), the goal
    stored is a trimmed string, every tab holds the goal and the toggle
    the store holds, and the popup, when open, shows that toggle. *)
Theorem tabs_and_popup_follow_store :
  forall (happenings : list (nat * Happening)),
    inStep (history happenings installed) = true.
Proof.
  intros happenings.
  assert (H : inStep installed = true) by reflexivity.
  revert H. generalize installed.
  induction happenings as [|th l IH]; intros w H; [exact H|].
  unfold history in *. cbn [fold_left]. now apply IH, happen_inStep.
Qed.

(** *** Saving a goal *)

(** X19: saving stores and sends the goal without the white space typed
    around it, and nothing at all when only white space was typed; in
    every tab the goal then set has the keywords of the text typed and
    judges every title as that text would, and the tab has scanned at
    once. *)
Theorem save_sends_trimmed_goal :
  forall (w : World) (ui : UI) (t : nat),
    popup w = Some ui ->
    if falsy (JsString.trim (goalInput ui))
    then store (happen w (t, PopupUsed ClickSave)) = store w
         /\ tabs (happen w (t, PopupUsed ClickSave)) = tabs w
    else storedGoal (store (happen w (t, PopupUsed ClickSave)))
         = Value (JsString.trim (goalInput ui))
         /\ List.length (tabs (happen w (t, PopupUsed ClickSave)))
            = List.length (tabs w)
         /\ forall st',
              In st' (tabs (happen w (t, PopupUsed ClickSave))) ->
              currentGoal st' = JsString.trim (goalInput ui)
              /\ extractKeywords (Some (currentGoal st'))
                 = extractKeywords (Some (goalInput ui))
              /\ (forall videoTitle,
                    isRelevant (currentGoal st') videoTitle
                    = isRelevant (goalInput ui) videoTitle)
              /\ last (scanLog st') 0 = t.
Proof.
  intros w ui t Eu. unfold happen. cbn [fst snd]. rewrite Eu.
  cbn [Popup.handle]. unfold save.
  destruct (falsy (JsString.trim (goalInput ui))) eqn:E.
  - cbn [store tabs]. now split.
  - unfold send. cbn [onRequest stored broadcast store tabs storedGoal].
    split; [reflexivity|]. split; [apply length_map|].
    intros st' Hin. apply in_map_iff in Hin. destruct Hin as (st & <- & _).
    destruct (deliver_goal st t (JsString.trim (goalInput ui))) as (-> & _ & -> & _).
    split; [reflexivity|]. split; [apply KeywordMore.trim_keywords|]. split.
    + intros videoTitle. rewrite !KeywordMore.isRelevant_by_keywords.
      now rewrite KeywordMore.trim_keywords.
    + apply last_last.
Qed.

Lemma save_sends_trimmed_goal_witness :
  storedGoal
    (store (happen (mkWorld (onInstalled emptyStorage)
                      (Some (setGoalInput "  learn Rust " freshPopup))
                      [boot "https://www.youtube.com/" samplePage])
                   (50, PopupUsed ClickSave)))
  = Value "learn Rust".
Proof.
  exact (proj1 (save_sends_trimmed_goal
                  (mkWorld (onInstalled emptyStorage)
                     (Some (setGoalInput "  learn Rust " freshPopup))
                     [boot "https://www.youtube.com/" samplePage])
                  (setGoalInput "  learn Rust " freshPopup) 50 eq_refl)).
Defined.

(** *** Clearing the goal and pausing *)

Lemma happen_wellFormed (w : World) (th : nat * Happening) :
  hostsWellFormed [th] = true ->
  forallb (fun st => wellFormed (page st)) (tabs w) = true ->
  forallb (fun st => wellFormed (page st)) (tabs (happen w th)) = true.
Proof.
  intros Hh H. destruct th as [t h]. unfold happen. cbn [fst snd].
  cbn [hostsWellFormed forallb snd] in Hh. rewrite andb_true_r in Hh.
  destruct h as [href host | n added | n href | fresh | e]; cbn [tabs].
  - rewrite forallb_app, H. cbn [forallb]. rewrite andb_true_r.
    destruct (openTab_settings t href host (store w)) as (_ & _ & ->).
    now apply scanVideos_wellFormed.
  - apply onTab_forallb; [|exact H]. intros st. apply deliver_wellFormed.
  - apply onTab_forallb; [|exact H]. intros st. apply deliver_wellFormed.
  - exact H.
  - destruct (popup w) as [ui|]; [|exact H].
    destruct (Popup.handle e ui) as [ui' [request|]]; [|exact H].
    unfold send. cbn [tabs].
    destruct (broadcast (onRequest request (store w))) as [message|]; [|exact H].
    apply (forallb_map_to (fun st => wellFormed (page st))); [|exact H].
    intros st. apply deliver_wellFormed.
Qed.

Lemma history_wellFormed (happenings : list (nat * Happening)) : forall w,
  hostsWellFormed happenings = true ->
  forallb (fun st => wellFormed (page st)) (tabs w) = true ->
  forallb (fun st => wellFormed (page st)) (tabs (history happenings w)) = true.
Proof.
  induction happenings as [|th l IH]; intros w Hh H; [exact H|].
  unfold hostsWellFormed in Hh. cbn [forallb] in Hh.
  apply andb_true_iff in Hh. destruct Hh as [H1 H2].
  unfold history in *. cbn [fold_left]. apply IH; [exact H2|].
  apply happen_wellFormed; [|exact H].
  unfold hostsWellFormed. cbn [forallb]. now rewrite H1.
Qed.

Lemma cleared_page (p : Page) :
  wellFormed p = true -> markedItems (document (clearAllFilters p)) = [].
Proof.
  intros H. unfold wellFormed in H. apply andb_true_iff in H. destruct H as [Hu _].
  now destruct (clearAllFilters_spec p Hu) as (_ & _ & ->).
Qed.

(** X20: clearing the goal in the popup, or switching the extension off
    there, leaves no item marked in any tab, whatever happened before
    in tabs whose documents were well formed when they opened. *)
Theorem clear_or_pause_unmarks_every_tab :
  forall (happenings : list (nat * Happening)) (t : nat) (e : Event) (st' : State),
    hostsWellFormed happenings = true ->
    popup (history happenings installed) <> None ->
    e = ClickClear \/ e = Toggled false ->
    In st' (tabs (happen (history happenings installed) (t, PopupUsed e))) ->
    markedItems (document (page st')) = []
    /\ (e = ClickClear -> currentGoal st' = EmptyString)
    /\ (e = Toggled false -> isEnabled st' = false).
Proof.
  intros happenings t e st' Hh Hopen He Hin.
  pose proof (history_wellFormed happenings installed Hh eq_refl) as Hwf.
  set (w := history happenings installed) in *.
  rewrite forallb_forall in Hwf.
  unfold happen in Hin. cbn [fst snd] in Hin.
  destruct (popup w) as [ui|]; [|now destruct Hopen].
  destruct He as [-> | ->]; cbn [Popup.handle] in Hin; unfold send in Hin;
    cbn [onRequest broadcast tabs] in Hin;
    apply in_map_iff in Hin; destruct Hin as (st & <- & Hst);
    pose proof (advanceTo_wellFormed t st (Hwf st Hst)) as Hp.
  - destruct (deliver_goal st t EmptyString) as (Hg & _ & _ & ->).
    split; [|split; [auto | discriminate]].
    assert (Es : scanVideos "" (isEnabled st) (page (advanceTo t st))
                 = clearAllFilters (page (advanceTo t st))).
    { unfold scanVideos. cbn [falsy]. now rewrite orb_true_r. }
    rewrite Es. now apply cleared_page.
  - destruct (deliver_toggle st t false) as (_ & He & ->).
    split; [now apply cleared_page | split; [discriminate | auto]].
Qed.

Lemma clear_or_pause_unmarks_every_tab_witness :
  Forall (fun st' => markedItems (document (page st')) = [])
    (tabs (happen
             (history [ (0, PopupOpened freshPopup);
                        (10, PopupUsed (Typed "learn rust"));
                        (20, PopupUsed ClickSave);
                        (30, TabOpened "https://www.youtube.com/" samplePage) ]
                      installed)
             (40, PopupUsed ClickClear))).
Proof.
  apply Forall_forall. intros st' Hin.
  refine (proj1 (clear_or_pause_unmarks_every_tab
                   [ (0, PopupOpened freshPopup);
                     (10, PopupUsed (Typed "learn rust"));
                     (20, PopupUsed ClickSave);
                     (30, TabOpened "https://www.youtube.com/" samplePage) ]
                   40 ClickClear st' _ _ _ Hin)).
  - reflexivity.
  - discriminate.
  - now left.
Defined.

Example world_after_save :
  List.map (fun st => (currentGoal st, markedUids (document (page st))))
    (tabs (history [ (0, TabOpened "https://www.youtube.com/" samplePage);
                     (5, PopupOpened freshPopup);
                     (10, PopupUsed (Typed " learn rust  "));
                     (20, PopupUsed (KeyDown "Enter")) ]
                   installed))
  = [("learn rust", [1])].
Proof. reflexivity. Qed.

End SystemFacts.

(** ** The reminder on social sites *)

Module SocialFacts.

Import Filter Engine Social.
Local Open Scope list_scope.

(** *** The countdown *)

Lemma run_app (l1 l2 : list Input) (st : State) :
  run (l1 ++ l2) st = run l2 (run l1 st).
Proof. unfold run. apply fold_left_app. Qed.

Lemma seconds_S (n : nat) (st : State) : seconds (S n) st = seconds n (tick st).
Proof. reflexivity. Qed.

Lemma seconds_plus (a b : nat) (st : State) :
  seconds (a + b) st = seconds b (seconds a st).
Proof. unfold seconds. now rewrite repeat_app, run_app. Qed.

(** While more seconds remain than pass, only the count changes. *)
Lemma seconds_countdown (n : nat) : forall st id,
  countdownTimer st = Some id ->
  (Z.of_nat n < remainingSeconds st)%Z ->
  seconds n st = setRemaining (remainingSeconds st - Z.of_nat n) st.
Proof.
  induction n as [|n IH]; intros st id Et Hr.
  - unfold seconds, setRemaining. cbn [repeat run fold_left Z.of_nat].
    rewrite Z.sub_0_r. now destruct st.
  - rewrite seconds_S. unfold tick. rewrite Et.
    cbn [setRemaining remainingSeconds].
    destruct (Z.leb_spec (remainingSeconds st - 1) 0) as [Hle | Hgt]; [lia|].
    rewrite (IH _ id); [|exact Et | cbn [setRemaining remainingSeconds]; lia].
    unfold setRemaining. cbn [currentGoal isEnabled countdownTimer remainingSeconds
      hostElement pointerEvents modal hostname nextInterval showPending leaving].
    f_equal. lia.
Qed.

Lemma tick_last (st : State) (id : nat) :
  countdownTimer st = Some id ->
  remainingSeconds st = 1%Z ->
  tick st = showModal (clearTimer st).
Proof. intros Et Er. unfold tick. rewrite Et. cbn [setRemaining remainingSeconds]. now rewrite Er. Qed.

(** X21: after "Continue" the modal is gone and the page usable for five
    minutes: as long as fewer than 300 seconds have passed the
    countdown runs with what is left of them; with the 300th second it
    stops, and the modal is back with the current goal, unless the
    reminder was switched off. *)
Theorem continue_hides_for_five_minutes :
  forall (st : State),
    modalShown st = true ->
    (forall n,
       n < 300 ->
       modal (seconds n (handle ClickContinue st)) = None
       /\ pointerEvents (seconds n (handle ClickContinue st)) = false
       /\ countdownTimer (seconds n (handle ClickContinue st)) = Some (nextInterval st)
       /\ remainingSeconds (seconds n (handle ClickContinue st))
          = (300 - Z.of_nat n)%Z)
    /\ countdownTimer (seconds 300 (handle ClickContinue st)) = None
    /\ remainingSeconds (seconds 300 (handle ClickContinue st)) = 0%Z
    /\ modal (seconds 300 (handle ClickContinue st))
       = if isEnabled st then Some (getModal (hostname st) (currentGoal st)) else None.
Proof.
  intros st Hshown. cbn [handle]. unfold clickContinue. rewrite Hshown.
  unfold modalShown in Hshown. apply andb_true_iff in Hshown.
  destruct Hshown as [Hhost _].
  set (st1 := startTimer (hideModal st)).
  assert (Et : countdownTimer st1 = Some (nextInterval st)) by reflexivity.
  assert (Er : remainingSeconds st1 = 300%Z) by reflexivity.
  assert (Hn : forall n, n < 300 ->
                 seconds n st1 = setRemaining (300 - Z.of_nat n) st1).
  { intros n Hlt. rewrite (seconds_countdown n st1 _ Et); [now rewrite Er | lia]. }
  split.
  - intros n Hlt. rewrite (Hn n Hlt). subst st1.
    cbn [setRemaining startTimer clearTimer hideModal modal pointerEvents
         countdownTimer remainingSeconds hostElement nextInterval].
    rewrite Hhost. repeat split.
  - assert (E299 : seconds 299 st1 = setRemaining 1 st1)
      by (rewrite Hn by lia; reflexivity).
    change 300 with (299 + 1). rewrite seconds_plus, E299.
    change (seconds 1 (setRemaining 1 st1)) with (tick (setRemaining 1 st1)).
    rewrite (tick_last _ (nextInterval st)) by reflexivity.
    unfold showModal. subst st1.
    cbn [clearTimer setRemaining startTimer hideModal isEnabled currentGoal hostname
         modal hostElement].
    destruct (isEnabled st);
      cbn [negb countdownTimer remainingSeconds modal clearTimer setRemaining
           startTimer hideModal hostElement];
      rewrite ?Hhost; repeat split.
Qed.

Lemma continue_hides_for_five_minutes_witness :
  modal (seconds 300
           (handle ClickContinue
              (onShowTimeout
                 (onStateResponse false
                    (Some (mkResponse (Value "learn rust") (Value true)))
                    (boot "www.instagram.com")))))
  = Some (mkModal "Instagram" (GoalCard "learn rust")).
Proof.
  exact (proj2 (proj2 (proj2
           (continue_hides_for_five_minutes
              (onShowTimeout
                 (onStateResponse false
                    (Some (mkResponse (Value "learn rust") (Value true)))
                    (boot "www.instagram.com")))
              eq_refl)))).
Defined.

(** *** The range of the countdown *)

Lemma handle_countdown (i : Input) (st : State) :
  countdownInRange st = true -> countdownInRange (handle i st) = true.
Proof.
  intros H. destruct i as [[g | e | ty] | lastError response | | | | n]; cbn [handle].
  - unfold onMessage.
    destruct (modalShown (setGoal (orEmpty g) st)); [|exact H].
    unfold showModal. destruct (negb (isEnabled (setGoal (orEmpty g) st))); exact H.
  - unfold onMessage. cbn [isEnabled setEnabled].
    destruct (truthy e); cbn [negb].
    + unfold showModal. cbn [isEnabled setEnabled negb]. exact H.
    + unfold teardown.
      destruct (hostElement (hideModal (clearTimer (setEnabled false st)))); reflexivity.
  - exact H.
  - unfold onStateResponse. destruct lastError; [exact H|].
    destruct response as [r|]; [|exact H].
    destruct (isEnabled (setEnabled (notFalse (responseEnabled r))
                           (setGoal (orEmpty (focusGoal r)) st))); exact H.
  - unfold onShowTimeout. destruct (showPending st) as [|k]; [exact H|].
    unfold showModal. destruct (negb (isEnabled (setShowPending k st))); exact H.
  - unfold tick, countdownInRange in *. destruct (countdownTimer st) as [id|] eqn:Et.
    + cbn [setRemaining remainingSeconds].
      destruct (Z.leb_spec (remainingSeconds st - 1) 0) as [Hle | Hgt].
      * unfold showModal.
        destruct (negb (isEnabled (clearTimer (setRemaining (remainingSeconds st - 1) st))));
          reflexivity.
      * cbn [countdownTimer setRemaining remainingSeconds]. rewrite Et.
        apply andb_true_iff in H. destruct H as [H1 H2].
        apply Z.leb_le in H1, H2. apply andb_true_iff.
        split; apply Z.leb_le; lia.
    + now rewrite Et.
  - unfold clickContinue. destruct (modalShown st); [reflexivity | exact H].
  - unfold clickBack. destruct (modalShown st); exact H.
Qed.

(** X22: whatever the script receives, the count of seconds left never goes
    below zero: while the countdown runs between one second and five
    minutes are left, and none when it does not run. *)
Theorem countdown_stays_in_range :
  forall (host : string) (inputs : list Input),
    countdownInRange (run inputs (boot host)) = true.
Proof.
  intros host inputs.
  assert (H : forall st, countdownInRange st = true ->
                         countdownInRange (run inputs st) = true).
  { induction inputs as [|i l IH]; intros st H; [exact H|].
    unfold run in *. cbn [fold_left]. now apply IH, handle_countdown. }
  now apply H.
Qed.

(** *** The reminder switched off *)

Lemma handle_coherent (i : Input) (st : State) :
  coherent st = true -> coherent (handle i st) = true.
Proof.
  destruct st as [g e ct r h pe m hn ni sp lv]. unfold coherent.
  cbn [hostElement pointerEvents modal].
  destruct i as [[g' | e' | ty] | lastError response | | | | n]; cbn [handle]; intros H.
  - unfold onMessage, modalShown, showModal.
    cbn [setGoal hostElement modal isEnabled pointerEvents].
    destruct h, m, e; cbn in *; auto.
  - unfold onMessage, teardown, showModal, hideModal, clearTimer.
    cbn [setEnabled hostElement modal isEnabled pointerEvents].
    destruct (truthy e'), h; cbn in *; auto.
  - exact H.
  - unfold onStateResponse. destruct lastError; [exact H|].
    destruct response as [rs|]; [|exact H].
    cbn [setEnabled setGoal isEnabled].
    destruct (notFalse (responseEnabled rs)); exact H.
  - unfold onShowTimeout. cbn [showPending]. destruct sp as [|k]; [exact H|].
    unfold showModal. cbn [setShowPending isEnabled]. destruct e; cbn; auto.
  - unfold tick. cbn [countdownTimer]. destruct ct as [id|]; [|exact H].
    cbn [setRemaining remainingSeconds]. destruct (r - 1 <=? 0)%Z; [|exact H].
    unfold showModal. cbn [clearTimer isEnabled]. destruct e; cbn; auto.
  - unfold clickContinue, modalShown. cbn [hostElement modal].
    destruct h, m; cbn in *; auto.
  - unfold clickBack, modalShown. cbn [hostElement modal].
    destruct h, m; cbn in *; auto.
Qed.

Lemma run_coherent (inputs : list Input) : forall st,
  coherent st = true -> coherent (run inputs st) = true.
Proof.
  induction inputs as [|i l IH]; intros st H; [exact H|].
  unfold run in *. cbn [fold_left]. now apply IH, handle_coherent.
Qed.

Lemma teardown_tornDown (st : State) :
  coherent st = true -> tornDown (teardown st) = true.
Proof.
  destruct st as [g e ct r h pe m hn ni sp lv]. unfold coherent, tornDown, teardown.
  cbn [hideModal clearTimer hostElement pointerEvents modal countdownTimer].
  destruct h, pe, m; cbn; auto.
Qed.

Lemma handle_off (i : Input) (st : State) :
  staysOff i = true ->
  isEnabled st = false ->
  tornDown st = true ->
  isEnabled (handle i st) = false /\ tornDown (handle i st) = true.
Proof.
  destruct st as [g e ct r h pe m hn ni sp lv]. unfold tornDown.
  cbn [isEnabled hostElement pointerEvents modal countdownTimer].
  intros Hi -> H.
  destruct h; [discriminate|]. destruct pe; [discriminate|].
  destruct m; [discriminate|]. destruct ct; [discriminate|]. clear H.
  destruct i as [[g' | e' | ty] | lastError response | | | | n]; cbn [handle];
    try (split; reflexivity).
  - cbn [staysOff] in Hi. apply negb_true_iff in Hi.
    unfold onMessage. cbn [setEnabled isEnabled]. rewrite Hi. split; reflexivity.
  - unfold onStateResponse. destruct lastError; [split; reflexivity|].
    destruct response as [rs|]; [|split; reflexivity].
    cbn [staysOff] in Hi. apply negb_true_iff in Hi.
    cbn [setEnabled setGoal isEnabled]. rewrite Hi. split; reflexivity.
  - unfold onShowTimeout. cbn [showPending]. destruct sp; split; reflexivity.
Qed.

(** X23: once the reminder is switched off, whatever happened before,
    nothing of it is left in the page and no countdown runs, and it
    stays so whatever the script receives short of being switched on
    again: timeouts and intervals running out, new goals, clicks. *)
Theorem switched_off_reminder_stays_away :
  forall (host : string) (before : list Input) (enabled : Field bool)
         (after : list Input),
    truthy enabled = false ->
    forallb staysOff after = true ->
    isEnabled (run (before ++ Incoming (TOGGLE_CHANGED enabled) :: after) (boot host))
    = false
    /\ tornDown (run (before ++ Incoming (TOGGLE_CHANGED enabled) :: after) (boot host))
       = true.
Proof.
  intros host before enabled after He Hafter.
  rewrite run_app.
  pose proof (run_coherent before (boot host) eq_refl) as Hc.
  set (st := run before (boot host)) in *.
  change (run (Incoming (TOGGLE_CHANGED enabled) :: after) st)
    with (run after (onMessage (TOGGLE_CHANGED enabled) st)).
  assert (H0 : isEnabled (onMessage (TOGGLE_CHANGED enabled) st) = false
               /\ tornDown (onMessage (TOGGLE_CHANGED enabled) st) = true).
  { unfold onMessage. cbn [setEnabled isEnabled]. rewrite He. cbn [negb].
    split; [|now apply teardown_tornDown].
    unfold teardown.
    now destruct (hostElement (hideModal (clearTimer (setEnabled false st)))). }
  revert H0. generalize (onMessage (TOGGLE_CHANGED enabled) st). clear st Hc.
  induction after as [|i l IH]; intros st H0; [exact H0|].
  cbn [forallb] in Hafter. apply andb_true_iff in Hafter. destruct Hafter as [Hi Hl].
  unfold run in *. cbn [fold_left]. apply (IH Hl).
  destruct H0 as [H1 H2]. now apply handle_off.
Qed.

Lemma switched_off_reminder_stays_away_witness :
  tornDown
    (run ([ StateResponse false (Some (mkResponse (Value "learn rust") (Value true)));
            ShowTimeout; ClickContinue; Tick ]
          ++ Incoming (TOGGLE_CHANGED (Value false))
          :: [ Tick; Incoming (GOAL_UPDATED (Value "write thesis")); ShowTimeout ])
         (boot "www.facebook.com"))
  = true.
Proof.
  exact (proj2 (switched_off_reminder_stays_away "www.facebook.com"
                  [ StateResponse false (Some (mkResponse (Value "learn rust") (Value true)));
                    ShowTimeout; ClickContinue; Tick ]
                  (Value false)
                  [ Tick; Incoming (GOAL_UPDATED (Value "write thesis")); ShowTimeout ]
                  eq_refl eq_refl)).
Defined.

(** *** The goal the modal shows *)

Lemma getModal_shows (hn g : string) :
  match body (getModal hn g) with
  | GoalCard goalText => String.eqb goalText g
  | NoGoalNote => falsy g
  end = true.
Proof. unfold getModal. cbn [body]. destruct g; [reflexivity | apply String.eqb_refl]. Qed.

Lemma handle_shows (i : Input) (st : State) :
  afterInit i = true ->
  coherent st = true ->
  offHidden st = true ->
  showsCurrentGoal st = true ->
  offHidden (handle i st) = true /\ showsCurrentGoal (handle i st) = true.
Proof.
  destruct st as [g e ct r h pe m hn ni sp lv].
  unfold coherent, offHidden, showsCurrentGoal.
  cbn [hostElement pointerEvents modal isEnabled currentGoal].
  intros Hi Hc Ho Hs.
  destruct i as [[g' | e' | ty] | lastError response | | | | n]; cbn [handle];
    try discriminate Hi.
  - unfold onMessage, modalShown. cbn [setGoal hostElement modal].
    destruct h, m as [md|]; cbn [andb orb negb] in *;
      try (destruct pe; discriminate Hc); try (now split).
    destruct e; [|discriminate Ho].
    unfold offHidden, showsCurrentGoal, showModal.
    cbn [isEnabled negb modal currentGoal hostname orb].
    split; [reflexivity | apply getModal_shows].
  - unfold onMessage. cbn [setEnabled isEnabled]. destruct (truthy e'); cbn [negb].
    + unfold offHidden, showsCurrentGoal, showModal.
      cbn [isEnabled negb modal currentGoal hostname orb].
      split; [reflexivity | apply getModal_shows].
    + unfold teardown, hideModal, clearTimer, offHidden, showsCurrentGoal.
      cbn [hostElement modal isEnabled currentGoal].
      destruct h, m as [md|]; cbn [andb orb negb modal isEnabled] in *;
        try (destruct pe; discriminate Hc); now split.
  - now split.
  - unfold onShowTimeout. cbn [showPending]. destruct sp as [|k]; [now split|].
    unfold offHidden, showsCurrentGoal, showModal.
    cbn [setShowPending isEnabled currentGoal hostname modal].
    destruct e; cbn [negb isEnabled modal currentGoal orb];
      [split; [reflexivity | apply getModal_shows] | now split].
  - unfold tick. cbn [countdownTimer]. destruct ct as [id|]; [|now split].
    cbn [setRemaining remainingSeconds]. destruct (r - 1 <=? 0)%Z; [|now split].
    unfold offHidden, showsCurrentGoal, showModal.
    cbn [clearTimer isEnabled currentGoal hostname modal].
    destruct e; cbn [negb isEnabled modal currentGoal orb];
      [split; [reflexivity | apply getModal_shows] | now split].
  - unfold clickContinue, modalShown. cbn [hostElement modal].
    destruct h, m as [md|]; cbn [andb] in *; try (now split).
    unfold offHidden, showsCurrentGoal. cbn. now rewrite orb_true_r.
  - unfold clickBack, modalShown. cbn [hostElement modal].
    destruct h, m as [md|]; cbn [andb] in *; now split.
Qed.

(** X24: when the answer to GET_STATE, if there is one, comes before
    anything else, the modal shows the current goal whenever it is
    rendered, or the note that none is set when the goal is empty, and
    it is never rendered while the reminder is switched off. *)
Theorem modal_shows_current_goal :
  forall (host : string) (lastError : bool) (response : option Response)
         (inputs : list Input),
    forallb afterInit inputs = true ->
    showsCurrentGoal (run (StateResponse lastError response :: inputs) (boot host)) = true
    /\ offHidden (run (StateResponse lastError response :: inputs) (boot host)) = true.
Proof.
  intros host lastError response inputs Hin.
  change (run (StateResponse lastError response :: inputs) (boot host))
    with (run inputs (onStateResponse lastError response (boot host))).
  assert (H0 : coherent (onStateResponse lastError response (boot host)) = true
               /\ offHidden (onStateResponse lastError response (boot host)) = true
               /\ showsCurrentGoal (onStateResponse lastError response (boot host)) = true).
  { unfold onStateResponse. destruct lastError; [now repeat split|].
    destruct response as [rs|]; [|now repeat split].
    cbn [setEnabled setGoal isEnabled boot].
    destruct (notFalse (responseEnabled rs)); now repeat split. }
  revert H0. generalize (onStateResponse lastError response (boot host)).
  induction inputs as [|i l IH]; intros st (Hc & Ho & Hs); [now split|].
  cbn [forallb] in Hin. apply andb_true_iff in Hin. destruct Hin as [Hi Hl].
  unfold run in *. cbn [fold_left]. apply (IH Hl).
  split; [now apply handle_coherent|]. now apply handle_shows.
Qed.

Lemma modal_shows_current_goal_witness :
  showsCurrentGoal
    (run [ StateResponse false (Some (mkResponse (Value "learn rust") (Value true)));
           ShowTimeout; Incoming (GOAL_UPDATED (Value "write thesis")) ]
         (boot "www.instagram.com"))
  = true.
Proof.
  exact (proj1 (modal_shows_current_goal "www.instagram.com" false
                  (Some (mkResponse (Value "learn rust") (Value true)))
                  [ ShowTimeout; Incoming (GOAL_UPDATED (Value "write thesis")) ]
                  eq_refl)).
Defined.

Example modal_follows_goal_update :
  modal (run [ StateResponse false (Some (mkResponse (Value "learn rust") (Value true)));
               ShowTimeout; Incoming (GOAL_UPDATED (Value "write thesis")) ]
             (boot "www.instagram.com"))
  = Some (mkModal "Instagram" (GoalCard "write thesis")).
Proof. reflexivity. Qed.

End SocialFacts.
